(** * A shallow embedding of the coding agent's tool-invocation subsystem

    Sources embedded here:
    - [src/agent.ts]               (class [CodingAgent])
    - [src/tools/commandTools.ts]  (class [CommandTools])
    - [src/tools/fileTools.ts]     (class [FileTools])
    - [src/tools/gmailTools.ts]    (class [GmailTools])
    - [src/cli.ts]                 (class [CLI], the interactive loop)

    JavaScript strings are modelled as sequences of 8-bit code units
    ([list ascii]); the code units 0..255 behave as the first 256 UTF-16 code
    units do (Latin-1), so that the character classes [\s], [\w], [trim] and
    [toLowerCase] below are the ECMAScript ones restricted to that range. *)

From Stdlib Require Import Ascii String ZArith QArith_base Lia Bool DecimalString.
From stdpp Require Import base option list gmap.

Set Default Proof Using "Type".
Open Scope list_scope.

(** ** JavaScript strings *)

Abbreviation JsString := (list ascii).

Definition lit (s : string) : JsString := list_ascii_of_string s.

(** A value that is either a string or [undefined] (an array element read
    past the end, an optional parameter that was not passed). *)
Abbreviation JsArg := (option JsString).

(** [`${v}`]: [undefined] prints as the nine letters of its name. *)
Definition template (v : JsArg) : JsString :=
  match v with
  | Some s => s
  | None => lit "undefined"
  end.

Definition in_range (lo hi : nat) (c : ascii) : bool :=
  (lo <=? nat_of_ascii c)%nat && (nat_of_ascii c <=? hi)%nat.

(** [\s], and the characters removed by [String.prototype.trim]: WhiteSpace
    and LineTerminator (TAB, LF, VT, FF, CR, SP and NBSP in this range). *)
Definition is_space (c : ascii) : bool :=
  in_range 9 13 c || in_range 32 32 c || in_range 160 160 c.

(** [\w] without the [u] and [i] flags: [A-Za-z0-9_]. *)
Definition is_word (c : ascii) : bool :=
  in_range 97 122 c || in_range 65 90 c || in_range 48 57 c || in_range 95 95 c.

(** [[^)]] *)
Definition not_rparen (c : ascii) : bool := negb (Ascii.eqb c ")").

(** The class of the two quote characters, code units 39 and 34. *)
Definition is_quote (c : ascii) : bool :=
  Ascii.eqb c (ascii_of_nat 39) || Ascii.eqb c (ascii_of_nat 34).

(** [String.prototype.toLowerCase] on one code unit: A-Z, and the Latin-1
    capitals U+00C0..U+00DE except the multiplication sign U+00D7. *)
Definition lower_char (c : ascii) : ascii :=
  if in_range 65 90 c || (in_range 192 222 c && negb (in_range 215 215 c))
  then ascii_of_nat (nat_of_ascii c + 32)
  else c.

Definition toLowerCase (s : JsString) : JsString := map lower_char s.

Fixpoint skip_space (s : JsString) : JsString :=
  match s with
  | c :: s' => if is_space c then skip_space s' else s
  | [] => []
  end.

(** [String.prototype.trim] *)
Definition trim (s : JsString) : JsString :=
  rev (skip_space (rev (skip_space s))).

(** [s.replace(re, empty)] where [re] is the global pattern over the class
    of the two quote characters: every quote character of the string is
    removed. *)
Definition remove_quotes (s : JsString) : JsString :=
  List.filter (fun c => negb (is_quote c)) s.

(** [s.split(sep)] for a one-character separator; the result is never
    empty (the empty string splits into one empty string). *)
Fixpoint split (sep : ascii) (s : JsString) : list JsString :=
  match s with
  | [] => [[]]
  | c :: s' =>
      if Ascii.eqb c sep then [] :: split sep s'
      else match split sep s' with
           | t :: ts => (c :: t) :: ts
           | [] => [[c]]
           end
  end.

(** [parts.join(sep)] *)
Fixpoint join (sep : JsString) (parts : list JsString) : JsString :=
  match parts with
  | [] => []
  | [p] => p
  | p :: ps => p ++ sep ++ join sep ps
  end.

Fixpoint starts_with (p s : JsString) : bool :=
  match p, s with
  | [], _ => true
  | a :: p', b :: s' => Ascii.eqb a b && starts_with p' s'
  | _ :: _, [] => false
  end.

(** [s.includes(sub)] *)
Fixpoint includes (s sub : JsString) : bool :=
  starts_with sub s ||
  match s with
  | _ :: s' => includes s' sub
  | [] => false
  end.

(** [a === b] on strings *)
Fixpoint jseq (a b : JsString) : bool :=
  match a, b with
  | [], [] => true
  | x :: a', y :: b' => Ascii.eqb x y && jseq a' b'
  | _, _ => false
  end.

(** The line feed. *)
Definition nl : JsString := [ascii_of_nat 10].

(** A text written line by line. *)
Definition lines (ls : list string) : JsString := join nl (map lit ls).

(** Decimal rendering of a number inside a template literal. *)
Definition nat_to_string (n : nat) : JsString :=
  lit (NilEmpty.string_of_uint (Nat.to_uint n)).

Definition Z_to_string (z : Z) : JsString :=
  lit (NilEmpty.string_of_int (Z.to_int z)).

(** [s.substring(0, n)] *)
Definition substring0 (n : nat) (s : JsString) : JsString := take n s.

(** [a.slice(-n)]: the last [n] elements, oldest first. *)
Definition slice_last {A} (n : nat) (l : list A) : list A :=
  drop (length l - n) l.

(** ** [parseInt(string)] with no radix (ECMA-262, 19.2.5)

    The result is [None] for NaN and otherwise the mathematical integer
    [sign * mathInt] of the algorithm; the Number returned by JavaScript is
    that integer converted to a double, which is the integer itself up to
    2^53 in absolute value and is non-zero whenever the integer is. *)

Definition digit_value (c : ascii) : option nat :=
  if in_range 48 57 c then Some (nat_of_ascii c - 48)
  else if in_range 97 122 c then Some (nat_of_ascii c - 87)
  else if in_range 65 90 c then Some (nat_of_ascii c - 55)
  else None.

(** The longest prefix of [s] made of digits of radix [R], folded into its
    value; the second component counts the digits read. *)
Fixpoint read_digits (R : nat) (acc : Z) (count : nat) (s : JsString) : Z * nat :=
  match s with
  | c :: s' =>
      match digit_value c with
      | Some d => if (d <? R)%nat
                  then read_digits R (acc * Z.of_nat R + Z.of_nat d) (S count) s'
                  else (acc, count)
      | None => (acc, count)
      end
  | [] => (acc, count)
  end.

Definition parseInt (v : JsArg) : option Z :=
  let S0 := skip_space (template v) in
  let '(sign, S1) :=
    match S0 with
    | "-"%char :: r => ((-1)%Z, r)
    | "+"%char :: r => (1%Z, r)
    | _ => (1%Z, S0)
    end in
  let '(R, S2) :=
    match S1 with
    | "0"%char :: "x"%char :: r => (16, r)
    | "0"%char :: "X"%char :: r => (16, r)
    | _ => (10, S1)
    end in
  let '(mathInt, count) := read_digits R 0 0 S2 in
  match count with
  | O => None
  | _ => Some (sign * mathInt)%Z
  end.


(** ** The two regular expressions of [parseAndExecuteTools]

    The matchers follow the backtracking semantics of ECMAScript: a greedy
    quantifier first takes as much as it can and gives characters back one
    at a time while the rest of the pattern fails; an alternation tries its
    branches in the order written.  A matcher is given the input left at its
    position and a continuation for the rest of the pattern. *)

(** Greedy [p*]: [acc] is what the quantifier has taken so far. *)
Fixpoint star_greedy {R : Type} (p : ascii -> bool) (acc s : JsString)
    (k : JsString -> JsString -> option R) : option R :=
  match s with
  | c :: s' =>
      if p c then
        match star_greedy p (acc ++ [c]) s' k with
        | Some r => Some r
        | None => k acc s
        end
      else k acc s
  | [] => k acc []
  end.

(** Greedy [p+] *)
Definition plus_greedy {R : Type} (p : ascii -> bool) (s : JsString)
    (k : JsString -> JsString -> option R) : option R :=
  match s with
  | c :: s' => if p c then star_greedy p [c] s' k else None
  | [] => None
  end.

(** A literal: the input left after it, when the input starts with it. *)
Fixpoint strip_prefix (p s : JsString) : option JsString :=
  match p, s with
  | [], _ => Some s
  | a :: p', b :: s' => if Ascii.eqb a b then strip_prefix p' s' else None
  | _ :: _, [] => None
  end.

(** [(a|b|...)] followed by the rest of the pattern [k]: the first branch,
    in the order written, with which the whole pattern matches. *)
Fixpoint alternation {R : Type} (branches : list JsString) (s : JsString)
    (k : JsString -> JsString -> option R) : option R :=
  match branches with
  | [] => None
  | b :: bs =>
      match
        match strip_prefix b s with
        | Some s' => k b s'
        | None => None
        end
      with
      | Some r => Some r
      | None => alternation bs s k
      end
  end.

(** [\b]: exactly one of the characters on the two sides of the position is
    a word character; beyond either end of the input counts as not one. *)
Definition word_boundary (prev : option ascii) (s : JsString) : bool :=
  xorb (from_option is_word false prev) (from_option is_word false (head s)).

(** The tool names, in the order of the alternation of the pattern. *)
Definition toolNames : list JsString :=
  map lit
    ["readFile"; "writeFile"; "editFile"; "executeCommand"; "listFiles";
     "listEmails"; "getEmail"; "sendEmail"; "createDraft"; "searchEmails";
     "getUnreadEmails"; "markAsRead"; "deleteEmail"; "getEmailContext";
     "analyzeEmailThread"]%string.

(** [\(], then [[^)]+], then [\)]: calls [k] with the text between the
    parentheses. *)
Definition parenthesized {R : Type} (s : JsString)
    (k : JsString -> option R) : option R :=
  match s with
  | "("%char :: s1 =>
      plus_greedy not_rparen s1 (fun body s2 =>
        match s2 with
        | ")"%char :: _ => k body
        | _ => None
        end)
  | _ => None
  end.

(** One attempt of [/\b(readFile|...|analyzeEmailThread)\s*\([^)]+\)/] at a
    position: [prev] is the character before it, [s] the input from it on.
    The result is the matched text. *)
Definition toolCallPattern (prev : option ascii) (s : JsString) : option JsString :=
  if word_boundary prev s then
    alternation toolNames s (fun name s1 =>
      star_greedy is_space [] s1 (fun ws s2 =>
        parenthesized s2 (fun body =>
          Some (name ++ ws ++ "("%char :: body ++ [")"%char]))))
  else None.

(** The scan of a global pattern: attempts at successive positions; after a
    match the scan resumes right behind it ([skip] counts the characters of
    the last match still to be passed over). *)
Fixpoint scan (prev : option ascii) (skip : nat) (s : JsString) : list JsString :=
  match skip with
  | S n =>
      match s with
      | c :: s' => scan (Some c) n s'
      | [] => []
      end
  | O =>
      match toolCallPattern prev s with
      | Some m =>
          m :: match s with
               | c :: s' => scan (Some c) (length m - 1) s'
               | [] => []
               end
      | None =>
          match s with
          | c :: s' => scan (Some c) 0 s'
          | [] => []
          end
      end
  end.

(** [response.match(/.../g)]: all the matches, or [null] when there is
    none. *)
Definition match_toolCalls (response : JsString) : option (list JsString) :=
  match scan None 0 response with
  | [] => None
  | ms => Some ms
  end.

(** One attempt of [/(\w+)\s*\(([^)]+)\)/] at a position; the result is the
    two captured groups. *)
Definition callPattern (s : JsString) : option (JsString * JsString) :=
  plus_greedy is_word s (fun funcName s1 =>
    star_greedy is_space [] s1 (fun _ s2 =>
      parenthesized s2 (fun argsStr => Some (funcName, argsStr)))).

(** [toolCall.match(/(\w+)\s*\(([^)]+)\)/)]: the leftmost match, or
    [null]. *)
Fixpoint match_call (toolCall : JsString) : option (JsString * JsString) :=
  match callPattern toolCall with
  | Some r => Some r
  | None =>
      match toolCall with
      | _ :: s' => match_call s'
      | [] => None
      end
  end.

(** [argsStr.split(',').map(arg => arg.trim().replace(quotes, ''))] *)
Definition parse_args (argsStr : JsString) : list JsString :=
  map (fun arg => remove_quotes (trim arg)) (split "," argsStr).


(** ** Thrown values, tool results, payloads ([src/types.ts]) *)

(** What a [catch] clause can receive: an instance of [Error] carrying its
    message, or any other thrown value. *)
Inductive Exn : Type :=
| JsError (message : JsString)
| NonError.

(** [error instanceof Error ? error.message : fallback] *)
Definition error_message (fallback : string) (e : Exn) : JsString :=
  match e with
  | JsError m => m
  | NonError => lit fallback
  end.

(** The TypeError raised by the engine when a property of [undefined] is
    read (message as worded by V8). *)
Definition TypeError_undefined (prop : string) : Exn :=
  JsError (lit "Cannot read properties of undefined (reading '" ++ lit prop ++ lit "')").

Record CommandExecution : Type := {
  ce_command : JsArg;
  ce_output : JsString;
  ce_error : option JsString;
  ce_exitCode : Z
}.

Record FileEntry : Type := {
  fe_name : JsString;
  fe_isDirectory : bool;
  fe_size : Z;
  fe_modified : Z
}.

Record EmailMessage : Type := {
  em_id : JsString;
  em_threadId : JsString;
  em_subject : JsString;
  em_from : JsString;
  em_to : list JsString;
  em_body : JsString;
  em_snippet : JsString;
  em_date : Z;
  em_isRead : bool;
  em_hasAttachments : bool
}.

Record EmailDraft : Type := {
  ed_to : list JsString;
  ed_subject : JsString;
  ed_body : JsString
}.

Record EmailListResult : Type := {
  el_messages : list EmailMessage;
  el_nextPageToken : option JsString;
  el_resultSizeEstimate : Z
}.

Record EmailContext : Type := {
  ec_subject : JsString;
  ec_sender : JsString;
  ec_recipients : list JsString;
  ec_date : Z;
  ec_snippet : JsString;
  ec_isRead : bool;
  ec_hasAttachments : bool;
  ec_threadId : JsString
}.

Record ThreadAnalysis : Type := {
  ta_threadId : JsArg;
  ta_messageCount : nat;
  ta_participants : list JsString;
  ta_subjects : list JsString;
  ta_hasAttachments : bool
}.

(** The [data?: any] field of a result, one constructor per shape the code
    stores there.  [DText] is the only one with [typeof data === 'string'];
    [DRemote] is a reply of the remote mailbox passed through as it came. *)
Inductive Data : Type :=
| DText (s : JsString)
| DWritten (path : JsArg) (size : nat)
| DFiles (files : list FileEntry)
| DCommand (r : CommandExecution)
| DEmail (m : EmailMessage)
| DEmailList (l : EmailListResult)
| DEmailContext (c : EmailContext)
| DThread (a : ThreadAnalysis)
| DRemote (payload : JsString).

(** [interface ToolResult]: [data] and [error] are optional. *)
Record ToolResult : Type := {
  success : bool;
  data : option Data;
  error : option JsString;
  message : JsString
}.

Inductive Role : Type := user | assistant | system.

Record AgentMessage : Type := {
  role : Role;
  content : JsString;
  timestamp : Z
}.

Record AgentConfig : Type := {
  name : JsString;
  maxTokens : Z;
  temperature : Q;
  apiKey : JsString
}.

Record GmailConfig : Type := {
  credentialsPath : JsString;
  tokenPath : JsString;
  scopes : list JsString
}.

Record EmailSearchOptions : Type := {
  so_query : option JsString;
  so_maxResults : option Z;
  so_includeSpamTrash : option bool
}.

(** ** The outside world

    Every call that leaves the program (file system, child process, remote
    mailbox, language model, clock, console) is an event; the environment
    answers it with a value or by throwing.  A [Thrown] answer also stands
    for a failure while the reply is being read in the same [try] block. *)

Record ExecClose : Type := {
  xc_code : option Z;
  xc_stdout : JsString;
  xc_stderr : JsString
}.

(** How a child process started by [exec] ends: its [close] event, or its
    [error] event arriving first. *)
Inductive ExecEnd : Type :=
| OnClose (c : ExecClose)
| OnError (e : Exn).

(** The same for [exec] given a [timeout] option, with a [timeout] event
    as a third way to end. *)
Inductive ExecEndTimed : Type :=
| TimedClose (c : ExecClose)
| TimedError (e : Exn)
| TimedOut.

Record ListReply : Type := {
  lr_ids : list JsString;
  lr_nextPageToken : option JsString;
  lr_resultSizeEstimate : option Z
}.

Record ThreadMessage : Type := {
  tm_from : option JsString;
  tm_subject : option JsString;
  tm_hasAttachments : bool
}.

Record ChatMessage : Type := {
  cm_role : Role;
  cm_content : JsString
}.

Inductive Event : Type -> Type :=
| ProcessCwd : Event JsString
| PathResolve (cwd : JsString) (p : JsArg) : Event JsString
| PathResolve1 (p : JsString) : Event JsString
| PathDirname (p : JsString) : Event JsString
| ExistsSync (p : JsString) : Event bool
| ReadFileSync (p : JsString) : Event JsString
| WriteFileSync (p : JsString) (content : JsArg) : Event unit
| MkdirSync (p : JsString) : Event unit
| ReaddirSync (p : JsString) : Event (list JsString)
| StatSync (dir item : JsString) : Event FileEntry
| Exec (command : JsArg) (cwd : JsString) : Event ExecEnd
| ExecWithTimeout (command : JsArg) (cwd : JsString) (timeout : Z) : Event ExecEndTimed
| Spawn (cmd : JsString) (args : list JsString) (cwd : JsString) : Event ExecEnd
| Authenticate (keyfilePath : JsString) (scopes : list JsString) : Event unit
| MessagesList (q : JsString) (maxResults : Z) (includeSpamTrash : bool) : Event ListReply
| MessagesGet (id : JsArg) : Event EmailMessage
| MessagesSend (draft : EmailDraft) : Event JsString
| DraftsCreate (draft : EmailDraft) : Event JsString
| MessagesModify (id : JsArg) : Event unit
| MessagesDelete (id : JsArg) : Event unit
| ThreadsGet (id : JsArg) : Event (list ThreadMessage)
| ChatCompletionsCreate (messages : list ChatMessage) (max_tokens : Z)
    (temperature : Q) : Event (option JsString)
| NewDate : Event Z
| ConsoleLog (text : JsString) : Event unit
| ConsoleError (text : JsString) : Event unit.

Inductive Reply (A : Type) : Type :=
| Returned (a : A)
| Thrown (e : Exn).
Arguments Returned {A} a.
Arguments Thrown {A} e.

(** A program is a finite tree of events: every branch ends in a value once
    the environment has answered the events on it. *)
Inductive Prog (R : Type) : Type :=
| Ret (r : R)
| Vis {A : Type} (e : Event A) (k : Reply A -> Prog R).
Arguments Ret {R} r.
Arguments Vis {R A} e k.

Fixpoint pbind {A B : Type} (p : Prog A) (f : A -> Prog B) : Prog B :=
  match p with
  | Ret a => f a
  | Vis e k => Vis e (fun o => pbind (k o) f)
  end.

(** An environment: it answers each event and moves on. *)
Definition Handler (W : Type) : Type := forall A, Event A -> W -> Reply A * W.

Fixpoint interp {W R : Type} (h : Handler W) (p : Prog R) (w : W) : R * W :=
  match p with
  | Ret r => (r, w)
  | Vis e k => let '(o, w') := h _ e w in interp h (k o) w'
  end.

(** The events issued along the run, oldest first. *)
Inductive Issued : Type :=
| issued (A : Type) (e : Event A).
Arguments issued {A} e.

Fixpoint events_of {W R : Type} (h : Handler W) (p : Prog R) (w : W) : list Issued :=
  match p with
  | Ret _ => []
  | Vis e k => let '(o, w') := h _ e w in issued e :: events_of h (k o) w'
  end.

(** Every run of [p] ends in a result satisfying [Q]. *)
Fixpoint always {R : Type} (p : Prog R) (Q : R -> Prop) : Prop :=
  match p with
  | Ret r => Q r
  | Vis e k => forall o, always (k o) Q
  end.

(** ** Methods: state of the receiver, exceptions, events *)

(** A completed evaluation: a value, or a thrown value on its way to the
    nearest enclosing [catch]. *)
Inductive Res (A : Type) : Type :=
| Ok (a : A)
| Raise (e : Exn).
Arguments Ok {A} a.
Arguments Raise {A} e.

Definition M (S A : Type) : Type := S -> Prog (Res A * S).

Definition ret {S A : Type} (a : A) : M S A := fun s => Ret (Ok a, s).

Definition throw {S A : Type} (e : Exn) : M S A := fun s => Ret (Raise e, s).

Definition bind {S A B : Type} (m : M S A) (f : A -> M S B) : M S B :=
  fun s => pbind (m s) (fun '(r, s') =>
    match r with
    | Ok a => f a s'
    | Raise e => Ret (Raise e, s')
    end).

(** [try { body } catch (error) { handler }] *)
Definition try_catch {S A : Type} (body : M S A) (handler : Exn -> M S A) : M S A :=
  fun s => pbind (body s) (fun '(r, s') =>
    match r with
    | Ok a => Ret (Ok a, s')
    | Raise e => handler e s'
    end).

(** An external call; a thrown answer becomes an exception of the caller. *)
Definition call {S A : Type} (e : Event A) : M S A :=
  fun s => Vis e (fun o =>
    match o with
    | Returned a => Ret (Ok a, s)
    | Thrown x => Ret (Raise x, s)
    end).

Definition gets {S A : Type} (f : S -> A) : M S A := fun s => Ret (Ok (f s), s).

Definition modify {S : Type} (f : S -> S) : M S unit := fun s => Ret (Ok tt, f s).

(** A method of a component object run from its owner: [get] reads the
    field holding the component, [set] stores its new state. *)
Definition zoom {S T A : Type} (get : S -> T) (set : T -> S -> S) (m : M T A) : M S A :=
  fun s => pbind (m (get s)) (fun '(r, t') => Ret (r, set t' s)).

Declare Scope js_scope.
Delimit Scope js_scope with js.
Notation "'let*' x ':=' c1 'in' c2" := (bind c1 (fun x => c2))
  (at level 10, x pattern, c1 at level 100, c2 at level 200) : js_scope.
Open Scope js_scope.

(** [for (const x of xs) { body }] with an accumulator threaded through. *)
Fixpoint for_of {S X Acc : Type} (xs : list X) (acc : Acc)
    (body : Acc -> X -> M S Acc) : M S Acc :=
  match xs with
  | [] => ret acc
  | x :: xs' => let* acc' := body acc x in for_of xs' acc' body
  end.

(** [a || b] on strings: the empty string is falsy. *)
Definition or_string (a : JsArg) (b : JsString) : JsString :=
  match a with
  | Some ((_ :: _) as s) => s
  | _ => b
  end.

(** A method called on a value that may be [undefined]: reading the method
    off [undefined] raises a TypeError. *)
Definition receiver {S : Type} (method : string) (v : JsArg) : M S JsString :=
  match v with
  | Some s => ret s
  | None => throw (TypeError_undefined method)
  end.

(** ** [class FileTools] ([src/tools/fileTools.ts]) *)

Module FileTools.

Record t : Type := { currentDirectory : JsString }.

(** [constructor(initialDirectory = process.cwd())] with no argument. *)
Definition new {S : Type} : M S t :=
  let* cwd := call ProcessCwd in
  ret {| currentDirectory := cwd |}.

Definition readFile (filePath : JsArg) : M t ToolResult :=
  try_catch
    (let* cwd := gets currentDirectory in
     let* fullPath := call (PathResolve cwd filePath) in
     let* present := call (ExistsSync fullPath) in
     if negb present then
       ret {| success := false;
              data := None;
              error := Some (lit "File not found: " ++ template filePath);
              message := lit "File " ++ template filePath ++ lit " does not exist" |}
     else
       let* content := call (ReadFileSync fullPath) in
       ret {| success := true;
              data := Some (DText content);
              error := None;
              message := lit "Successfully read file: " ++ template filePath |})
    (fun e =>
       ret {| success := false;
              data := None;
              error := Some (error_message "Unknown error" e);
              message := lit "Failed to read file: " ++ template filePath |}).

Definition writeFile (filePath content : JsArg) : M t ToolResult :=
  try_catch
    (let* cwd := gets currentDirectory in
     let* fullPath := call (PathResolve cwd filePath) in
     let* dir := call (PathDirname fullPath) in
     let* present := call (ExistsSync dir) in
     let* _ := if negb present then call (MkdirSync dir) else ret tt in
     let* _ := call (WriteFileSync fullPath content) in
     let* text := receiver "length" content in
     ret {| success := true;
            data := Some (DWritten filePath (length text));
            error := None;
            message := lit "Successfully wrote file: " ++ template filePath |})
    (fun e =>
       ret {| success := false;
              data := None;
              error := Some (error_message "Unknown error" e);
              message := lit "Failed to write file: " ++ template filePath |}).

Definition editFile (filePath newContent : JsArg) : M t ToolResult :=
  try_catch
    (let* cwd := gets currentDirectory in
     let* fullPath := call (PathResolve cwd filePath) in
     let* present := call (ExistsSync fullPath) in
     if negb present then
       ret {| success := false;
              data := None;
              error := Some (lit "File not found: " ++ template filePath);
              message := lit "Cannot edit non-existent file: " ++ template filePath |}
     else
       let* _ := call (WriteFileSync fullPath newContent) in
       let* text := receiver "length" newContent in
       ret {| success := true;
              data := Some (DWritten filePath (length text));
              error := None;
              message := lit "Successfully edited file: " ++ template filePath |})
    (fun e =>
       ret {| success := false;
              data := None;
              error := Some (error_message "Unknown error" e);
              message := lit "Failed to edit file: " ++ template filePath |}).

(** [listFiles(directory = '.')]: the default applies to [undefined]. *)
Definition listFiles (directory : JsArg) : M t ToolResult :=
  let directory := default (lit ".") directory in
  try_catch
    (let* cwd := gets currentDirectory in
     let* fullPath := call (PathResolve cwd (Some directory)) in
     let* present := call (ExistsSync fullPath) in
     if negb present then
       ret {| success := false;
              data := None;
              error := Some (lit "Directory not found: " ++ directory);
              message := lit "Directory " ++ directory ++ lit " does not exist" |}
     else
       let* items := call (ReaddirSync fullPath) in
       let* files := for_of items [] (fun files item =>
                       let* entry := call (StatSync fullPath item) in
                       ret (files ++ [entry])) in
       ret {| success := true;
              data := Some (DFiles files);
              error := None;
              message := lit "Successfully listed files in: " ++ directory |})
    (fun e =>
       ret {| success := false;
              data := None;
              error := Some (error_message "Unknown error" e);
              message := lit "Failed to list files in: " ++ directory |}).

Definition getCurrentDirectory : M t JsString := gets currentDirectory.

Definition setCurrentDirectory (directory : JsString) : M t unit :=
  let* resolved := call (PathResolve1 directory) in
  modify (fun _ => {| currentDirectory := resolved |}).

End FileTools.

(** ** [class CommandTools] ([src/tools/commandTools.ts]) *)

Module CommandTools.

Record t : Type := { currentDirectory : JsString }.

Definition new {S : Type} : M S t :=
  let* cwd := call ProcessCwd in
  ret {| currentDirectory := cwd |}.

(** The promise resolves in the [close] or the [error] listener; when
    [exec] itself throws, the promise is rejected and the [await] of the
    caller throws. *)
Definition executeCommand (command : JsArg) : M t ToolResult :=
  let* cwd := gets currentDirectory in
  let* ended := call (Exec command cwd) in
  match ended with
  | OnClose c =>
      let result :=
        {| ce_command := command;
           ce_output := xc_stdout c;
           ce_error := match xc_stderr c with [] => None | e => Some e end;
           ce_exitCode := default 0%Z (xc_code c) |} in
      match xc_code c with
      | Some 0%Z =>
          ret {| success := true;
                 data := Some (DCommand result);
                 error := None;
                 message := lit "Command executed successfully: " ++ template command |}
      | code =>
          ret {| success := false;
                 data := Some (DCommand result);
                 error := Some (or_string (Some (xc_stderr c)) (lit "Command failed"));
                 message := lit "Command failed with exit code "
                            ++ from_option Z_to_string (lit "null") code
                            ++ lit ": " ++ template command |}
      end
  | OnError e =>
      ret {| success := false;
             data := None;
             error := match e with JsError m => Some m | NonError => None end;
             message := lit "Failed to execute command: " ++ template command |}
  end.




Definition getCurrentDirectory : M t JsString := gets currentDirectory.

Definition setCurrentDirectory (directory : JsString) : M t unit :=
  modify (fun _ => {| currentDirectory := directory |}).

Definition dangerousCommands : list JsString :=
  map lit ["rm -rf"; "format"; "dd"; "mkfs"; "fdisk"; "shutdown"; "reboot";
           "halt"; "poweroff"]%string.

Definition isSafeCommand (command : JsString) : bool :=
  let lowerCommand := toLowerCase command in
  negb (existsb (fun dangerous => includes lowerCommand (toLowerCase dangerous))
          dangerousCommands).

(** The same method given a value that may be [undefined]. *)
Definition isSafeCommand_arg {S : Type} (command : JsArg) : M S bool :=
  let* c := receiver "toLowerCase" command in
  ret (isSafeCommand c).

End CommandTools.

(** ** [class GmailTools] ([src/tools/gmailTools.ts])

    The remote replies arrive already decoded (header lookup, body decoding
    and attachment detection are part of the event); the wire format of an
    outgoing message is part of the event as well. *)

Module GmailTools.

Record t : Type := {
  config : GmailConfig;
  gmail : bool;
  isAuthenticated : bool
}.

Definition new (config : GmailConfig) : t :=
  {| config := config; gmail := false; isAuthenticated := false |}.

Definition failed (fallback : string) (e : Exn) (msg : JsString) : ToolResult :=
  {| success := false;
     data := None;
     error := Some (error_message fallback e);
     message := msg |}.

Definition authenticate : M t ToolResult :=
  try_catch
    (let* this := gets id in
     if isAuthenticated this && gmail this then
       ret {| success := true; data := None; error := None;
              message := lit "Already authenticated" |}
     else
       let* _ := call (Authenticate (credentialsPath (config this))
                                    (scopes (config this))) in
       let* _ := modify (fun this =>
                   {| config := config this; gmail := true;
                      isAuthenticated := true |}) in
       ret {| success := true; data := None; error := None;
              message := lit "Successfully authenticated with Gmail API" |})
    (fun e =>
       ret (failed "Authentication failed" e
              (lit "Failed to authenticate with Gmail API"))).

Definition ensureAuthenticated : M t ToolResult :=
  let* authenticated := gets isAuthenticated in
  if negb authenticated then authenticate
  else ret {| success := true; data := None; error := None;
              message := lit "Authenticated" |}.

Definition getEmail (messageId : JsArg) : M t ToolResult :=
  try_catch
    (let* authResult := ensureAuthenticated in
     if negb (success authResult) then ret authResult
     else
       let* emailMessage := call (MessagesGet messageId) in
       ret {| success := true;
              data := Some (DEmail emailMessage);
              error := None;
              message := lit "Successfully retrieved email: "
                         ++ em_subject emailMessage |})
    (fun e =>
       ret (failed "Unknown error" e
              (lit "Failed to get email: " ++ template messageId))).

(** The payload of a successful [getEmail] is always an email, the only
    shape collected by the loop. *)
Definition listEmails (options : EmailSearchOptions) : M t ToolResult :=
  try_catch
    (let* authResult := ensureAuthenticated in
     if negb (success authResult) then ret authResult
     else
       let query := or_string (so_query options) [] in
       let maxResults :=
         match so_maxResults options with
         | Some n => if (n =? 0)%Z then 10%Z else n
         | None => 10%Z
         end in
       let includeSpamTrash := default false (so_includeSpamTrash options) in
       let* response := call (MessagesList query maxResults includeSpamTrash) in
       let* emailMessages := for_of (lr_ids response) [] (fun acc id =>
           let* emailResult := getEmail (Some id) in
           ret (match success emailResult, data emailResult with
                | true, Some (DEmail m) => acc ++ [m]
                | _, _ => acc
                end)) in
       let result :=
         {| el_messages := emailMessages;
            el_nextPageToken := lr_nextPageToken response;
            el_resultSizeEstimate :=
              default 0%Z (lr_resultSizeEstimate response) |} in
       ret {| success := true;
              data := Some (DEmailList result);
              error := None;
              message := lit "Successfully retrieved "
                         ++ nat_to_string (length emailMessages)
                         ++ lit " emails" |})
    (fun e => ret (failed "Unknown error" e (lit "Failed to list emails"))).

Definition sendEmail (draft : EmailDraft) : M t ToolResult :=
  try_catch
    (let* authResult := ensureAuthenticated in
     if negb (success authResult) then ret authResult
     else
       let* response := call (MessagesSend draft) in
       ret {| success := true;
              data := Some (DRemote response);
              error := None;
              message := lit "Successfully sent email: " ++ ed_subject draft |})
    (fun e => ret (failed "Unknown error" e (lit "Failed to send email"))).

Definition createDraft (draft : EmailDraft) : M t ToolResult :=
  try_catch
    (let* authResult := ensureAuthenticated in
     if negb (success authResult) then ret authResult
     else
       let* response := call (DraftsCreate draft) in
       ret {| success := true;
              data := Some (DRemote response);
              error := None;
              message := lit "Successfully created draft: " ++ ed_subject draft |})
    (fun e => ret (failed "Unknown error" e (lit "Failed to create draft"))).

(** [searchEmails(query, maxResults = 10)] *)
Definition searchEmails (query : JsArg) (maxResults : option Z) : M t ToolResult :=
  listEmails {| so_query := query;
                so_maxResults := Some (default 10%Z maxResults);
                so_includeSpamTrash := None |}.

(** [getUnreadEmails(maxResults = 10)] *)
Definition getUnreadEmails (maxResults : option Z) : M t ToolResult :=
  listEmails {| so_query := Some (lit "is:unread");
                so_maxResults := Some (default 10%Z maxResults);
                so_includeSpamTrash := None |}.

Definition markAsRead (messageId : JsArg) : M t ToolResult :=
  try_catch
    (let* authResult := ensureAuthenticated in
     if negb (success authResult) then ret authResult
     else
       let* _ := call (MessagesModify messageId) in
       ret {| success := true; data := None; error := None;
              message := lit "Successfully marked email as read: "
                         ++ template messageId |})
    (fun e =>
       ret (failed "Unknown error" e
              (lit "Failed to mark email as read: " ++ template messageId))).

Definition deleteEmail (messageId : JsArg) : M t ToolResult :=
  try_catch
    (let* authResult := ensureAuthenticated in
     if negb (success authResult) then ret authResult
     else
       let* _ := call (MessagesDelete messageId) in
       ret {| success := true; data := None; error := None;
              message := lit "Successfully deleted email: "
                         ++ template messageId |})
    (fun e =>
       ret (failed "Unknown error" e
              (lit "Failed to delete email: " ++ template messageId))).

(** A successful [getEmail] always carries an email; reading the fields
    of anything else is the TypeError of reading off [undefined]. *)
Definition getEmailContext (messageId : JsArg) : M t ToolResult :=
  try_catch
    (let* emailResult := getEmail messageId in
     if negb (success emailResult) then ret emailResult
     else
       match data emailResult with
       | Some (DEmail email) =>
           let context :=
             {| ec_subject := em_subject email;
                ec_sender := em_from email;
                ec_recipients := em_to email;
                ec_date := em_date email;
                ec_snippet := em_snippet email;
                ec_isRead := em_isRead email;
                ec_hasAttachments := em_hasAttachments email;
                ec_threadId := em_threadId email |} in
           ret {| success := true;
                  data := Some (DEmailContext context);
                  error := None;
                  message := lit "Email context retrieved for: "
                             ++ em_subject email |}
       | _ => throw (TypeError_undefined "subject")
       end)
    (fun e => ret (failed "Unknown error" e (lit "Failed to get email context"))).

(** [set.add(x)] on a [Set] kept in insertion order. *)
Definition set_add (x : JsString) (set : list JsString) : list JsString :=
  if bool_decide (x ∈ set) then set else set ++ [x].

Definition analyzeEmailThread (threadId : JsArg) : M t ToolResult :=
  try_catch
    (let* authResult := ensureAuthenticated in
     if negb (success authResult) then ret authResult
     else
       let* messages := call (ThreadsGet threadId) in
       let analysis :=
         fold_left (fun a m =>
             {| ta_threadId := ta_threadId a;
                ta_messageCount := ta_messageCount a;
                ta_participants :=
                  set_add (or_string (tm_from m) []) (ta_participants a);
                ta_subjects :=
                  set_add (or_string (tm_subject m) []) (ta_subjects a);
                ta_hasAttachments :=
                  if tm_hasAttachments m then true else ta_hasAttachments a |})
           messages
           {| ta_threadId := threadId;
              ta_messageCount := length messages;
              ta_participants := [];
              ta_subjects := [];
              ta_hasAttachments := false |} in
       ret {| success := true;
              data := Some (DThread analysis);
              error := None;
              message := lit "Thread analysis completed for thread: "
                         ++ template threadId |})
    (fun e => ret (failed "Unknown error" e (lit "Failed to analyze email thread"))).

End GmailTools.

(** [a || b] on numbers: NaN and zero are falsy. *)
Definition or_number (a : option Z) (b : Z) : Z :=
  match a with
  | Some n => if (n =? 0)%Z then b else n
  | None => b
  end.

(** [switch (scrutinee) { case label: body ... default: otherwise }] *)
Fixpoint switch {A : Type} (scrutinee : JsString) (cases : list (JsString * A))
    (otherwise : A) : A :=
  match cases with
  | [] => otherwise
  | (label, body) :: rest =>
      if jseq scrutinee label then body else switch scrutinee rest otherwise
  end.

(** ** Arrays shared by reference

    The arrays of a context live in a store and are named by their
    location; an object holding an array holds its location, so that two
    objects can hold the same array. *)

Abbreviation loc := positive.

Record Store : Type := {
  string_arrays : gmap loc (list JsString);
  message_arrays : gmap loc (list AgentMessage)
}.

Definition empty_store : Store :=
  {| string_arrays := ∅; message_arrays := ∅ |}.

(** [interface AgentContext] *)
Record AgentContext : Type := {
  currentDirectory : JsString;
  recentFiles : loc;
  recentCommands : loc;
  conversationHistory : loc
}.

(** A new empty array of strings. *)
Definition new_string_array (h : Store) : loc * Store :=
  let l := fresh (dom (string_arrays h)) in
  (l, {| string_arrays := <[l := []]> (string_arrays h);
         message_arrays := message_arrays h |}).

Definition new_message_array (h : Store) : loc * Store :=
  let l := fresh (dom (message_arrays h)) in
  (l, {| string_arrays := string_arrays h;
         message_arrays := <[l := []]> (message_arrays h) |}).

(** The array literal [[]] evaluated: a new array in the store. *)
Definition empty_strings : M Store loc :=
  fun h => Ret (Ok (fst (new_string_array h)), snd (new_string_array h)).

Definition empty_messages : M Store loc :=
  fun h => Ret (Ok (fst (new_message_array h)), snd (new_message_array h)).

(** [array.push(x)] on the array at [l]. *)
Definition push_string (l : loc) (x : JsString) (h : Store) : Store :=
  {| string_arrays := alter (fun xs => xs ++ [x]) l (string_arrays h);
     message_arrays := message_arrays h |}.

Definition push_message (l : loc) (x : AgentMessage) (h : Store) : Store :=
  {| string_arrays := string_arrays h;
     message_arrays := alter (fun xs => xs ++ [x]) l (message_arrays h) |}.

(** The contents of an array. *)
Definition strings_at (l : loc) (h : Store) : list JsString :=
  default [] (string_arrays h !! l).

Definition messages_at (l : loc) (h : Store) : list AgentMessage :=
  default [] (message_arrays h !! l).

(** ** [class CodingAgent] ([src/agent.ts]) *)

Module CodingAgent.

(** The fields of the object. *)
Record t : Type := {
  config : AgentConfig;
  context : AgentContext;
  fileTools : FileTools.t;
  commandTools : CommandTools.t;
  gmailTools : option GmailTools.t
}.

(** What a method runs on: the store and the receiver. *)
Record state : Type := {
  store : Store;
  this : t
}.

Definition set_context (c : AgentContext) (st : state) : state :=
  {| store := store st;
     this := {| config := config (this st); context := c;
                fileTools := fileTools (this st);
                commandTools := commandTools (this st);
                gmailTools := gmailTools (this st) |} |}.

Definition set_fileTools (ft : FileTools.t) (st : state) : state :=
  {| store := store st;
     this := {| config := config (this st); context := context (this st);
                fileTools := ft;
                commandTools := commandTools (this st);
                gmailTools := gmailTools (this st) |} |}.

Definition set_commandTools (ct : CommandTools.t) (st : state) : state :=
  {| store := store st;
     this := {| config := config (this st); context := context (this st);
                fileTools := fileTools (this st);
                commandTools := ct;
                gmailTools := gmailTools (this st) |} |}.

Definition set_gmailTools (g : option GmailTools.t) (st : state) : state :=
  {| store := store st;
     this := {| config := config (this st); context := context (this st);
                fileTools := fileTools (this st);
                commandTools := commandTools (this st);
                gmailTools := g |} |}.

Definition set_store (h : Store) (st : state) : state :=
  {| store := h; this := this st |}.

(** [this.fileTools.method(...)] *)
Definition on_fileTools {A : Type} (m : M FileTools.t A) : M state A :=
  zoom (fun st => fileTools (this st)) set_fileTools m.

(** [this.commandTools.method(...)] *)
Definition on_commandTools {A : Type} (m : M CommandTools.t A) : M state A :=
  zoom (fun st => commandTools (this st)) set_commandTools m.

(** [this.gmailTools.method(...)] on the tools object [g]. *)
Definition on_gmailTools {A : Type} (g : GmailTools.t) (m : M GmailTools.t A)
    : M state A :=
  zoom (fun _ => g) (fun g' => set_gmailTools (Some g')) m.

(** [constructor(config, gmailConfig?)] *)
Definition new (config : AgentConfig) (gmailConfig : option GmailConfig)
    : M Store t :=
  let* ft := FileTools.new in
  let* ct := CommandTools.new in
  let gm := GmailTools.new <$> gmailConfig in
  let* cwd := call ProcessCwd in
  let* files := empty_strings in
  let* commands := empty_strings in
  let* history := empty_messages in
  ret {| config := config;
         context := {| currentDirectory := cwd;
                       recentFiles := files;
                       recentCommands := commands;
                       conversationHistory := history |};
         fileTools := ft;
         commandTools := ct;
         gmailTools := gm |}.

Definition gmailCapabilities : JsString :=
  nl ++ lines
    ["Email capabilities (Gmail API):";
     "- listEmails(): List recent emails";
     "- getEmail(messageId): Get specific email details";
     "- sendEmail(draft): Send an email";
     "- createDraft(draft): Create email draft";
     "- searchEmails(query): Search emails";
     "- getUnreadEmails(): Get unread emails";
     "- markAsRead(messageId): Mark email as read";
     "- deleteEmail(messageId): Delete email";
     "- getEmailContext(messageId): Get email context for MCP";
     "- analyzeEmailThread(threadId): Analyze email thread";
     ""]%string.

Definition generateSystemPrompt : M state JsString :=
  let* currentDir := on_fileTools FileTools.getCurrentDirectory in
  let* files := on_fileTools (FileTools.listFiles (Some (lit "."))) in
  let fileList :=
    match success files, data files with
    | true, Some (DFiles entries) =>
        join nl (map (fun file =>
                        (if fe_isDirectory file then lit "[DIR]" else lit "[FILE]")
                        ++ lit " " ++ fe_name file)
                   (take 10 entries))
    | _, _ => []
    end in
  let* agentName := gets (fun st => name (config (this st))) in
  let* gm := gets (fun st => gmailTools (this st)) in
  ret (lit "You are " ++ agentName
       ++ lines
            [", a helpful coding assistant with MCP (Model Context Protocol) capabilities. You can:";
             "";
             "1. Read, write, and edit files";
             "2. Execute bash commands";
             "3. Help with coding tasks and debugging";
             ""]%string
       ++ (if gm is Some _ then lit "4. Read and write emails via Gmail API" else [])
       ++ lines [""; ""; "Current directory: "]%string ++ currentDir
       ++ lines [""; "Recent files:"; ""]%string ++ fileList
       ++ lines
            [""; "";
             "Available tools:";
             "- readFile(filePath): Read the contents of a file";
             "- writeFile(filePath, content): Write content to a file";
             "- editFile(filePath, newContent): Edit an existing file";
             "- executeCommand(command): Execute a bash command";
             "- listFiles(directory): List files in a directory"]%string
       ++ (if gm is Some _ then gmailCapabilities else [])
       ++ lines
            [""; "";
             "MCP Context: You can understand and reason about email content, threads, and relationships. When working with emails, consider:";
             "- Email context and threading";
             "- Sender/recipient relationships";
             "- Content analysis and summarization";
             "- Action items and follow-ups";
             "- Attachment handling";
             "";
             "Always be helpful, explain your actions, and ensure commands are safe before executing them."]%string).

Definition callOpenAI (messages : list ChatMessage) : M state JsString :=
  try_catch
    (let* cfg := gets (fun st => config (this st)) in
     let* text := call (ChatCompletionsCreate messages (maxTokens cfg)
                          (temperature cfg)) in
     ret (or_string text (lit "No response from AI")))
    (fun e =>
       let* _ := call (ConsoleError (lit "Error calling OpenAI:")) in
       ret (lit "Sorry, I encountered an error while processing your request.")).

(** The result built where [this.gmailTools] is not set. *)
Definition gmailNotAvailable : ToolResult :=
  {| success := false;
     data := None;
     error := Some (lit "Gmail tools not available");
     message := lit "Gmail functionality not configured" |}.

(** [if (this.gmailTools) { result = await this.gmailTools.m(...) }
    else { result = { ...not available... } }] *)
Definition ifGmail (m : M GmailTools.t ToolResult) : M state ToolResult :=
  let* gm := gets (fun st => gmailTools (this st)) in
  match gm with
  | Some g => on_gmailTools g m
  | None => ret gmailNotAvailable
  end.

Definition commandBlocked (command : JsArg) : ToolResult :=
  {| success := false;
     data := None;
     error := Some (lit "Command blocked for safety");
     message := lit "Command blocked: " ++ template command |}.

(** The [switch (funcName)] of [parseAndExecuteTools]: [args[i]] is
    [args !! i], [undefined] past the end. *)
Definition dispatch (funcName : JsString) (args : list JsString)
    : M state ToolResult :=
  switch funcName
    [(lit "readFile", on_fileTools (FileTools.readFile (args !! 0)));
     (lit "writeFile", on_fileTools (FileTools.writeFile (args !! 0) (args !! 1)));
     (lit "editFile", on_fileTools (FileTools.editFile (args !! 0) (args !! 1)));
     (lit "executeCommand",
        let* safe := CommandTools.isSafeCommand_arg (args !! 0) in
        if safe then on_commandTools (CommandTools.executeCommand (args !! 0))
        else ret (commandBlocked (args !! 0)));
     (lit "listFiles",
        on_fileTools (FileTools.listFiles (Some (or_string (args !! 0) (lit ".")))));
     (lit "listEmails",
        ifGmail (GmailTools.listEmails
                   {| so_query := None; so_maxResults := None;
                      so_includeSpamTrash := None |}));
     (lit "getEmail", ifGmail (GmailTools.getEmail (args !! 0)));
     (lit "searchEmails",
        ifGmail (GmailTools.searchEmails (args !! 0)
                   (Some (or_number (parseInt (args !! 1)) 10))));
     (lit "getUnreadEmails",
        ifGmail (GmailTools.getUnreadEmails
                   (Some (or_number (parseInt (args !! 0)) 10))));
     (lit "markAsRead", ifGmail (GmailTools.markAsRead (args !! 0)));
     (lit "deleteEmail", ifGmail (GmailTools.deleteEmail (args !! 0)));
     (lit "getEmailContext", ifGmail (GmailTools.getEmailContext (args !! 0)));
     (lit "analyzeEmailThread", ifGmail (GmailTools.analyzeEmailThread (args !! 0)))]
    (ret {| success := false;
            data := None;
            error := Some (lit "Unknown tool");
            message := lit "Unknown tool: " ++ funcName |}).

(** The body of the loop over the matches: what is pushed on [results],
    [None] when nothing is. *)
Definition executeToolCall (toolCall : JsString) : M state (option ToolResult) :=
  try_catch
    (match match_call toolCall with
     | Some (funcName, argsStr) =>
         let args := parse_args argsStr in
         let* result := dispatch funcName args in
         ret (Some result)
     | None => ret None
     end)
    (fun e =>
       ret (Some {| success := false;
                    data := None;
                    error := Some (error_message "Unknown error" e);
                    message := lit "Failed to execute tool: " ++ toolCall |})).

Definition parseAndExecuteTools (response : JsString) : M state (list ToolResult) :=
  match match_toolCalls response with
  | Some toolCalls =>
      for_of toolCalls [] (fun results toolCall =>
        let* pushed := executeToolCall toolCall in
        ret (match pushed with
             | Some result => results ++ [result]
             | None => results
             end))
  | None => ret []
  end.

(** The lines added to the response for the result at [index]. *)
Definition formatResult (index : nat) (result : ToolResult) : JsString :=
  nat_to_string (index + 1) ++ lit ". " ++ message result ++ nl
  ++ match error result with
     | Some ((_ :: _) as e) => lit "   Error: " ++ e ++ nl
     | _ => []
     end
  ++ match data result with
     | Some (DText ((_ :: _) as d)) =>
         lit "   Data: " ++ substring0 200 d
         ++ (if (200 <? length d)%nat then lit "..." else []) ++ nl
     | _ => []
     end.

(** [this.context.conversationHistory.push({ role, content, timestamp:
    new Date() })] *)
Definition pushHistory (r : Role) (text : JsString) : M state unit :=
  let* now := call NewDate in
  modify (fun st =>
    set_store
      (push_message (conversationHistory (context (this st)))
         {| role := r; content := text; timestamp := now |} (store st))
      st).

Definition processMessage (userMessage : JsString) : M state JsString :=
  let* _ := pushHistory user userMessage in
  let* systemPrompt := generateSystemPrompt in
  let* history :=
    gets (fun st => messages_at (conversationHistory (context (this st)))
                      (store st)) in
  let messages :=
    {| cm_role := system; cm_content := systemPrompt |}
    :: map (fun msg => {| cm_role := role msg; cm_content := content msg |})
         (slice_last 10 history) in
  let* aiResponse := callOpenAI messages in
  let* toolResults := parseAndExecuteTools aiResponse in
  let finalResponse :=
    match toolResults with
    | [] => aiResponse
    | _ => aiResponse ++ nl ++ nl ++ lit "Tool Results:" ++ nl
           ++ concat (imap formatResult toolResults)
    end in
  let* _ := pushHistory assistant finalResponse in
  ret finalResponse.

(** *** Direct tool access *)

Definition readFile (filePath : JsString) : M state ToolResult :=
  on_fileTools (FileTools.readFile (Some filePath)).

Definition writeFile (filePath content : JsString) : M state ToolResult :=
  on_fileTools (FileTools.writeFile (Some filePath) (Some content)).

Definition editFile (filePath newContent : JsString) : M state ToolResult :=
  on_fileTools (FileTools.editFile (Some filePath) (Some newContent)).

Definition executeCommand (command : JsString) : M state ToolResult :=
  if negb (CommandTools.isSafeCommand command) then
    ret (commandBlocked (Some command))
  else on_commandTools (CommandTools.executeCommand (Some command)).

Definition listFiles (directory : JsArg) : M state ToolResult :=
  on_fileTools (FileTools.listFiles (Some (default (lit ".") directory))).

Definition listEmails (options : option EmailSearchOptions) : M state ToolResult :=
  ifGmail (GmailTools.listEmails
             (default {| so_query := None; so_maxResults := None;
                         so_includeSpamTrash := None |} options)).

Definition getEmail (messageId : JsString) : M state ToolResult :=
  ifGmail (GmailTools.getEmail (Some messageId)).

Definition sendEmail (draft : EmailDraft) : M state ToolResult :=
  ifGmail (GmailTools.sendEmail draft).

Definition createDraft (draft : EmailDraft) : M state ToolResult :=
  ifGmail (GmailTools.createDraft draft).

Definition searchEmails (query : JsString) (maxResults : option Z)
    : M state ToolResult :=
  ifGmail (GmailTools.searchEmails (Some query) (Some (default 10%Z maxResults))).

Definition getUnreadEmails (maxResults : option Z) : M state ToolResult :=
  ifGmail (GmailTools.getUnreadEmails (Some (default 10%Z maxResults))).

Definition markAsRead (messageId : JsString) : M state ToolResult :=
  ifGmail (GmailTools.markAsRead (Some messageId)).

Definition deleteEmail (messageId : JsString) : M state ToolResult :=
  ifGmail (GmailTools.deleteEmail (Some messageId)).

Definition getEmailContext (messageId : JsString) : M state ToolResult :=
  ifGmail (GmailTools.getEmailContext (Some messageId)).

Definition analyzeEmailThread (threadId : JsString) : M state ToolResult :=
  ifGmail (GmailTools.analyzeEmailThread (Some threadId)).

(** [return { ...this.context }]: a new object with the same four field
    values, the three arrays being the very arrays of the agent. *)
Definition getContext : M state AgentContext :=
  let* c := gets (fun st => context (this st)) in
  ret {| currentDirectory := currentDirectory c;
         recentFiles := recentFiles c;
         recentCommands := recentCommands c;
         conversationHistory := conversationHistory c |}.

Definition setCurrentDirectory (directory : JsString) : M state unit :=
  let* _ := modify (fun st =>
              set_context
                {| currentDirectory := directory;
                   recentFiles := recentFiles (context (this st));
                   recentCommands := recentCommands (context (this st));
                   conversationHistory := conversationHistory (context (this st)) |}
                st) in
  let* _ := on_fileTools (FileTools.setCurrentDirectory directory) in
  on_commandTools (CommandTools.setCurrentDirectory directory).

Record MCPContext : Type := {
  mcp_currentDirectory : JsString;
  mcp_recentFiles : loc;
  mcp_recentCommands : loc;
  mcp_conversationHistory : nat;
  mcp_gmailAvailable : bool
}.

Definition getMCPContext : M state MCPContext :=
  let* st := gets id in
  let c := context (this st) in
  ret {| mcp_currentDirectory := currentDirectory c;
         mcp_recentFiles := recentFiles c;
         mcp_recentCommands := recentCommands c;
         mcp_conversationHistory :=
           length (messages_at (conversationHistory c) (store st));
         mcp_gmailAvailable := bool_decide (is_Some (gmailTools (this st))) |}.

End CodingAgent.

(** ** [class CLI] ([src/cli.ts]): the interactive loop

    Console output is kept as [ConsoleLog] events carrying the text without
    the pictograph that starts most messages. *)

Module CLI.

Import CodingAgent.

Definition log (text : JsString) : M state unit := call (ConsoleLog text).

Definition logs (texts : list JsString) : M state unit :=
  for_of texts tt (fun _ text => log text).

Definition rule : JsString := repeat "-"%char 50.

Definition displayHelp : M state unit :=
  logs (map lit
    ["Available Commands:";
     "  help                    - Show this help message";
     "  quit, exit              - Exit the agent";
     "  clear                   - Clear the conversation history";
     "  context                 - Show current context";
     "  cd <directory>          - Change current directory";
     "  ls, list               - List files in current directory";
     "  read <file>            - Read a file";
     "  write <file> <content> - Write content to a file";
     "  run <command>          - Execute a bash command";
     "";
     "Email Commands (Gmail API):";
     "  emails                  - List recent emails";
     "  unread                  - List unread emails";
     "  search <query>         - Search emails";
     "  email <id>             - Get specific email";
     "  send <to> <subject> <body> - Send email";
     "  draft <to> <subject> <body> - Create draft";
     "  read-email <id>        - Mark email as read";
     "  delete-email <id>      - Delete email";
     "  analyze <thread-id>    - Analyze email thread";
     "  <any other message>    - Chat with the AI agent"]%string).

(** What a command handler tells the loop: the input was handled, it was
    not, or the process has exited. *)
Inductive Handled : Type := handled | not_handled | exited.

Definition handleSpecialCommands (input : JsString) : M state Handled :=
  let trimmed := trim input in
  switch (toLowerCase trimmed)
    [(lit "help", let* _ := displayHelp in ret handled);
     (lit "quit", let* _ := log (lit "Goodbye!") in ret exited);
     (lit "exit", let* _ := log (lit "Goodbye!") in ret exited);
     (lit "clear",
        let* _ := log (lit "Conversation history cleared.") in ret handled);
     (lit "context",
        let* context := getContext in
        let* mcpContext := getMCPContext in
        let* h := gets store in
        let* _ := logs
          [lit "Current Context:";
           lit "  Directory: " ++ currentDirectory context;
           lit "  Recent files: "
             ++ join (lit ", ") (slice_last 5 (strings_at (recentFiles context) h));
           lit "  Recent commands: "
             ++ join (lit ", ") (slice_last 5 (strings_at (recentCommands context) h));
           lit "  Conversation messages: "
             ++ nat_to_string
                  (length (messages_at (conversationHistory context) h));
           lit "  Gmail available: "
             ++ (if mcp_gmailAvailable mcpContext then lit "yes" else lit "no")] in
        ret handled)]
    (ret not_handled).

(** [if (r.success) log(r.message) else log(r.message)] *)
Definition report (r : ToolResult) : M state unit := log (message r).

Definition showEmails (title : string) (r : ToolResult) : M state unit :=
  match success r, data r with
  | true, Some (DEmailList l) =>
      let emails := el_messages l in
      let* _ := log (lit title ++ lit " (" ++ nat_to_string (length emails)
                     ++ lit "):") in
      logs (concat (imap (fun index email =>
              [lit "  " ++ nat_to_string (index + 1) ++ lit ". "
               ++ em_subject email ++ lit " - " ++ em_from email;
               lit "     " ++ substring0 50 (em_snippet email) ++ lit "..."])
            emails))
  | _, _ => log (message r)
  end.

(** [console.log(usage); return true] *)
Definition usage (text : string) : M state bool :=
  let* _ := log (lit text) in ret true.

Definition handleBuiltInCommands (input : JsString) : M state bool :=
  let parts := split " " (trim input) in
  let command := toLowerCase (default [] (parts !! 0)) in
  let arg1 := default [] (parts !! 1) in
  switch command
    [(lit "cd",
        if (length parts <? 2)%nat then usage "Usage: cd <directory>"
        else
          let* _ := try_catch
              (let* _ := setCurrentDirectory arg1 in
               log (lit "Changed directory to: " ++ arg1))
              (fun e => log (lit "Failed to change directory: "
                             ++ error_message "error" e)) in
          ret true);
     (lit "ls",
        let* listResult := listFiles None in
        let* _ := match success listResult, data listResult with
                  | true, Some (DFiles files) =>
                      let* _ := log (lit "Files in current directory:") in
                      logs (map (fun file => lit "  " ++ fe_name file) files)
                  | _, _ => log (message listResult)
                  end in
        ret true);
     (lit "list",
        let* listResult := listFiles None in
        let* _ := match success listResult, data listResult with
                  | true, Some (DFiles files) =>
                      let* _ := log (lit "Files in current directory:") in
                      logs (map (fun file => lit "  " ++ fe_name file) files)
                  | _, _ => log (message listResult)
                  end in
        ret true);
     (lit "read",
        if (length parts <? 2)%nat then usage "Usage: read <file>"
        else
          let* readResult := readFile arg1 in
          let* _ := match success readResult, data readResult with
                    | true, Some (DText ((_ :: _) as text)) =>
                        logs [lit "Contents of " ++ arg1 ++ lit ":"; rule; text; rule]
                    | _, _ => log (message readResult)
                    end in
          ret true);
     (lit "write",
        if (length parts <? 3)%nat then usage "Usage: write <file> <content>"
        else
          let content := join (lit " ") (drop 2 parts) in
          let* writeResult := writeFile arg1 content in
          let* _ := report writeResult in
          ret true);
     (lit "run",
        if (length parts <? 2)%nat then usage "Usage: run <command>"
        else
          let cmd := join (lit " ") (drop 1 parts) in
          let* _ := log (lit "Executing: " ++ cmd) in
          let* runResult := executeCommand cmd in
          let* _ := match success runResult, data runResult with
                    | true, Some (DCommand r) =>
                        let* _ := logs [lit "Output:"; rule; ce_output r] in
                        let* _ := match ce_error r with
                                  | Some ((_ :: _) as e) => logs [lit "Error:"; e]
                                  | _ => ret tt
                                  end in
                        log rule
                    | _, _ => log (message runResult)
                    end in
          ret true);
     (lit "emails",
        let* _ := log (lit "Fetching recent emails...") in
        let* emailsResult := listEmails None in
        let* _ := showEmails "Recent emails" emailsResult in
        ret true);
     (lit "unread",
        let* _ := log (lit "Fetching unread emails...") in
        let* unreadResult := getUnreadEmails None in
        let* _ := showEmails "Unread emails" unreadResult in
        ret true);
     (lit "search",
        if (length parts <? 2)%nat then usage "Usage: search <query>"
        else
          let query := join (lit " ") (drop 1 parts) in
          let* _ := log (lit "Searching emails for: " ++ query) in
          let* searchResult := searchEmails query None in
          let* _ := showEmails "Search results" searchResult in
          ret true);
     (lit "email",
        if (length parts <? 2)%nat then usage "Usage: email <message-id>"
        else
          let* _ := log (lit "Fetching email: " ++ arg1) in
          let* emailResult := getEmail arg1 in
          let* _ := match success emailResult, data emailResult with
                    | true, Some (DEmail email) =>
                        logs [lit "Email Details:"; rule;
                              lit "Subject: " ++ em_subject email;
                              lit "From: " ++ em_from email;
                              lit "To: " ++ join (lit ", ") (em_to email);
                              lit "Date: " ++ Z_to_string (em_date email);
                              lit "Read: " ++ (if em_isRead email then lit "Yes" else lit "No");
                              lit "Attachments: "
                                ++ (if em_hasAttachments email then lit "Yes" else lit "No");
                              lit "Body:"; rule; em_body email; rule]
                    | _, _ => log (message emailResult)
                    end in
          ret true);
     (lit "send",
        if (length parts <? 4)%nat then usage "Usage: send <to> <subject> <body>"
        else
          let draft := {| ed_to := [arg1];
                          ed_subject := default [] (parts !! 2);
                          ed_body := join (lit " ") (drop 3 parts) |} in
          let* _ := log (lit "Sending email to: " ++ arg1) in
          let* sendResult := sendEmail draft in
          let* _ := report sendResult in
          ret true);
     (lit "draft",
        if (length parts <? 4)%nat then usage "Usage: draft <to> <subject> <body>"
        else
          let emailDraft := {| ed_to := [arg1];
                               ed_subject := default [] (parts !! 2);
                               ed_body := join (lit " ") (drop 3 parts) |} in
          let* _ := log (lit "Creating draft for: " ++ arg1) in
          let* draftResult := createDraft emailDraft in
          let* _ := report draftResult in
          ret true);
     (lit "read-email",
        if (length parts <? 2)%nat then usage "Usage: read-email <message-id>"
        else
          let* _ := log (lit "Marking email as read: " ++ arg1) in
          let* readEmailResult := markAsRead arg1 in
          let* _ := report readEmailResult in
          ret true);
     (lit "delete-email",
        if (length parts <? 2)%nat then usage "Usage: delete-email <message-id>"
        else
          let* _ := log (lit "Deleting email: " ++ arg1) in
          let* deleteResult := deleteEmail arg1 in
          let* _ := report deleteResult in
          ret true);
     (lit "analyze",
        if (length parts <? 2)%nat then usage "Usage: analyze <thread-id>"
        else
          let* _ := log (lit "Analyzing email thread: " ++ arg1) in
          let* analyzeResult := analyzeEmailThread arg1 in
          let* _ := match success analyzeResult, data analyzeResult with
                    | true, Some (DThread analysis) =>
                        logs [lit "Thread Analysis:"; rule;
                              lit "Thread ID: " ++ template (ta_threadId analysis);
                              lit "Message Count: "
                                ++ nat_to_string (ta_messageCount analysis);
                              lit "Participants: "
                                ++ join (lit ", ") (ta_participants analysis);
                              lit "Subjects: "
                                ++ join (lit ", ") (ta_subjects analysis);
                              lit "Has Attachments: "
                                ++ (if ta_hasAttachments analysis
                                    then lit "Yes" else lit "No");
                              rule]
                    | _, _ => log (message analyzeResult)
                    end in
          ret true)]
    (ret false).

(** How one pass through the body of [while (true)] ends. *)
Inductive Next : Type := next_prompt | process_exit.

(** One pass through the loop of [start], [input] being the line read by
    [promptUser]. *)
Definition turn (input : JsString) : M state Next :=
  try_catch
    (match trim input with
     | [] => ret next_prompt
     | _ =>
         let* special := handleSpecialCommands input in
         match special with
         | exited => ret process_exit
         | handled => ret next_prompt
         | not_handled =>
             let* builtIn := handleBuiltInCommands input in
             if builtIn then ret next_prompt
             else
               let* _ := log (lit "Processing...") in
               let* response := processMessage input in
               let* _ := log response in
               ret next_prompt
         end
     end)
    (fun e =>
       let* _ := call (ConsoleError (lit "Error: " ++ error_message "error" e)) in
       ret next_prompt).

End CLI.

(** ** Notions used to state the properties *)

(** A run of a program: the events issued with the answers given, and the
    value the program ends in. *)
Inductive Answer : Type :=
| answer (A : Type) (e : Event A) (o : Reply A).
Arguments answer {A} e o.

Fixpoint runs {R : Type} (p : Prog R) (tr : list Answer) (r : R) : Prop :=
  match p with
  | Ret r' => tr = [] /\ r = r'
  | Vis e k => exists o tr', tr = answer e o :: tr' /\ runs (k o) tr' r
  end.

(** What holds of the result of a tool, if it returns one. *)
Definition returning (P : ToolResult -> Prop) (r : Res ToolResult) : Prop :=
  match r with
  | Ok res => P res
  | Raise _ => True
  end.

(** Every run of the method [m] from [s] ends in a result and a state
    satisfying [Q]. *)
Definition wp {S A : Type} (m : M S A) (s : S) (Q : Res A -> S -> Prop) : Prop :=
  always (m s) (fun '(r, s') => Q r s').

(** [s] contains [sub]. *)
Definition contains (s sub : JsString) : Prop :=
  exists before after, s = before ++ sub ++ after.

(** The longest prefix of characters in the class [p], and what follows. *)
Fixpoint take_while (p : ascii -> bool) (s : JsString) : JsString :=
  match s with
  | c :: s' => if p c then c :: take_while p s' else []
  | [] => []
  end.

Fixpoint drop_while (p : ascii -> bool) (s : JsString) : JsString :=
  match s with
  | c :: s' => if p c then drop_while p s' else s
  | [] => []
  end.

(** The texts [ms] occur in [s] one after the other, without overlap. *)
Inductive in_order : JsString -> list JsString -> Prop :=
| in_order_nil s : in_order s []
| in_order_cons gap m rest ms :
    in_order rest ms -> in_order (gap ++ m ++ rest) (m :: ms).

(** The text of a call: a name, white space, and a parenthesized body. *)
Definition call_text (name ws body : JsString) : JsString :=
  name ++ ws ++ "("%char :: body ++ [")"%char].

(** What the pattern of tool calls demands of the three parts. *)
Definition call_parts (name ws body : JsString) : Prop :=
  name ∈ toolNames /\
  Forall (fun c => is_space c = true) ws /\
  body <> [] /\
  Forall (fun c => not_rparen c = true) body.

(** A call descriptor: the name and the positional arguments. *)
Record ToolCall : Type := {
  tc_name : JsString;
  tc_arguments : list JsString
}.

(** The call read off one match by the body of the loop of
    [parseAndExecuteTools], before the [switch]. *)
Definition parseCall (toolCall : JsString) : option ToolCall :=
  match match_call toolCall with
  | Some (funcName, argsStr) =>
      Some {| tc_name := funcName; tc_arguments := parse_args argsStr |}
  | None => None
  end.

(** The Call Extractor: the calls the loop of [parseAndExecuteTools] goes
    through, in the order it does. *)
Definition extractCalls (text : JsString) : list ToolCall :=
  omap parseCall (default [] (match_toolCalls text)).

(** The character before the position reached after [gap], [prev] being the
    one before [gap]. *)
Definition char_before (prev : option ascii) (gap : JsString) : option ascii :=
  fold_left (fun _ c => Some c) gap prev.

(** [s] is empty or ends in a character that is not a word character. *)
Definition ends_outside_word (s : JsString) : Prop :=
  from_option is_word false (last s) = false.

(** Every opening parenthesis of [s] is directly followed by a closing one,
    or ends [s]. *)
Fixpoint only_empty_parens (s : JsString) : bool :=
  match s with
  | c :: s' =>
      (if Ascii.eqb c "(" then
         match s' with
         | d :: _ => Ascii.eqb d ")"
         | [] => true
         end
       else true) && only_empty_parens s'
  | [] => true
  end.

(** [s] has no opening parenthesis. *)
Definition no_lparen (s : JsString) : Prop := "("%char ∉ s.

(** Following the words of the specification (strip surrounding quote
    characters from each token): a quote character at the start of the token
    and one at its end are removed, the others are kept. *)
Definition spec_strip_surrounding_quotes (token : JsString) : JsString :=
  let strip_first (s : JsString) :=
    match s with
    | c :: s' => if is_quote c then s' else s
    | [] => []
    end in
  rev (strip_first (rev (strip_first token))).

(** The argument list as the specification words it: split on commas, trim,
    strip surrounding quotes. *)
Definition spec_parse_args (argsStr : JsString) : list JsString :=
  map (fun arg => spec_strip_surrounding_quotes (trim arg)) (split "," argsStr).

(** An environment for running examples: the working directory is /work,
    paths resolve by concatenation, no file exists, and every other call
    fails with the error [offline]. *)
Definition offline : Handler unit :=
  fun A e w =>
    (match e in Event A return Reply A with
     | ProcessCwd => Returned (lit "/work")
     | PathResolve cwd p => Returned (cwd ++ lit "/" ++ template p)
     | PathResolve1 p => Returned p
     | PathDirname p => Returned p
     | ExistsSync _ => Returned false
     | NewDate => Returned 0%Z
     | ConsoleLog _ => Returned tt
     | ConsoleError _ => Returned tt
     | _ => Thrown (JsError (lit "offline"))
     end, w).

Definition sample_config : AgentConfig :=
  {| name := lit "CodingAgent"; maxTokens := 4000; temperature := 1 # 10;
     apiKey := lit "sk-test" |}.

Definition sample_gmailConfig : GmailConfig :=
  {| credentialsPath := lit "credentials.json";
     tokenPath := lit "token.json";
     scopes := [lit "https://www.googleapis.com/auth/gmail.readonly"] |}.

(** The state a newly constructed agent runs on, in the environment
    [offline]. *)
Definition fresh_state (gmailConfig : option GmailConfig)
    : option CodingAgent.state :=
  match fst (interp offline (CodingAgent.new sample_config gmailConfig empty_store) tt) with
  | (Ok agent, h) => Some {| CodingAgent.store := h; CodingAgent.this := agent |}
  | (Raise _, _) => None
  end.

(** The same state written out, with the mailbox tools [gm]. *)
Definition sample_state (gm : option GmailTools.t) : CodingAgent.state :=
  {| CodingAgent.store :=
       {| string_arrays := {[ 1%positive := []; 2%positive := [] ]};
          message_arrays := {[ 1%positive := [] ]} |};
     CodingAgent.this :=
       {| CodingAgent.config := sample_config;
          CodingAgent.context :=
            {| currentDirectory := lit "/work";
               recentFiles := 1%positive;
               recentCommands := 2%positive;
               conversationHistory := 1%positive |};
          CodingAgent.fileTools := {| FileTools.currentDirectory := lit "/work" |};
          CodingAgent.commandTools :=
            {| CommandTools.currentDirectory := lit "/work" |};
          CodingAgent.gmailTools := gm |} |}.

(** Mailbox tools after a successful authentication. *)
Definition authenticated_gmail : GmailTools.t :=
  {| GmailTools.config := sample_gmailConfig;
     GmailTools.gmail := true;
     GmailTools.isAuthenticated := true |}.

(** The operations of an agent open to its users: message processing,
    the dispatch of the calls of a response, the direct tool methods, and
    the accessors. *)
Inductive Operation : Type :=
| op_processMessage (userMessage : JsString)
| op_parseAndExecuteTools (response : JsString)
| op_readFile (filePath : JsString)
| op_writeFile (filePath content : JsString)
| op_editFile (filePath newContent : JsString)
| op_executeCommand (command : JsString)
| op_listFiles (directory : JsArg)
| op_listEmails (options : option EmailSearchOptions)
| op_getEmail (messageId : JsString)
| op_sendEmail (draft : EmailDraft)
| op_createDraft (draft : EmailDraft)
| op_searchEmails (query : JsString) (maxResults : option Z)
| op_getUnreadEmails (maxResults : option Z)
| op_markAsRead (messageId : JsString)
| op_deleteEmail (messageId : JsString)
| op_getEmailContext (messageId : JsString)
| op_analyzeEmailThread (threadId : JsString)
| op_getContext
| op_setCurrentDirectory (directory : JsString)
| op_getMCPContext.

(** A method run for its effect, the value dropped. *)
Definition void {S A : Type} (m : M S A) : M S unit := let* _ := m in ret tt.

Definition perform (op : Operation) : M CodingAgent.state unit :=
  match op with
  | op_processMessage userMessage => void (CodingAgent.processMessage userMessage)
  | op_parseAndExecuteTools response =>
      void (CodingAgent.parseAndExecuteTools response)
  | op_readFile filePath => void (CodingAgent.readFile filePath)
  | op_writeFile filePath content => void (CodingAgent.writeFile filePath content)
  | op_editFile filePath newContent =>
      void (CodingAgent.editFile filePath newContent)
  | op_executeCommand command => void (CodingAgent.executeCommand command)
  | op_listFiles directory => void (CodingAgent.listFiles directory)
  | op_listEmails options => void (CodingAgent.listEmails options)
  | op_getEmail messageId => void (CodingAgent.getEmail messageId)
  | op_sendEmail draft => void (CodingAgent.sendEmail draft)
  | op_createDraft draft => void (CodingAgent.createDraft draft)
  | op_searchEmails query maxResults =>
      void (CodingAgent.searchEmails query maxResults)
  | op_getUnreadEmails maxResults => void (CodingAgent.getUnreadEmails maxResults)
  | op_markAsRead messageId => void (CodingAgent.markAsRead messageId)
  | op_deleteEmail messageId => void (CodingAgent.deleteEmail messageId)
  | op_getEmailContext messageId => void (CodingAgent.getEmailContext messageId)
  | op_analyzeEmailThread threadId =>
      void (CodingAgent.analyzeEmailThread threadId)
  | op_getContext => void CodingAgent.getContext
  | op_setCurrentDirectory directory =>
      CodingAgent.setCurrentDirectory directory
  | op_getMCPContext => void CodingAgent.getMCPContext
  end.

(** The states an agent can be in: the one its constructor leaves, in any
    store and environment, and those any of its operations leads to,
    whether the operation returns or throws. *)
Inductive reachable : CodingAgent.state -> Prop :=
| reachable_new config gmailConfig h0 tr agent h :
    runs (CodingAgent.new config gmailConfig h0) tr (Ok agent, h) ->
    reachable {| CodingAgent.store := h; CodingAgent.this := agent |}
| reachable_step st op tr r st' :
    reachable st ->
    runs (perform op st) tr (r, st') ->
    reachable st'.

(** What no operation of the agent touches: the arrays of strings of the
    store and the two fields of the context that name them. *)
Definition keeps (st st' : CodingAgent.state) : Prop :=
  string_arrays (CodingAgent.store st') = string_arrays (CodingAgent.store st) /\
  recentFiles (CodingAgent.context (CodingAgent.this st'))
  = recentFiles (CodingAgent.context (CodingAgent.this st)) /\
  recentCommands (CodingAgent.context (CodingAgent.this st'))
  = recentCommands (CodingAgent.context (CodingAgent.this st)).

Definition framed {A : Type} (m : M CodingAgent.state A) : Prop :=
  forall st, wp m st (fun _ st' => keeps st st').

(** [b] does not start with a character of the class [p]. *)
Definition stops (p : ascii -> bool) (b : JsString) : Prop :=
  match b with
  | c :: _ => p c = false
  | [] => True
  end.

(** The two arrays of recent files and commands are there and empty. *)
Definition recent_empty (st : CodingAgent.state) : Prop :=
  string_arrays (CodingAgent.store st)
    !! recentFiles (CodingAgent.context (CodingAgent.this st)) = Some [] /\
  string_arrays (CodingAgent.store st)
    !! recentCommands (CodingAgent.context (CodingAgent.this st)) = Some [].

(** Every event the program can issue, whatever the answers, satisfies
    [P]. *)
Fixpoint all_events {R : Type} (P : forall A, Event A -> Prop) (p : Prog R) : Prop :=
  match p with
  | Ret _ => True
  | Vis e k => P _ e /\ forall o, all_events P (k o)
  end.

Definition issues_only {S A : Type} (P : forall A, Event A -> Prop) (m : M S A)
    : Prop :=
  forall s, all_events P (m s).

(** The events that start a process are the plain [exec] of a command that
    the safety gate accepts. *)
Definition gated (A : Type) (e : Event A) : Prop :=
  match e with
  | Exec command _ =>
      exists c, command = Some c /\ CommandTools.isSafeCommand c = true
  | ExecWithTimeout _ _ _ => False
  | Spawn _ _ _ => False
  | _ => True
  end.

(** The event starts no process. *)
Definition no_process (A : Type) (e : Event A) : Prop :=
  match e with
  | Exec _ _ => False
  | ExecWithTimeout _ _ _ => False
  | Spawn _ _ _ => False
  | _ => True
  end.

(** The event is not a call to the remote mailbox. *)
Definition no_mailbox_call (A : Type) (e : Event A) : Prop :=
  match e with
  | MessagesList _ _ _ => False
  | MessagesGet _ => False
  | MessagesSend _ => False
  | DraftsCreate _ => False
  | MessagesModify _ => False
  | MessagesDelete _ => False
  | ThreadsGet _ => False
  | _ => True
  end.

(** The event does not write to the file system. *)
Definition no_write (A : Type) (e : Event A) : Prop :=
  match e with
  | WriteFileSync _ _ => False
  | MkdirSync _ => False
  | _ => True
  end.

(** The method never throws, and leaves its receiver as it was. *)
Definition total_pure {S : Type} (m : M S ToolResult) : Prop :=
  forall s, wp m s (fun r s' => (exists res, r = Ok res) /\ s' = s).

(** The number of commas of a text. *)
Definition commas (s : JsString) : nat :=
  length (List.filter (fun c => Ascii.eqb c ",") s).

(** The mailbox tools keep their configuration, and stay authenticated once
    they are. *)
Definition gmail_steady (g g' : GmailTools.t) : Prop :=
  GmailTools.config g' = GmailTools.config g /\
  (GmailTools.isAuthenticated g = true -> GmailTools.isAuthenticated g' = true).

(** The method never throws and keeps the mailbox tools steady. *)
Definition gmail_total (m : M GmailTools.t ToolResult) : Prop :=
  forall g, wp m g (fun r g' => (exists res, r = Ok res) /\ gmail_steady g g').

(** The method leaves every state related by [R] to the state it ends in. *)
Definition preserves {A : Type} (R : CodingAgent.state -> CodingAgent.state -> Prop)
    (m : M CodingAgent.state A) : Prop :=
  forall st, wp m st (fun _ st' => R st st').

(** The store, the context and the configuration are the same. *)
Definition untouched (st st' : CodingAgent.state) : Prop :=
  CodingAgent.store st' = CodingAgent.store st /\
  CodingAgent.context (CodingAgent.this st')
  = CodingAgent.context (CodingAgent.this st) /\
  CodingAgent.config (CodingAgent.this st')
  = CodingAgent.config (CodingAgent.this st).

(** The conversation history of the agent. *)
Definition history_of (st : CodingAgent.state) : option (list AgentMessage) :=
  message_arrays (CodingAgent.store st)
    !! conversationHistory (CodingAgent.context (CodingAgent.this st)).

(** From [st] to [st'] the messages [msgs] were pushed on the conversation
    history, and the other arrays, the context and the configuration are
    the same. *)
Definition grown (msgs : list AgentMessage) (st st' : CodingAgent.state) : Prop :=
  history_of st' = (fun h => h ++ msgs) <$> history_of st /\
  string_arrays (CodingAgent.store st') = string_arrays (CodingAgent.store st) /\
  CodingAgent.context (CodingAgent.this st')
  = CodingAgent.context (CodingAgent.this st) /\
  CodingAgent.config (CodingAgent.this st')
  = CodingAgent.config (CodingAgent.this st) /\
  forall l,
    l <> conversationHistory (CodingAgent.context (CodingAgent.this st)) ->
    message_arrays (CodingAgent.store st') !! l
    = message_arrays (CodingAgent.store st) !! l.

(** The event is not a request to the model. *)
Definition no_model_call (A : Type) (e : Event A) : Prop :=
  match e with
  | ChatCompletionsCreate _ _ _ => False
  | _ => True
  end.

(** The labels of the cases of [handleSpecialCommands] and of
    [handleBuiltInCommands], and the texts the two switch on. *)
Definition specialCommands : list JsString :=
  map lit ["help"; "quit"; "exit"; "clear"; "context"]%string.

Definition builtInCommands : list JsString :=
  map lit ["cd"; "ls"; "list"; "read"; "write"; "run"; "emails"; "unread";
           "search"; "email"; "send"; "draft"; "read-email"; "delete-email";
           "analyze"]%string.

Definition special_key (input : JsString) : JsString := toLowerCase (trim input).

Definition builtIn_key (input : JsString) : JsString :=
  toLowerCase (default [] (split " " (trim input) !! 0)).

(** The line is one of the commands of the prompt. *)
Definition is_command (input : JsString) : bool :=
  existsb (jseq (special_key input)) specialCommands
  || existsb (jseq (builtIn_key input)) builtInCommands.

(** The store, the configuration and the three arrays of the context are
    the same; the current directory may differ. *)
Definition same_history (st st' : CodingAgent.state) : Prop :=
  CodingAgent.store st' = CodingAgent.store st /\
  CodingAgent.config (CodingAgent.this st')
  = CodingAgent.config (CodingAgent.this st) /\
  recentFiles (CodingAgent.context (CodingAgent.this st'))
  = recentFiles (CodingAgent.context (CodingAgent.this st)) /\
  recentCommands (CodingAgent.context (CodingAgent.this st'))
  = recentCommands (CodingAgent.context (CodingAgent.this st)) /\
  conversationHistory (CodingAgent.context (CodingAgent.this st'))
  = conversationHistory (CodingAgent.context (CodingAgent.this st)).

(** What a request to the model made while processing [userMessage] looks
    like, [h] being the history before and [cfg] the configuration: the
    system prompt, the last nine messages of [h], and the message of the
    user, with the limits of the configuration. *)
Definition request_shape (cfg : AgentConfig) (h : list AgentMessage)
    (userMessage : JsString) (A : Type) (e : Event A) : Prop :=
  match e with
  | ChatCompletionsCreate messages max_tokens temp =>
      max_tokens = maxTokens cfg /\ temp = temperature cfg /\
      (length messages <= 11)%nat /\
      exists systemPrompt,
        messages
        = {| cm_role := system; cm_content := systemPrompt |}
          :: map (fun msg => {| cm_role := role msg; cm_content := content msg |})
               (slice_last 9 h)
          ++ [{| cm_role := user; cm_content := userMessage |}]
  | _ => True
  end.

(** On tools that are not authenticated the first thing the method does is
    to authenticate, with the credentials and the scopes of the
    configuration; when that fails the method returns the failure at once,
    the tools being as they were. *)
Definition authenticates_first (m : M GmailTools.t ToolResult) : Prop :=
  forall g,
    GmailTools.isAuthenticated g = false ->
    exists k,
      m g = Vis (Authenticate (credentialsPath (GmailTools.config g))
                   (scopes (GmailTools.config g))) k /\
      forall x,
        k (Thrown x)
        = Ret (Ok (GmailTools.failed "Authentication failed" x
                     (lit "Failed to authenticate with Gmail API")), g).

(** The event is not an authentication. *)
Definition no_authenticate (A : Type) (e : Event A) : Prop :=
  match e with
  | Authenticate _ _ => False
  | _ => True
  end.

(** From a state satisfying [I] the method issues only events satisfying
    [P], and ends in a state satisfying [I]. *)
Definition issues_under {S A : Type} (P : forall A, Event A -> Prop)
    (I : S -> Prop) (m : M S A) : Prop :=
  forall s, I s -> all_events P (m s) /\ wp m s (fun _ s' => I s').

Definition authenticated (g : GmailTools.t) : Prop :=
  GmailTools.isAuthenticated g = true.

(** The word has no space. *)
Definition no_space (w : JsString) : Prop := " "%char ∉ w.

(** What the built-in commands pass on is the line as typed: the command
    run is the text after the first word, the content written the text
    after the second, and a draft has the second word as its recipient, the
    third as its subject and the text after it as its body. *)
Definition typed_through (input : JsString) (A : Type) (e : Event A) : Prop :=
  match e with
  | Exec command _ =>
      exists w c,
        command = Some c /\ toLowerCase w = lit "run" /\ no_space w /\
        trim input = w ++ lit " " ++ c
  | WriteFileSync _ content =>
      exists w file c,
        content = Some c /\ toLowerCase w = lit "write" /\
        no_space w /\ no_space file /\
        trim input = w ++ lit " " ++ file ++ lit " " ++ c
  | MessagesSend draft =>
      exists w to,
        ed_to draft = [to] /\ toLowerCase w = lit "send" /\
        no_space w /\ no_space to /\ no_space (ed_subject draft) /\
        trim input
        = w ++ lit " " ++ to ++ lit " " ++ ed_subject draft ++ lit " " ++ ed_body draft
  | DraftsCreate draft =>
      exists w to,
        ed_to draft = [to] /\ toLowerCase w = lit "draft" /\
        no_space w /\ no_space to /\ no_space (ed_subject draft) /\
        trim input
        = w ++ lit " " ++ to ++ lit " " ++ ed_subject draft ++ lit " " ++ ed_body draft
  | _ => True
  end.

(** The text has no quote character, no comma and no closing parenthesis. *)
Definition plain (s : JsString) : Prop :=
  Forall (fun ch => is_quote ch = false /\ ch <> ","%char /\ ch <> ")"%char) s.

(** What the calls of a response can ask of the file system and of the
    shell: paths, contents and commands that are plain texts. *)
Definition model_args (A : Type) (e : Event A) : Prop :=
  match e with
  | Exec command _ => exists c, command = Some c /\ plain c
  | WriteFileSync _ content => forall c, content = Some c -> plain c
  | PathResolve _ p => forall s, p = Some s -> plain s
  | _ => True
  end.

(** The run ended on the clock or the error console throwing [e]. *)
Definition clock_or_console (tr : list Answer) (e : Exn) : Prop :=
  last tr = Some (answer NewDate (Thrown e)) \/
  exists text, last tr = Some (answer (ConsoleError text) (Thrown e)).

(** The invariant of results: a result with an error is a failure, and its
    message is not empty. *)
Definition result_ok (r : ToolResult) : Prop :=
  (is_Some (error r) -> success r = false) /\ message r <> [].

(** * Properties *)

Example parseInt_25 : parseInt (Some (lit "25")) = Some 25%Z.
Proof. reflexivity. Qed.
Example parseInt_12abc : parseInt (Some (lit "12abc")) = Some 12%Z.
Proof. reflexivity. Qed.
Example parseInt_hex : parseInt (Some (lit "0x1F")) = Some 31%Z.
Proof. reflexivity. Qed.
Example parseInt_neg : parseInt (Some (lit "-7")) = Some (-7)%Z.
Proof. reflexivity. Qed.
Example parseInt_word : parseInt (Some (lit "ten")) = None.
Proof. reflexivity. Qed.
Example parseInt_undefined : parseInt None = None.
Proof. reflexivity. Qed.
Example split_example :
  split "," (lit "b.txt, hi") = [lit "b.txt"; lit " hi"].
Proof. reflexivity. Qed.
Example trim_example : trim (lit "  a b ") = lit "a b".
Proof. reflexivity. Qed.

Example scan_example :
  scan None 0 (lit "I will readFile('a.txt') then writeFile(b.txt, hi).")
  = [lit "readFile('a.txt')"; lit "writeFile(b.txt, hi)"].
Proof. vm_compute. reflexivity. Qed.
Example scan_prefix_name :
  scan None 0 (lit "getEmailContext (42) xlistFiles(.) listEmails()")
  = [lit "getEmailContext (42)"].
Proof. vm_compute. reflexivity. Qed.
Example match_call_example :
  match_call (lit "writeFile(b.txt, hi)") = Some (lit "writeFile", lit "b.txt, hi").
Proof. vm_compute. reflexivity. Qed.

(** ** Strings *)

Lemma jseq_eq a b : jseq a b = true <-> a = b.
Proof.
  revert b; induction a as [|x a IH]; intros [|y b]; simpl; try easy.
  rewrite andb_true_iff, Ascii.eqb_eq, IH. split.
  - intros [-> ->]; reflexivity.
  - intros [= -> ->]; auto.
Qed.

Lemma starts_with_spec p s : starts_with p s = true <-> exists r, s = p ++ r.
Proof.
  revert s; induction p as [|a p IH]; intros s; simpl.
  - split; eauto.
  - destruct s as [|b s].
    + split; [discriminate | intros [r [=]]].
    + rewrite andb_true_iff, Ascii.eqb_eq, IH. split.
      * intros [-> [r ->]]; eauto.
      * intros [r [= -> ->]]; eauto.
Qed.

Lemma includes_spec s sub : includes s sub = true <-> contains s sub.
Proof.
  unfold contains. induction s as [|c s IH]; simpl.
  - rewrite orb_false_r, starts_with_spec. split.
    + intros [r Hr]. exists [], r. exact Hr.
    + intros (b & a & H). symmetry in H.
      apply app_eq_nil in H as [-> H]. apply app_eq_nil in H as [-> ->].
      exists []; reflexivity.
  - rewrite orb_true_iff, starts_with_spec, IH. split.
    + intros [[r Hr] | (b & a & ->)].
      * exists [], r. exact Hr.
      * exists (c :: b), a. reflexivity.
    + intros ([|x b] & a & H).
      * left. exists a. exact H.
      * right. injection H as -> ->. eauto.
Qed.

Lemma includes_false s sub : includes s sub = false <-> ~ contains s sub.
Proof.
  rewrite <- includes_spec. destruct (includes s sub); split; congruence.
Qed.

Lemma dangerous_lower d :
  d ∈ CommandTools.dangerousCommands -> toLowerCase d = d.
Proof.
  unfold CommandTools.dangerousCommands. simpl. rewrite !elem_of_cons.
  intros H. repeat (destruct H as [-> | H]; [reflexivity |]).
  apply elem_of_nil in H as [].
Qed.

Lemma isSafeCommand_false command :
  CommandTools.isSafeCommand command = false <->
  exists d, d ∈ CommandTools.dangerousCommands /\ contains (toLowerCase command) d.
Proof.
  unfold CommandTools.isSafeCommand. rewrite negb_false_iff, existsb_exists.
  split.
  - intros (d & Hin & Hinc). exists d. apply list_elem_of_In in Hin.
    rewrite (dangerous_lower d) in Hinc by assumption.
    split; [assumption | apply includes_spec, Hinc].
  - intros (d & Hin & Hc). exists d. split; [apply list_elem_of_In, Hin |].
    rewrite (dangerous_lower d) by assumption. apply includes_spec, Hc.
Qed.

Lemma isSafeCommand_true command :
  CommandTools.isSafeCommand command = true <->
  forall d, d ∈ CommandTools.dangerousCommands -> ~ contains (toLowerCase command) d.
Proof.
  destruct (CommandTools.isSafeCommand command) eqn:E.
  - split; [|reflexivity]. intros _ d Hd Hc.
    assert (H : CommandTools.isSafeCommand command = false)
      by (apply isSafeCommand_false; eauto).
    congruence.
  - apply isSafeCommand_false in E as (d & Hd & Hc).
    split; [discriminate |]. intros H. destruct (H d Hd Hc).
Qed.

(** ** Programs and their runs *)

Lemma always_mono {R} (p : Prog R) (Q Q' : R -> Prop) :
  (forall r, Q r -> Q' r) -> always p Q -> always p Q'.
Proof. intros HQ. induction p as [r | A e k IH]; simpl; eauto. Qed.

Lemma always_pbind {A B} (p : Prog A) (f : A -> Prog B) (Q : B -> Prop) :
  always p (fun a => always (f a) Q) -> always (pbind p f) Q.
Proof. induction p as [r | X e k IH]; simpl; eauto. Qed.

Lemma always_runs {R} (p : Prog R) (Q : R -> Prop) :
  always p Q <-> forall tr r, runs p tr r -> Q r.
Proof.
  induction p as [r | A e k IH]; simpl.
  - split; [intros H tr r' [_ ->]; exact H | eauto].
  - split.
    + intros H tr r (o & tr' & _ & Hr). eapply IH; eauto.
    + intros H o. apply IH. intros tr r Hr. apply (H (answer e o :: tr)). eauto.
Qed.

Lemma runs_interp {W R} (h : Handler W) (p : Prog R) (w : W) :
  exists tr, runs p tr (fst (interp h p w)).
Proof.
  revert w; induction p as [r | A e k IH]; intros w; simpl.
  - exists []. auto.
  - destruct (h A e w) as [o w']. destruct (IH o w') as [tr Htr].
    exists (answer e o :: tr). eauto.
Qed.

(** What holds of every run holds under every environment. *)
Lemma always_interp {W R} (h : Handler W) (p : Prog R) (w : W) (Q : R -> Prop) :
  always p Q -> Q (fst (interp h p w)).
Proof.
  intros H. destruct (runs_interp h p w) as [tr Htr].
  eapply always_runs; eauto.
Qed.

Lemma runs_pbind {A B} (p : Prog A) (f : A -> Prog B) tr b :
  runs (pbind p f) tr b <->
  exists tr1 tr2 a, tr = tr1 ++ tr2 /\ runs p tr1 a /\ runs (f a) tr2 b.
Proof.
  revert tr; induction p as [r | X e k IH]; intros tr; simpl.
  - split.
    + intros H. exists [], tr, r. auto.
    + intros (tr1 & tr2 & a & -> & [-> ->] & H). exact H.
  - split.
    + intros (o & tr' & -> & H). apply IH in H as (tr1 & tr2 & a & -> & H1 & H2).
      exists (answer e o :: tr1), tr2, a. split; [reflexivity |]. split; eauto.
    + intros (tr1 & tr2 & a & -> & (o & tr' & -> & H1) & H2).
      exists o, (tr' ++ tr2). split; [reflexivity |]. apply IH. eauto 6.
Qed.

(** ** Rules for methods *)

Section Rules.
Context {S : Type}.

Lemma wp_mono {A} (m : M S A) s (Q Q' : Res A -> S -> Prop) :
  wp m s Q -> (forall r s', Q r s' -> Q' r s') -> wp m s Q'.
Proof.
  unfold wp. intros H HQ. eapply always_mono; [| exact H].
  intros [r s']. apply HQ.
Qed.

Lemma wp_ret {A} (a : A) s (Q : Res A -> S -> Prop) :
  Q (Ok a) s -> wp (ret a) s Q.
Proof. exact id. Qed.

Lemma wp_throw {A} e s (Q : Res A -> S -> Prop) :
  Q (Raise e) s -> wp (throw e) s Q.
Proof. exact id. Qed.

Lemma wp_gets {A} (f : S -> A) s (Q : Res A -> S -> Prop) :
  Q (Ok (f s)) s -> wp (gets f) s Q.
Proof. exact id. Qed.

Lemma wp_modify (f : S -> S) s (Q : Res unit -> S -> Prop) :
  Q (Ok tt) (f s) -> wp (modify f) s Q.
Proof. exact id. Qed.

Lemma wp_call {A} (e : Event A) s (Q : Res A -> S -> Prop) :
  (forall a, Q (Ok a) s) -> (forall x, Q (Raise x) s) -> wp (call e) s Q.
Proof. intros H1 H2 [a | x]; simpl; auto. Qed.

Lemma wp_bind {A B} (m : M S A) (f : A -> M S B) s (Q : Res B -> S -> Prop) :
  wp m s (fun r s' =>
            match r with
            | Ok a => wp (f a) s' Q
            | Raise e => Q (Raise e) s'
            end) ->
  wp (bind m f) s Q.
Proof.
  unfold wp, bind. intros H. apply always_pbind.
  eapply always_mono; [| exact H]. intros [[a | e] s']; auto.
Qed.

Lemma wp_try_catch {A} (body : M S A) (handler : Exn -> M S A) s
    (Q : Res A -> S -> Prop) :
  wp body s (fun r s' =>
               match r with
               | Ok a => Q (Ok a) s'
               | Raise e => wp (handler e) s' Q
               end) ->
  wp (try_catch body handler) s Q.
Proof.
  unfold wp, try_catch. intros H. apply always_pbind.
  eapply always_mono; [| exact H]. intros [[a | e] s']; auto.
Qed.

Lemma wp_zoom {T A} (get : S -> T) (set : T -> S -> S) (m : M T A) s
    (Q : Res A -> S -> Prop) :
  wp m (get s) (fun r t' => Q r (set t' s)) -> wp (zoom get set m) s Q.
Proof.
  unfold wp, zoom. intros H. apply always_pbind.
  eapply always_mono; [| exact H]. intros [r t']; auto.
Qed.

(** A loop: [I] holds of the accumulator and the state before each
    element and after the last. *)
Lemma wp_for_of {X Acc} (xs : list X) (acc : Acc) (body : Acc -> X -> M S Acc)
    (I : Acc -> S -> Prop) s (Q : Res Acc -> S -> Prop) :
  I acc s ->
  (forall acc s x, I acc s ->
     wp (body acc x) s (fun r s' =>
                          match r with
                          | Ok acc' => I acc' s'
                          | Raise e => Q (Raise e) s'
                          end)) ->
  (forall acc s, I acc s -> Q (Ok acc) s) ->
  wp (for_of xs acc body) s Q.
Proof.
  intros HI Hbody HQ. revert acc s HI.
  induction xs as [|x xs IH]; intros acc s HI; simpl.
  - apply wp_ret; auto.
  - apply wp_bind. eapply wp_mono; [apply Hbody, HI |].
    intros [acc' | e] s'; auto.
Qed.

End Rules.

Ltac wp_step :=
  lazymatch goal with
  | |- wp (ret _) _ _ => apply wp_ret
  | |- wp (throw _) _ _ => apply wp_throw
  | |- wp (gets _) _ _ => apply wp_gets
  | |- wp (modify _) _ _ => apply wp_modify
  | |- wp (call _) _ _ => apply wp_call; intros ?
  | |- wp (bind _ _) _ _ => apply wp_bind
  | |- wp (try_catch _ _) _ _ => apply wp_try_catch
  | |- wp (zoom _ _ _) _ _ => apply wp_zoom
  | |- wp (receiver _ ?v) _ _ => destruct v; unfold receiver
  | |- wp (if ?b then _ else _) _ _ => destruct b eqn:?
  | |- wp (match ?x with _ => _ end) _ _ => destruct x eqn:?
  end; cbv beta iota.

Ltac wp_steps := repeat wp_step.

(** ** Results of the file and process tools *)

Ltac result_ok_tac :=
  lazymatch goal with
  | |- returning _ _ => simpl
  | _ => idtac
  end;
  lazymatch goal with
  | |- True => exact I
  | |- result_ok _ =>
      split; simpl; [first [reflexivity | intros [? [=]]] | discriminate]
  end.

Lemma readFile_result_ok filePath ft :
  wp (FileTools.readFile filePath) ft (fun r _ => returning result_ok r).
Proof. unfold FileTools.readFile. wp_steps; result_ok_tac. Qed.

Lemma writeFile_result_ok filePath content ft :
  wp (FileTools.writeFile filePath content) ft (fun r _ => returning result_ok r).
Proof. unfold FileTools.writeFile. wp_steps; result_ok_tac. Qed.

Lemma editFile_result_ok filePath content ft :
  wp (FileTools.editFile filePath content) ft (fun r _ => returning result_ok r).
Proof. unfold FileTools.editFile. wp_steps; result_ok_tac. Qed.

Ltac wp_use lemma :=
  eapply wp_mono; [apply lemma | cbv beta; intros [? | ?] ? ?].

Ltac result_ok_auto :=
  try assumption; try result_ok_tac.

Lemma listFiles_result_ok directory ft :
  wp (FileTools.listFiles directory) ft (fun r _ => returning result_ok r).
Proof.
  unfold FileTools.listFiles. wp_steps; try result_ok_tac.
  apply wp_for_of with (I := fun _ _ => True);
    [exact I | intros acc s x _ | intros acc s _];
    wp_steps; result_ok_tac.
Qed.

Lemma executeCommand_result_ok command ct :
  wp (CommandTools.executeCommand command) ct (fun r _ => returning result_ok r).
Proof.
  unfold CommandTools.executeCommand. wp_steps; try result_ok_tac.
  all: split; simpl; [intros [? H]; discriminate H | discriminate].
Qed.

(** ** Results of the mailbox tools *)

Lemma authenticate_result_ok g :
  wp GmailTools.authenticate g (fun r _ => returning result_ok r).
Proof. unfold GmailTools.authenticate, GmailTools.failed. wp_steps; result_ok_tac. Qed.

Lemma ensureAuthenticated_result_ok g :
  wp GmailTools.ensureAuthenticated g (fun r _ => returning result_ok r).
Proof.
  unfold GmailTools.ensureAuthenticated. wp_steps; try result_ok_tac.
  apply authenticate_result_ok.
Qed.

Ltac gmail_result_ok :=
  unfold GmailTools.failed;
  repeat first
    [ progress wp_steps
    | lazymatch goal with
      | |- wp GmailTools.ensureAuthenticated _ _ =>
          wp_use ensureAuthenticated_result_ok
      end ];
  simpl in *; result_ok_auto.

Lemma getEmail_result_ok messageId g :
  wp (GmailTools.getEmail messageId) g (fun r _ => returning result_ok r).
Proof. unfold GmailTools.getEmail. gmail_result_ok. Qed.

Lemma listEmails_result_ok options g :
  wp (GmailTools.listEmails options) g (fun r _ => returning result_ok r).
Proof.
  unfold GmailTools.listEmails. gmail_result_ok.
  apply wp_for_of with (I := fun _ _ => True);
    [exact I | intros acc s x _ | intros acc s _].
  - wp_step. wp_use getEmail_result_ok; wp_steps; result_ok_tac.
  - wp_steps; result_ok_tac.
Qed.

Lemma sendEmail_result_ok draft g :
  wp (GmailTools.sendEmail draft) g (fun r _ => returning result_ok r).
Proof. unfold GmailTools.sendEmail. gmail_result_ok. Qed.

Lemma createDraft_result_ok draft g :
  wp (GmailTools.createDraft draft) g (fun r _ => returning result_ok r).
Proof. unfold GmailTools.createDraft. gmail_result_ok. Qed.

Lemma searchEmails_result_ok query maxResults g :
  wp (GmailTools.searchEmails query maxResults) g (fun r _ => returning result_ok r).
Proof. apply listEmails_result_ok. Qed.

Lemma getUnreadEmails_result_ok maxResults g :
  wp (GmailTools.getUnreadEmails maxResults) g (fun r _ => returning result_ok r).
Proof. apply listEmails_result_ok. Qed.

Lemma markAsRead_result_ok messageId g :
  wp (GmailTools.markAsRead messageId) g (fun r _ => returning result_ok r).
Proof. unfold GmailTools.markAsRead. gmail_result_ok. Qed.

Lemma deleteEmail_result_ok messageId g :
  wp (GmailTools.deleteEmail messageId) g (fun r _ => returning result_ok r).
Proof. unfold GmailTools.deleteEmail. gmail_result_ok. Qed.

Lemma getEmailContext_result_ok messageId g :
  wp (GmailTools.getEmailContext messageId) g (fun r _ => returning result_ok r).
Proof.
  unfold GmailTools.getEmailContext, GmailTools.failed.
  wp_step. wp_step. wp_use getEmail_result_ok; wp_steps; simpl in *; result_ok_auto.
Qed.

Lemma analyzeEmailThread_result_ok threadId g :
  wp (GmailTools.analyzeEmailThread threadId) g (fun r _ => returning result_ok r).
Proof. unfold GmailTools.analyzeEmailThread. gmail_result_ok. Qed.

(** ** Results of the dispatcher *)

Lemma wp_switch {S A} (x : JsString) (cases : list (JsString * M S A))
    (otherwise : M S A) s (Q : Res A -> S -> Prop) :
  Forall (fun c => wp (snd c) s Q) cases ->
  wp otherwise s Q ->
  wp (switch x cases otherwise) s Q.
Proof.
  intros Hc Ho. induction Hc as [| [label body] cases Hb _ IH]; simpl.
  - exact Ho.
  - destruct (jseq x label); [exact Hb | exact IH].
Qed.

Ltac split_Forall :=
  repeat lazymatch goal with
         | |- Forall _ (_ :: _) => constructor
         | |- Forall _ [] => constructor
         end.

Lemma ifGmail_result_ok (m : M GmailTools.t ToolResult) st :
  (forall g, wp m g (fun r _ => returning result_ok r)) ->
  wp (CodingAgent.ifGmail m) st (fun r _ => returning result_ok r).
Proof.
  intros Hm. unfold CodingAgent.ifGmail, CodingAgent.on_gmailTools.
  wp_steps; [apply Hm | result_ok_tac].
Qed.

Ltac on_tool lemma :=
  unfold CodingAgent.on_fileTools, CodingAgent.on_commandTools;
  apply wp_zoom; apply lemma.

Ltac on_gmail lemma :=
  apply ifGmail_result_ok; intros ?; apply lemma.

Lemma dispatch_result_ok funcName args st :
  wp (CodingAgent.dispatch funcName args) st (fun r _ => returning result_ok r).
Proof.
  unfold CodingAgent.dispatch. apply wp_switch.
  - split_Forall; cbn [snd].
    + on_tool readFile_result_ok.
    + on_tool writeFile_result_ok.
    + on_tool editFile_result_ok.
    + unfold CommandTools.isSafeCommand_arg, CodingAgent.commandBlocked.
      wp_steps; try result_ok_tac. on_tool executeCommand_result_ok.
    + on_tool listFiles_result_ok.
    + on_gmail listEmails_result_ok.
    + on_gmail getEmail_result_ok.
    + on_gmail searchEmails_result_ok.
    + on_gmail getUnreadEmails_result_ok.
    + on_gmail markAsRead_result_ok.
    + on_gmail deleteEmail_result_ok.
    + on_gmail getEmailContext_result_ok.
    + on_gmail analyzeEmailThread_result_ok.
  - wp_steps. result_ok_tac.
Qed.

(** The loop body never lets an exception out, and what it pushes
    satisfies the invariant. *)
Lemma executeToolCall_result_ok toolCall st :
  wp (CodingAgent.executeToolCall toolCall) st
     (fun r _ => exists pushed, r = Ok pushed /\
                   match pushed with
                   | Some res => result_ok res
                   | None => match_call toolCall = None
                   end).
Proof.
  unfold CodingAgent.executeToolCall. apply wp_try_catch.
  destruct (match_call toolCall) as [[funcName argsStr] |].
  - apply wp_bind. wp_use dispatch_result_ok.
    + wp_steps.
      lazymatch goal with
      | H : returning result_ok (Ok ?a) |- _ =>
          exists (Some a); split; [reflexivity | exact H]
      end.
    + wp_steps. eexists; split; [reflexivity |]. cbv beta iota. result_ok_tac.
  - wp_steps. exists None. split; reflexivity.
Qed.

(** ** The regular expressions *)

Lemma take_drop_while p s : take_while p s ++ drop_while p s = s.
Proof. induction s as [|c s IH]; simpl; [|destruct (p c); simpl; rewrite ?IH]; reflexivity. Qed.

Lemma take_while_Forall p s : Forall (fun c => p c = true) (take_while p s).
Proof.
  induction s as [|c s IH]; simpl; [constructor |].
  destruct (p c) eqn:E; constructor; assumption.
Qed.

Lemma drop_while_stops p s : stops p (drop_while p s).
Proof.
  induction s as [|c s IH]; simpl; [exact I |].
  destruct (p c) eqn:E; [exact IH | exact E].
Qed.

Lemma take_while_app p a b :
  Forall (fun c => p c = true) a -> stops p b ->
  take_while p (a ++ b) = a /\ drop_while p (a ++ b) = b.
Proof.
  intros Ha Hb. induction Ha as [|c a Hc _ IH]; simpl.
  - destruct b as [|c b]; simpl in *; [auto | rewrite Hb; auto].
  - rewrite Hc. destruct IH as [-> ->]. auto.
Qed.

(** When the rest of the pattern cannot start on a character of the class,
    giving characters back never helps: the quantifier keeps the longest
    run. *)
Lemma star_greedy_det {R} p (k : JsString -> JsString -> option R) acc s :
  (forall a c s', p c = true -> k a (c :: s') = None) ->
  star_greedy p acc s k = k (acc ++ take_while p s) (drop_while p s).
Proof.
  intros Hk. revert acc. induction s as [|c s IH]; intros acc; simpl.
  - rewrite app_nil_r. reflexivity.
  - destruct (p c) eqn:E.
    + rewrite IH, <- app_assoc. simpl.
      destruct (k (acc ++ c :: take_while p s) (drop_while p s)) eqn:Ek;
        [reflexivity |].
      apply Hk, E.
    + rewrite app_nil_r. reflexivity.
Qed.

Lemma plus_greedy_det {R} p (k : JsString -> JsString -> option R) s :
  (forall a c s', p c = true -> k a (c :: s') = None) ->
  plus_greedy p s k =
  match take_while p s with
  | [] => None
  | run => k run (drop_while p s)
  end.
Proof.
  intros Hk. destruct s as [|c s]; simpl; [reflexivity |].
  destruct (p c) eqn:E; [|reflexivity].
  rewrite star_greedy_det by assumption. reflexivity.
Qed.

Lemma strip_prefix_spec p s r : strip_prefix p s = Some r <-> s = p ++ r.
Proof.
  revert s; induction p as [|a p IH]; intros s; simpl.
  - split; [intros [= ->] | intros ->]; reflexivity.
  - destruct s as [|b s]; [split; [discriminate | intros [=]] |].
    destruct (Ascii.eqb_spec a b) as [-> | Hne].
    + rewrite IH. split; [intros -> | intros [= ->]]; reflexivity.
    + split; [discriminate | intros [= -> _]; congruence].
Qed.

Lemma strip_prefix_app p r : strip_prefix p (p ++ r) = Some r.
Proof. apply strip_prefix_spec. reflexivity. Qed.

Lemma alternation_Some {R} branches s (k : JsString -> JsString -> option R) r :
  alternation branches s k = Some r ->
  exists b s', b ∈ branches /\ s = b ++ s' /\ k b s' = Some r.
Proof.
  induction branches as [|b bs IH]; simpl; [discriminate |].
  destruct (strip_prefix b s) as [s' |] eqn:Hp.
  - destruct (k b s') as [r' |] eqn:Hk.
    + intros [= ->]. exists b, s'. apply strip_prefix_spec in Hp.
      split; [left | auto].
    + intros H. destruct (IH H) as (b' & s'' & Hin & Hs & Hk').
      exists b', s''. split; [right; assumption | auto].
  - intros H. destruct (IH H) as (b' & s'' & Hin & Hs & Hk').
    exists b', s''. split; [right; assumption | auto].
Qed.

Ltac ascii_cases c :=
  destruct c as [[] [] [] [] [] [] [] []]; vm_compute; try reflexivity;
  try discriminate.

Lemma word_not_space c : is_word c = true -> is_space c = false.
Proof. ascii_cases c. Qed.

Lemma space_not_lparen c : is_space c = true -> c <> "("%char.
Proof. ascii_cases c. Qed.

Lemma word_not_lparen c : is_word c = true -> c <> "("%char.
Proof. ascii_cases c. Qed.

Lemma not_rparen_true c : not_rparen c = true <-> c <> ")"%char.
Proof.
  unfold not_rparen. rewrite negb_true_iff.
  destruct (Ascii.eqb_spec c ")"); split; congruence.
Qed.

(** The parenthesized part of both patterns, as a function of the input. *)
Lemma parenthesized_eq {R} s (k : JsString -> option R) :
  parenthesized s k =
  match s with
  | "("%char :: s1 =>
      match take_while not_rparen s1, drop_while not_rparen s1 with
      | (_ :: _) as body, ")"%char :: _ => k body
      | _, _ => None
      end
  | _ => None
  end.
Proof.
  unfold parenthesized. destruct s as [|c s]; [reflexivity |].
  destruct (Ascii.eqb_spec c "(") as [-> | Hne].
  - rewrite plus_greedy_det.
    + destruct (take_while not_rparen s); [reflexivity |].
      destruct (drop_while not_rparen s) as [|d rest]; [reflexivity |].
      destruct (Ascii.eqb_spec d ")") as [-> | Hd]; [reflexivity |].
      ascii_cases d; congruence.
    + intros a d s' Hd. apply not_rparen_true in Hd.
      ascii_cases d; congruence.
  - ascii_cases c; congruence.
Qed.

Lemma parenthesized_Some {R} s (k : JsString -> option R) r :
  parenthesized s k = Some r <->
  exists body rest,
    s = "("%char :: body ++ ")"%char :: rest /\ body <> [] /\
    Forall (fun c => not_rparen c = true) body /\ k body = Some r.
Proof.
  rewrite parenthesized_eq. split.
  - destruct s as [|c s]; [discriminate |].
    destruct (Ascii.eqb_spec c "(") as [-> | Hne];
      [| ascii_cases c; congruence].
    pose proof (take_drop_while not_rparen s) as Hs.
    pose proof (take_while_Forall not_rparen s) as Hf.
    destruct (take_while not_rparen s) as [|b body]; [discriminate |].
    destruct (drop_while not_rparen s) as [|d rest]; [discriminate |].
    destruct (Ascii.eqb_spec d ")") as [-> | Hd];
      [| ascii_cases d; congruence].
    intros Hk. exists (b :: body), rest. rewrite Hs. auto.
  - intros (body & rest & -> & Hne & Hf & Hk).
    destruct (take_while_app not_rparen body (")"%char :: rest) Hf) as [-> ->];
      [reflexivity |].
    destruct body; [congruence | exact Hk].
Qed.

Lemma parenthesized_body {R} body rest (k : JsString -> option R) :
  body <> [] -> Forall (fun c => not_rparen c = true) body ->
  parenthesized ("("%char :: body ++ ")"%char :: rest) k = k body.
Proof.
  intros Hne Hf. rewrite parenthesized_eq.
  destruct (take_while_app not_rparen body (")"%char :: rest) Hf) as [-> ->];
    [reflexivity |].
  destruct body; [congruence | reflexivity].
Qed.

(** White space, then the parenthesized part. *)
Lemma spaces_parenthesized {R} s (k : JsString -> JsString -> option R) :
  star_greedy is_space [] s (fun ws s2 => parenthesized s2 (k ws)) =
  parenthesized (drop_while is_space s) (k (take_while is_space s)).
Proof.
  rewrite star_greedy_det; [reflexivity |].
  intros a c s' Hc. apply space_not_lparen in Hc.
  unfold parenthesized. ascii_cases c; congruence.
Qed.

Lemma spaces_parenthesized_Some {R} s (k : JsString -> JsString -> option R) r :
  star_greedy is_space [] s (fun ws s2 => parenthesized s2 (k ws)) = Some r <->
  exists ws body rest,
    s = ws ++ "("%char :: body ++ ")"%char :: rest /\
    Forall (fun c => is_space c = true) ws /\ body <> [] /\
    Forall (fun c => not_rparen c = true) body /\ k ws body = Some r.
Proof.
  rewrite spaces_parenthesized, parenthesized_Some. split.
  - intros (body & rest & Hs & Hne & Hf & Hk).
    exists (take_while is_space s), body, rest.
    rewrite <- Hs, take_drop_while. auto using take_while_Forall.
  - intros (ws & body & rest & -> & Hws & Hne & Hf & Hk).
    destruct (take_while_app is_space ws ("("%char :: body ++ ")"%char :: rest) Hws)
      as [-> ->]; [reflexivity |].
    eauto 6.
Qed.

Lemma toolNames_words :
  Forall (fun n => n <> [] /\ Forall (fun c => is_word c = true) n) toolNames.
Proof.
  unfold toolNames. simpl. split_Forall;
    (split; [discriminate | split_Forall; reflexivity]).
Qed.

Lemma toolName_words n :
  n ∈ toolNames -> n <> [] /\ Forall (fun c => is_word c = true) n.
Proof.
  intros H. pose proof toolNames_words as Hw.
  rewrite Forall_forall in Hw. apply Hw, H.
Qed.

(** A match of the pattern of tool calls is a call text read off the input
    at the position, at a word boundary. *)
Lemma toolCallPattern_Some prev s m :
  toolCallPattern prev s = Some m ->
  exists name ws body rest,
    call_parts name ws body /\
    s = name ++ ws ++ "("%char :: body ++ ")"%char :: rest /\
    m = call_text name ws body /\
    word_boundary prev s = true.
Proof.
  unfold toolCallPattern. destruct (word_boundary prev s); [|discriminate].
  intros H. apply alternation_Some in H as (name & s1 & Hin & -> & H).
  apply spaces_parenthesized_Some in H
    as (ws & body & rest & -> & Hws & Hne & Hf & [= <-]).
  exists name, ws, body, rest. unfold call_parts, call_text. auto 8.
Qed.

Example or_string_keeps : or_string (Some (lit "ab")) (lit ".") = lit "ab".
Proof. reflexivity. Qed.
Example or_string_empty : or_string (Some []) (lit ".") = lit ".".
Proof. reflexivity. Qed.

Lemma call_parts_name name ws body :
  call_parts name ws body ->
  exists c name', name = c :: name' /\ is_word c = true /\
                  Forall (fun c => is_word c = true) name'.
Proof.
  intros (Hin & _). apply toolName_words in Hin as [Hne Hw].
  destruct name as [|c name']; [congruence |].
  inversion Hw; subst. eauto.
Qed.

Lemma stops_word_after_name ws s :
  Forall (fun c => is_space c = true) ws ->
  stops is_word (ws ++ "("%char :: s).
Proof.
  intros Hws. destruct Hws as [|c ws Hc _]; simpl; [reflexivity |].
  destruct (is_word c) eqn:E; [|reflexivity].
  apply word_not_space in E. congruence.
Qed.

(** The second pattern reads the name and the body back off a match of the
    first. *)
Lemma callPattern_call_text name ws body :
  call_parts name ws body ->
  callPattern (call_text name ws body) = Some (name, body).
Proof.
  intros Hp. destruct (call_parts_name _ _ _ Hp) as (c & name' & -> & Hc & Hw).
  destruct Hp as (_ & Hws & Hne & Hf).
  unfold callPattern, call_text. rewrite plus_greedy_det.
  - assert (Hall : Forall (fun c => is_word c = true) (c :: name'))
      by (constructor; assumption).
    destruct (take_while_app is_word (c :: name')
                (ws ++ "("%char :: body ++ [")"%char]) Hall) as [-> ->];
      [apply stops_word_after_name, Hws |].
    rewrite spaces_parenthesized.
    destruct (take_while_app is_space ws ("("%char :: body ++ [")"%char]) Hws)
      as [_ ->]; [reflexivity |].
    apply (parenthesized_body body [] (fun argsStr => Some (c :: name', argsStr)));
      assumption.
  - intros a d s' Hd. rewrite spaces_parenthesized.
    simpl. rewrite (word_not_space d Hd). rewrite parenthesized_eq.
    apply word_not_lparen in Hd. ascii_cases d; congruence.
Qed.

Lemma match_call_call_text name ws body :
  call_parts name ws body ->
  match_call (call_text name ws body) = Some (name, body).
Proof.
  intros Hp. pose proof (callPattern_call_text _ _ _ Hp) as H.
  assert (Hm : forall s r, callPattern s = Some r -> match_call s = Some r).
  { intros s r Hs. destruct s as [|a s]; [discriminate Hs |].
    change (match_call (a :: s))
      with (match callPattern (a :: s) with
            | Some r => Some r
            | None => match_call s
            end).
    rewrite Hs. reflexivity. }
  apply Hm, H.
Qed.

Lemma parseCall_call_text name ws body :
  call_parts name ws body ->
  parseCall (call_text name ws body)
  = Some {| tc_name := name; tc_arguments := parse_args body |}.
Proof. intros Hp. unfold parseCall. rewrite match_call_call_text; auto. Qed.

(** ** The scan *)

Lemma scan_Forall (P : JsString -> Prop) :
  (forall prev s m, toolCallPattern prev s = Some m -> P m) ->
  forall s prev skip, Forall P (scan prev skip s).
Proof.
  intros HP. induction s as [|c s IH]; intros prev skip.
  - destruct skip; simpl; [|constructor].
    destruct (toolCallPattern prev []) eqn:E; repeat constructor. eauto.
  - destruct skip; simpl; [|apply IH].
    destruct (toolCallPattern prev (c :: s)) eqn:E; [|apply IH].
    constructor; [eauto | apply IH].
Qed.

Lemma scan_call_texts s prev skip :
  Forall (fun m => exists name ws body,
            call_parts name ws body /\ m = call_text name ws body)
    (scan prev skip s).
Proof.
  apply scan_Forall. intros prev' s' m H.
  apply toolCallPattern_Some in H as (name & ws & body & rest & Hp & _ & -> & _).
  eauto.
Qed.

Lemma in_order_skip c s ms : in_order s ms -> in_order (c :: s) ms.
Proof.
  intros H. destruct H as [s | gap m rest ms H]; [constructor |].
  apply (in_order_cons (c :: gap) m rest ms H).
Qed.

Lemma scan_in_order s : forall prev skip, in_order (drop skip s) (scan prev skip s).
Proof.
  induction s as [|c s IH]; intros prev skip.
  - destruct skip; simpl; [|constructor].
    unfold toolCallPattern. destruct (word_boundary prev []); simpl; constructor.
  - destruct skip; simpl; [|apply IH].
    destruct (toolCallPattern prev (c :: s)) as [m |] eqn:E.
    + apply toolCallPattern_Some in E
        as (name & ws & body & rest & Hp & Hs & -> & _).
      destruct (call_parts_name _ _ _ Hp) as (c' & name' & -> & _ & _).
      simpl in Hs. injection Hs as <- ->.
      assert (Heq : name' ++ ws ++ "("%char :: body ++ ")"%char :: rest
                    = (name' ++ ws ++ "("%char :: body ++ [")"%char]) ++ rest).
      { rewrite <- !app_assoc. simpl. rewrite <- app_assoc. reflexivity. }
      rewrite Heq. unfold call_text.
      set (M' := name' ++ ws ++ "("%char :: body ++ [")"%char]).
      change ((c :: name') ++ ws ++ "("%char :: body ++ [")"%char]) with (c :: M').
      replace (length (c :: M') - 1) with (length M') by (simpl; lia).
      apply (in_order_cons [] (c :: M') rest).
      specialize (IH (Some c) (length M')). rewrite Heq in IH.
      fold M' in IH. rewrite drop_app_length in IH. exact IH.
    + apply in_order_skip. specialize (IH (Some c) 0). exact IH.
Qed.

(** ** The safety gate *)

Lemma dispatch_executeCommand command rest st :
  CodingAgent.dispatch (lit "executeCommand") (command :: rest) st
  = (if CommandTools.isSafeCommand command
     then CodingAgent.on_commandTools (CommandTools.executeCommand (Some command))
     else ret (CodingAgent.commandBlocked (Some command))) st.
Proof. reflexivity. Qed.

(** C3: a command whose lower-cased form contains one of the nine deny-list
    substrings is rejected by [isSafeCommand]; dispatching [executeCommand]
    with it, through the switch of [parseAndExecuteTools] or through the
    direct method, ends at once in the failed result with error
    "Command blocked for safety", with no event issued and so without the
    process tool being run, and leaves the state as it was; a command
    containing none of the substrings is accepted. *)
Theorem C3_deny_list_blocks_command :
  CommandTools.dangerousCommands
  = map lit ["rm -rf"; "format"; "dd"; "mkfs"; "fdisk"; "shutdown"; "reboot";
             "halt"; "poweroff"]%string /\
  (forall command : JsString,
     (exists d, d ∈ CommandTools.dangerousCommands /\
                contains (toLowerCase command) d) ->
     let blocked :=
       {| success := false;
          data := None;
          error := Some (lit "Command blocked for safety");
          message := lit "Command blocked: " ++ command |} in
     CommandTools.isSafeCommand command = false /\
     (forall rest st,
        CodingAgent.dispatch (lit "executeCommand") (command :: rest) st
        = Ret (Ok blocked, st)) /\
     (forall st, CodingAgent.executeCommand command st = Ret (Ok blocked, st))) /\
  (forall command : JsString,
     (forall d, d ∈ CommandTools.dangerousCommands ->
                ~ contains (toLowerCase command) d) ->
     CommandTools.isSafeCommand command = true).
Proof.
  split; [reflexivity |]. split.
  - intros command Hd blocked. apply isSafeCommand_false in Hd.
    split; [exact Hd |]. split.
    + intros rest st. rewrite dispatch_executeCommand, Hd. reflexivity.
    + intros st. unfold CodingAgent.executeCommand. rewrite Hd. reflexivity.
  - intros command H. apply isSafeCommand_true, H.
Qed.

Lemma C3_witness :
  CommandTools.isSafeCommand (lit "sudo RM -RF /tmp") = false /\
  CommandTools.isSafeCommand (lit "ls -la") = true.
Proof.
  split.
  - apply (proj1 (proj2 C3_deny_list_blocks_command) (lit "sudo RM -RF /tmp")).
    exists (lit "rm -rf"). split.
    + unfold CommandTools.dangerousCommands. simpl. constructor.
    + exists (lit "sudo "), (lit " /tmp"). reflexivity.
  - apply (proj2 (proj2 C3_deny_list_blocks_command) (lit "ls -la")).
    intros d Hd. apply includes_false.
    unfold CommandTools.dangerousCommands in Hd. simpl in Hd.
    rewrite !elem_of_cons in Hd.
    repeat (destruct Hd as [-> | Hd]; [reflexivity |]).
    apply elem_of_nil in Hd as [].
Defined.

Lemma default_match_toolCalls text :
  default [] (match_toolCalls text) = scan None 0 text.
Proof. unfold match_toolCalls. destruct (scan None 0 text); reflexivity. Qed.

Lemma omap_parseCall ms :
  Forall (fun m => exists name ws body,
            call_parts name ws body /\ m = call_text name ws body) ms ->
  Forall2 (fun m c => exists name ws body,
             call_parts name ws body /\ m = call_text name ws body /\
             c = {| tc_name := name; tc_arguments := parse_args body |})
    ms (omap parseCall ms).
Proof.
  induction 1 as [| m ms (name & ws & body & Hp & ->) _ IH]; simpl.
  - constructor.
  - rewrite parseCall_call_text by assumption. constructor; [| exact IH].
    exists name, ws, body. auto.
Qed.

Lemma first_lparen (x x' y y' : JsString) :
  no_lparen x -> no_lparen x' ->
  x ++ "("%char :: y = x' ++ "("%char :: y' -> x = x' /\ y = y'.
Proof.
  unfold no_lparen. revert x'. induction x as [|a x IH]; intros [|a' x'] Hx Hx' H;
    simpl in H.
  - injection H as ->. auto.
  - injection H as <- _. exfalso. apply Hx'. left.
  - injection H as -> _. exfalso. apply Hx. left.
  - injection H as -> H. apply IH in H as [-> ->]; auto.
    + intros Hin. apply Hx. right. exact Hin.
    + intros Hin. apply Hx'. right. exact Hin.
Qed.

Lemma no_lparen_class (p : ascii -> bool) s :
  p "("%char = false -> Forall (fun c => p c = true) s -> no_lparen s.
Proof.
  intros Hp Hs Hin. rewrite Forall_forall in Hs. apply Hs in Hin. congruence.
Qed.

Lemma no_lparen_app a b : no_lparen a -> no_lparen b -> no_lparen (a ++ b).
Proof. unfold no_lparen. intros Ha Hb H. apply elem_of_app in H as [H | H]; auto. Qed.

Lemma call_parts_no_lparen name ws body :
  call_parts name ws body -> no_lparen (name ++ ws).
Proof.
  intros (Hin & Hws & _). apply toolName_words in Hin as [_ Hw].
  apply no_lparen_app; eapply no_lparen_class; eauto; reflexivity.
Qed.

Lemma no_lparen_no_match prev s : no_lparen s -> toolCallPattern prev s = None.
Proof.
  intros Hs. destruct (toolCallPattern prev s) eqn:E; [exfalso | reflexivity].
  apply toolCallPattern_Some in E as (name & ws & body & rest & _ & -> & _).
  apply Hs. rewrite !elem_of_app. right. right. left.
Qed.

Lemma scan_no_lparen s : forall prev, no_lparen s -> scan prev 0 s = [].
Proof.
  induction s as [|c s IH]; intros prev Hs; simpl;
    rewrite no_lparen_no_match by assumption; [reflexivity |].
  apply IH. intros Hin. apply Hs. right. exact Hin.
Qed.

Lemma only_empty_parens_no_match prev s :
  only_empty_parens s = true -> toolCallPattern prev s = None.
Proof.
  intros Hs. destruct (toolCallPattern prev s) eqn:E; [exfalso | reflexivity].
  apply toolCallPattern_Some in E
    as (name & ws & body & rest & (_ & _ & Hne & Hf) & -> & _).
  rewrite app_assoc in Hs. revert Hs. generalize (name ++ ws); intros x.
  induction x as [|a x IH]; simpl.
  - destruct body as [|b body]; [congruence |]. simpl.
    inversion Hf as [| ? ? Hb _]; subst. apply not_rparen_true in Hb.
    destruct (Ascii.eqb_spec b ")"); [congruence | discriminate].
  - rewrite andb_true_iff. intros [_ H]. exact (IH H).
Qed.

Lemma scan_only_empty_parens s :
  forall prev, only_empty_parens s = true -> scan prev 0 s = [].
Proof.
  induction s as [|c s IH]; intros prev Hs; simpl;
    rewrite only_empty_parens_no_match by assumption; [reflexivity |].
  apply IH. simpl in Hs. apply andb_true_iff in Hs as [_ Hs]. exact Hs.
Qed.

Lemma char_before_last prev gap :
  char_before prev gap = match last gap with Some c => Some c | None => prev end.
Proof.
  unfold char_before. revert prev. induction gap as [|c gap IH]; intros prev; simpl.
  - reflexivity.
  - rewrite IH. destruct gap as [|d gap]; simpl; [reflexivity |].
    destruct (last (d :: gap)) eqn:E; [reflexivity |].
    apply last_None in E. discriminate.
Qed.

Lemma proper_suffix_check gap N name :
  gap <> [] -> gap ++ N = name ->
  (length N <? length name)%nat && starts_with (rev N) (rev name) = true.
Proof.
  intros Hne <-. apply andb_true_iff. split.
  - apply Nat.ltb_lt. rewrite length_app. destruct gap; simpl; [congruence | lia].
  - apply starts_with_spec. exists (rev gap). apply rev_app_distr.
Qed.

Lemma no_longer_name N :
  N = lit "readFile" \/ N = lit "writeFile" ->
  forallb (fun name =>
             negb ((length N <? length name)%nat
                   && starts_with (rev N) (rev name))) toolNames = true.
Proof. intros [-> | ->]; vm_compute; reflexivity. Qed.

Lemma space_not_e : is_space "e"%char = false.
Proof. reflexivity. Qed.

(** No match starts inside a text without parentheses that is followed by
    [readFile(] or [writeFile(]: the name of such a match would end in one
    of the two names and be longer than it. *)
Lemma no_match_in_gap prev gap N rest :
  gap <> [] -> no_lparen gap ->
  N = lit "readFile" \/ N = lit "writeFile" ->
  toolCallPattern prev (gap ++ N ++ "("%char :: rest) = None.
Proof.
  intros Hne Hgap HN.
  destruct (toolCallPattern prev (gap ++ N ++ "("%char :: rest)) eqn:E;
    [exfalso | reflexivity].
  apply toolCallPattern_Some in E as (name & ws & body & rest' & Hp & Hs & _ & _).
  pose proof (call_parts_no_lparen _ _ _ Hp) as Hnw.
  destruct Hp as (Hin & Hws & _).
  assert (Hs' : (gap ++ N) ++ "("%char :: rest
                = (name ++ ws) ++ "("%char :: body ++ ")"%char :: rest')
    by (rewrite <- !app_assoc; exact Hs).
  clear Hs. rename Hs' into Hs.
  assert (HNl : no_lparen N).
  { eapply (no_lparen_class is_word); [reflexivity |].
    destruct HN as [-> | ->]; simpl; split_Forall; reflexivity. }
  apply first_lparen in Hs as [Hs _]; [| apply no_lparen_app; assumption | assumption].
  assert (HNe : exists N', N = N' ++ ["e"%char]).
  { destruct HN as [-> | ->];
      [exists (lit "readFil") | exists (lit "writeFil")]; reflexivity. }
  assert (ws = []) as ->.
  { destruct ws as [|w ws _] using rev_ind; [reflexivity | exfalso].
    apply Forall_app in Hws as [_ Hw]. inversion Hw as [| ? ? Hsp _]; subst.
    destruct HNe as [N' ->]. rewrite !app_assoc in Hs.
    apply app_inj_tail in Hs as [_ <-]. rewrite space_not_e in Hsp.
    discriminate Hsp. }
  rewrite app_nil_r in Hs.
  pose proof (proper_suffix_check gap N name Hne Hs) as Hc.
  pose proof (no_longer_name N HN) as Hall.
  rewrite forallb_forall in Hall. apply list_elem_of_In in Hin.
  apply Hall in Hin. rewrite Hc in Hin. discriminate Hin.
Qed.

Lemma scan_cons prev c s :
  scan prev 0 (c :: s)
  = match toolCallPattern prev (c :: s) with
    | Some m => m :: scan (Some c) (length m - 1) s
    | None => scan (Some c) 0 s
    end.
Proof. reflexivity. Qed.

Lemma scan_skip a : forall prev rest,
  scan prev (length a) (a ++ rest) = scan (char_before prev a) 0 rest.
Proof.
  induction a as [|c a IH]; intros prev rest; [reflexivity |].
  simpl length. simpl app. cbn [scan]. apply IH.
Qed.

(** A match found at a position: the scan resumes right behind it. *)
Lemma scan_match prev c m' rest :
  toolCallPattern prev (c :: m' ++ rest) = Some (c :: m') ->
  scan prev 0 (c :: m' ++ rest)
  = (c :: m') :: scan (char_before (Some c) m') 0 rest.
Proof.
  intros H. rewrite scan_cons, H.
  replace (length (c :: m') - 1) with (length m') by (simpl; lia).
  rewrite scan_skip. reflexivity.
Qed.

Lemma scan_gap gap N rest :
  no_lparen gap -> N = lit "readFile" \/ N = lit "writeFile" ->
  forall prev,
    scan prev 0 (gap ++ N ++ "("%char :: rest)
    = scan (char_before prev gap) 0 (N ++ "("%char :: rest).
Proof.
  intros Hgap HN. induction gap as [|c gap IH]; intros prev; [reflexivity |].
  assert (Hnone : toolCallPattern prev (c :: gap ++ N ++ "("%char :: rest) = None)
    by (apply (no_match_in_gap prev (c :: gap) N rest); auto; discriminate).
  change ((c :: gap) ++ N ++ "("%char :: rest)
    with (c :: gap ++ N ++ "("%char :: rest).
  rewrite scan_cons, Hnone.
  rewrite IH; [reflexivity |].
  intros Hin. apply Hgap. right. exact Hin.
Qed.

Lemma readFile_call_matches prev rest :
  from_option is_word false prev = false ->
  scan prev 0 (lit "readFile(a.txt)" ++ rest)
  = lit "readFile(a.txt)" :: scan (Some ")"%char) 0 rest.
Proof.
  intros Hprev.
  apply (scan_match prev "r"%char (lit "eadFile(a.txt)") rest).
  unfold toolCallPattern, word_boundary. cbn [head from_option app].
  rewrite Hprev. vm_compute. reflexivity.
Qed.

Lemma writeFile_call_matches prev rest :
  from_option is_word false prev = false ->
  scan prev 0 (lit "writeFile(b.txt, hi)" ++ rest)
  = lit "writeFile(b.txt, hi)" :: scan (Some ")"%char) 0 rest.
Proof.
  intros Hprev.
  apply (scan_match prev "w"%char (lit "riteFile(b.txt, hi)") rest).
  unfold toolCallPattern, word_boundary. cbn [head from_option app].
  rewrite Hprev. vm_compute. reflexivity.
Qed.

Lemma outside_word_before prev gap :
  from_option is_word false prev = false -> ends_outside_word gap ->
  from_option is_word false (char_before prev gap) = false.
Proof.
  unfold ends_outside_word. intros Hprev Hgap. rewrite char_before_last.
  destruct (last gap); [exact Hgap | exact Hprev].
Qed.

Lemma scan_two_calls pre mid post :
  no_lparen pre -> no_lparen mid -> no_lparen post ->
  ends_outside_word pre -> ends_outside_word mid ->
  scan None 0 (pre ++ lit "readFile(a.txt)" ++ mid
               ++ lit "writeFile(b.txt, hi)" ++ post)
  = [lit "readFile(a.txt)"; lit "writeFile(b.txt, hi)"].
Proof.
  intros Hpre Hmid Hpost Hwpre Hwmid.
  change (lit "readFile(a.txt)" ++ mid ++ lit "writeFile(b.txt, hi)" ++ post)
    with (lit "readFile" ++ "("%char
          :: lit "a.txt)" ++ mid ++ lit "writeFile(b.txt, hi)" ++ post).
  rewrite scan_gap by auto.
  change (lit "readFile" ++ "("%char
          :: lit "a.txt)" ++ mid ++ lit "writeFile(b.txt, hi)" ++ post)
    with (lit "readFile(a.txt)" ++ mid ++ lit "writeFile(b.txt, hi)" ++ post).
  rewrite readFile_call_matches by (apply outside_word_before; auto).
  change (lit "writeFile(b.txt, hi)" ++ post)
    with (lit "writeFile" ++ "("%char :: lit "b.txt, hi)" ++ post).
  rewrite scan_gap by auto.
  change (lit "writeFile" ++ "("%char :: lit "b.txt, hi)" ++ post)
    with (lit "writeFile(b.txt, hi)" ++ post).
  rewrite writeFile_call_matches by (apply outside_word_before; auto).
  rewrite scan_no_lparen by assumption. reflexivity.
Qed.

(** ** The call extractor *)

(** C9: every match of the extraction pattern is a tool name, white space
    and a parenthesized body that is not empty and holds no closing
    parenthesis; hence a text whose opening parentheses are all directly
    followed by a closing one (such as listEmails() or getUnreadEmails())
    yields no match, no call, and no dispatch: [parseAndExecuteTools]
    returns the empty list at once, with no event. *)
Theorem C9_empty_parentheses_not_extracted :
  (forall (text m : JsString),
     m ∈ scan None 0 text ->
     exists name ws body,
       name ∈ toolNames /\
       Forall (fun c => is_space c = true) ws /\
       body <> [] /\
       Forall (fun c => not_rparen c = true) body /\
       m = name ++ ws ++ "("%char :: body ++ [")"%char]) /\
  (forall text : JsString,
     only_empty_parens text = true ->
     match_toolCalls text = None /\
     extractCalls text = [] /\
     forall st, CodingAgent.parseAndExecuteTools text st = Ret (Ok [], st)).
Proof.
  split.
  - intros text m Hm. pose proof (scan_call_texts text None 0) as H.
    rewrite Forall_forall in H.
    destruct (H m Hm) as (name & ws & body & (Hn & Hws & Hne & Hf) & ->).
    exists name, ws, body. auto 6.
  - intros text Ht.
    assert (Hnone : match_toolCalls text = None).
    { unfold match_toolCalls. rewrite scan_only_empty_parens by assumption.
      reflexivity. }
    split; [exact Hnone |]. split.
    + unfold extractCalls. rewrite Hnone. reflexivity.
    + intros st. unfold CodingAgent.parseAndExecuteTools. rewrite Hnone.
      reflexivity.
Qed.

Lemma C9_witness :
  match_toolCalls (lit "Calling listEmails() and getUnreadEmails() now") = None.
Proof.
  apply (proj2 C9_empty_parentheses_not_extracted
           (lit "Calling listEmails() and getUnreadEmails() now")).
  reflexivity.
Defined.

(** C2 as amended: for every text the matches come out in the order they
    occur in the text, without overlap, and each yields the call made of
    its name and of its body split on commas, each piece trimmed and then
    freed of every quote character, inner ones included; and a text made of
    readFile(a.txt) and, later, writeFile(b.txt, hi), where the texts
    before, between and after them hold no opening parenthesis and the
    first two do not end in a word character, yields exactly those two
    calls in that order. *)
Theorem C2_extraction_order_and_arguments :
  (forall text : JsString,
     in_order text (scan None 0 text) /\
     Forall2 (fun m c => exists name ws body,
                call_parts name ws body /\
                m = call_text name ws body /\
                c = {| tc_name := name;
                       tc_arguments :=
                         map (fun arg => remove_quotes (trim arg))
                             (split "," body) |})
       (scan None 0 text) (extractCalls text)) /\
  (forall pre mid post : JsString,
     no_lparen pre -> no_lparen mid -> no_lparen post ->
     ends_outside_word pre -> ends_outside_word mid ->
     extractCalls (pre ++ lit "readFile(a.txt)" ++ mid
                   ++ lit "writeFile(b.txt, hi)" ++ post)
     = [ {| tc_name := lit "readFile"; tc_arguments := [lit "a.txt"] |};
         {| tc_name := lit "writeFile";
            tc_arguments := [lit "b.txt"; lit "hi"] |} ]).
Proof.
  split.
  - intros text. split.
    + apply (scan_in_order text None 0).
    + unfold extractCalls. rewrite default_match_toolCalls.
      apply omap_parseCall, scan_call_texts.
  - intros pre mid post Hpre Hmid Hpost Hwpre Hwmid.
    unfold extractCalls. rewrite default_match_toolCalls.
    rewrite scan_two_calls by assumption. vm_compute. reflexivity.
Qed.

Lemma no_lparen_check s : forallb (fun c => negb (Ascii.eqb c "(")) s = true -> no_lparen s.
Proof.
  intros H Hin. rewrite forallb_forall in H. apply list_elem_of_In in Hin.
  apply H in Hin. rewrite Ascii.eqb_refl in Hin. discriminate Hin.
Qed.

Lemma C2_witness :
  extractCalls (lit "First readFile(a.txt), then writeFile(b.txt, hi).")
  = [ {| tc_name := lit "readFile"; tc_arguments := [lit "a.txt"] |};
      {| tc_name := lit "writeFile"; tc_arguments := [lit "b.txt"; lit "hi"] |} ].
Proof.
  apply (proj2 C2_extraction_order_and_arguments
           (lit "First ") (lit ", then ") (lit "."));
    try (apply no_lparen_check; reflexivity); reflexivity.
Defined.

(** C2 as stated fails twice: an inner quote character is removed too,
    where stripping the surrounding ones would keep it; and a text that
    contains both calls can yield another list than the two of them (here
    the first call starts inside a word and is not matched). *)
Lemma C2_counterexample :
  (extractCalls (lit "readFile(it's.txt)")
   = [ {| tc_name := lit "readFile"; tc_arguments := [lit "its.txt"] |} ] /\
   spec_parse_args (lit "it's.txt") = [lit "it's.txt"]) /\
  ~ (forall pre mid post : JsString,
       extractCalls (pre ++ lit "readFile(a.txt)" ++ mid
                     ++ lit "writeFile(b.txt, hi)" ++ post)
       = [ {| tc_name := lit "readFile"; tc_arguments := [lit "a.txt"] |};
           {| tc_name := lit "writeFile";
              tc_arguments := [lit "b.txt"; lit "hi"] |} ]).
Proof.
  split; [split; vm_compute; reflexivity |].
  intros H. specialize (H (lit "x") (lit " ") []).
  vm_compute in H. discriminate H.
Qed.

(** ** The dispatcher *)

(** C1, evaluated on the code: with no mailbox tools configured, the
    switch of [parseAndExecuteTools] answers eight of the ten mailbox names
    with the result "Gmail tools not available" and no event; it has no
    case for sendEmail and createDraft, which the extraction pattern does
    accept: they fall to the default case and get the error
    "Unknown tool". *)
Theorem C1_mailbox_names_without_mailbox :
  forall (args : list JsString) (st : CodingAgent.state),
    let st0 := CodingAgent.set_gmailTools None st in
    let unknown (funcName : string) :=
      {| success := false;
         data := None;
         error := Some (lit "Unknown tool");
         message := lit "Unknown tool: " ++ lit funcName |} in
    Forall (fun funcName =>
              CodingAgent.dispatch funcName args st0
              = Ret (Ok {| success := false;
                           data := None;
                           error := Some (lit "Gmail tools not available");
                           message := lit "Gmail functionality not configured" |},
                     st0))
      (map lit ["listEmails"; "getEmail"; "searchEmails"; "getUnreadEmails";
                "markAsRead"; "deleteEmail"; "getEmailContext";
                "analyzeEmailThread"]%string) /\
    CodingAgent.dispatch (lit "sendEmail") args st0
    = Ret (Ok (unknown "sendEmail"%string), st0) /\
    CodingAgent.dispatch (lit "createDraft") args st0
    = Ret (Ok (unknown "createDraft"%string), st0) /\
    CodingAgent.parseAndExecuteTools (lit "sendEmail(draft)") st0
    = Ret (Ok [unknown "sendEmail"%string], st0) /\
    CodingAgent.parseAndExecuteTools (lit "createDraft(draft)") st0
    = Ret (Ok [unknown "createDraft"%string], st0).
Proof.
  intros args st st0 unknown. split.
  - simpl map. split_Forall; reflexivity.
  - repeat split; reflexivity.
Qed.

(** The direct methods of the agent do check for the mailbox tools on
    these two names. *)
Lemma direct_sendEmail_createDraft_without_mailbox draft st :
  let st0 := CodingAgent.set_gmailTools None st in
  CodingAgent.sendEmail draft st0 = Ret (Ok CodingAgent.gmailNotAvailable, st0) /\
  CodingAgent.createDraft draft st0 = Ret (Ok CodingAgent.gmailNotAvailable, st0).
Proof. split; reflexivity. Qed.


Lemma gmail_listEmails_first_event g options :
  GmailTools.isAuthenticated g = true ->
  exists k,
    GmailTools.listEmails options g
    = Vis (MessagesList (or_string (so_query options) [])
             (or_number (so_maxResults options) 10)
             (default false (so_includeSpamTrash options))) k.
Proof.
  intros Hauth. destruct g as [cfg gm auth]. simpl in Hauth. subst auth.
  eexists. reflexivity.
Qed.


Example fresh_state_is_sample :
  fresh_state None = Some (sample_state None) /\
  fresh_state (Some sample_gmailConfig)
  = Some (sample_state (Some (GmailTools.new sample_gmailConfig))).
Proof. split; vm_compute; reflexivity. Qed.



Lemma wp_runs {S A} (m : M S A) s (Q : Res A -> S -> Prop) :
  wp m s Q <-> forall tr r s', runs (m s) tr (r, s') -> Q r s'.
Proof.
  unfold wp. rewrite always_runs. split.
  - intros H tr r s' Hr. apply (H tr (r, s') Hr).
  - intros H tr [r s'] Hr. eapply H, Hr.
Qed.

Lemma matches_parse toolCall text :
  toolCall ∈ scan None 0 text -> match_call toolCall <> None.
Proof.
  intros Hin. pose proof (scan_call_texts text None 0) as H.
  rewrite Forall_forall in H.
  destruct (H _ Hin) as (name & ws & body & Hp & ->).
  rewrite match_call_call_text by assumption. discriminate.
Qed.

(** The loop pushes one result for each match. *)
Lemma loop_results toolCalls : forall results st,
  Forall (fun toolCall => match_call toolCall <> None) toolCalls ->
  wp (for_of toolCalls results (fun results toolCall =>
        let* pushed := CodingAgent.executeToolCall toolCall in
        ret (match pushed with
             | Some result => results ++ [result]
             | None => results
             end))) st
     (fun r _ => exists results', r = Ok results' /\
                   length results' = length results + length toolCalls /\
                   (Forall result_ok results -> Forall result_ok results')).
Proof.
  induction toolCalls as [|toolCall toolCalls IH]; intros results st Hall.
  - apply wp_ret. exists results. simpl. auto with lia.
  - inversion Hall as [| ? ? Hm Hall']; subst. simpl. apply wp_bind, wp_bind.
    eapply wp_mono; [apply executeToolCall_result_ok |].
    intros r s' (pushed & -> & Hp). destruct pushed as [result |]; [| congruence].
    apply wp_ret. eapply wp_mono; [apply IH, Hall' |].
    intros r s'' (results' & -> & Hlen & Hok). exists results'.
    split; [reflexivity |]. split.
    + rewrite Hlen, length_app. simpl. lia.
    + intros Hr. apply Hok, Forall_app. auto.
Qed.

Lemma parseAndExecuteTools_results response st :
  wp (CodingAgent.parseAndExecuteTools response) st
     (fun r _ => exists results, r = Ok results /\
                   length results = length (scan None 0 response) /\
                   Forall result_ok results).
Proof.
  unfold CodingAgent.parseAndExecuteTools.
  pose proof (default_match_toolCalls response) as Hd.
  destruct (match_toolCalls response) as [toolCalls |]; simpl in Hd.
  - eapply wp_mono.
    + apply loop_results. rewrite Forall_forall. intros toolCall Hin.
      apply (matches_parse toolCall response). rewrite <- Hd. exact Hin.
    + intros r s' (results & -> & Hlen & Hok). exists results.
      rewrite <- Hd. simpl in Hlen. auto.
  - apply wp_ret. exists []. rewrite <- Hd. auto.
Qed.



(** C5: every result of the four file operations, of command execution
    (the tool, the direct method of the agent), of the switch and of
    [parseAndExecuteTools], under every behaviour of the environment,
    satisfies the invariant: if its error is set then its success flag is
    false; and its message, a field every result has, is not empty. *)
Theorem C5_result_invariant :
  (forall filePath ft,
     wp (FileTools.readFile filePath) ft (fun r _ => returning result_ok r)) /\
  (forall filePath content ft,
     wp (FileTools.writeFile filePath content) ft (fun r _ => returning result_ok r)) /\
  (forall filePath newContent ft,
     wp (FileTools.editFile filePath newContent) ft
        (fun r _ => returning result_ok r)) /\
  (forall directory ft,
     wp (FileTools.listFiles directory) ft (fun r _ => returning result_ok r)) /\
  (forall command ct,
     wp (CommandTools.executeCommand command) ct (fun r _ => returning result_ok r)) /\
  (forall command st,
     wp (CodingAgent.executeCommand command) st (fun r _ => returning result_ok r)) /\
  (forall funcName args st,
     wp (CodingAgent.dispatch funcName args) st (fun r _ => returning result_ok r)) /\
  (forall response st,
     wp (CodingAgent.parseAndExecuteTools response) st
        (fun r _ => exists results, r = Ok results /\ Forall result_ok results)).
Proof.
  repeat split.
  - apply readFile_result_ok.
  - apply writeFile_result_ok.
  - apply editFile_result_ok.
  - apply listFiles_result_ok.
  - apply executeCommand_result_ok.
  - intros command st. unfold CodingAgent.executeCommand, CodingAgent.commandBlocked.
    wp_step; [wp_step; result_ok_tac | on_tool executeCommand_result_ok].
  - apply dispatch_result_ok.
  - intros response st. eapply wp_mono; [apply parseAndExecuteTools_results |].
    intros r s' (results & -> & _ & Hok). eauto.
Qed.

(** ** The context *)

(** C6, evaluated on the code: [getContext] returns a new object whose
    three array fields are the arrays of the agent themselves; pushing onto
    the conversationHistory (or the recentFiles) of the returned object
    changes the history (the recent files) the agent holds. *)
Theorem C6_getContext_shares_arrays :
  forall (st : CodingAgent.state) (m : AgentMessage) (file : JsString)
         (history : list AgentMessage) (files : list JsString),
    let own := CodingAgent.context (CodingAgent.this st) in
    message_arrays (CodingAgent.store st) !! conversationHistory own = Some history ->
    string_arrays (CodingAgent.store st) !! recentFiles own = Some files ->
    exists returned,
      CodingAgent.getContext st = Ret (Ok returned, st) /\
      messages_at (conversationHistory own)
        (push_message (conversationHistory returned) m (CodingAgent.store st))
      = history ++ [m] /\
      strings_at (recentFiles own)
        (push_string (recentFiles returned) file (CodingAgent.store st))
      = files ++ [file].
Proof.
  intros st m file history files own Hh Hf. eexists. split; [reflexivity |].
  unfold messages_at, strings_at, push_message, push_string. simpl.
  fold own. rewrite !lookup_alter_eq, Hh, Hf. auto.
Qed.

Lemma C6_witness :
  exists returned,
    CodingAgent.getContext (sample_state None)
    = Ret (Ok returned, sample_state None) /\
    messages_at 1%positive
      (push_message (conversationHistory returned)
         {| role := user; content := lit "injected"; timestamp := 0 |}
         (CodingAgent.store (sample_state None)))
    = [] ++ [{| role := user; content := lit "injected"; timestamp := 0 |}] /\
    strings_at 1%positive
      (push_string (recentFiles returned) (lit "a.txt")
         (CodingAgent.store (sample_state None)))
    = [] ++ [lit "a.txt"].
Proof.
  apply (C6_getContext_shares_arrays (sample_state None)
           {| role := user; content := lit "injected"; timestamp := 0 |}
           (lit "a.txt") [] []); vm_compute; reflexivity.
Defined.

(** ** The interactive loop *)

Lemma skip_space_spaces s :
  Forall (fun c => is_space c = true) s -> skip_space s = [].
Proof. induction 1 as [|c s Hc _ IH]; simpl; [|rewrite Hc]; auto. Qed.

Lemma trim_spaces s : Forall (fun c => is_space c = true) s -> trim s = [].
Proof. intros H. unfold trim. rewrite (skip_space_spaces s) by assumption. reflexivity. Qed.

(** C7: on an input that is empty or made of white space only, one pass
    through the loop of [CLI.start] ends at once, ready for the next
    prompt: no event is issued (no model call, no tool, no output) and the
    state, conversation history included, is unchanged. *)
Theorem C7_blank_input_is_noop :
  forall (input : JsString) (st : CodingAgent.state),
    Forall (fun c => is_space c = true) input ->
    CLI.turn input st = Ret (Ok CLI.next_prompt, st).
Proof.
  intros input st H. unfold CLI.turn, try_catch.
  rewrite trim_spaces by assumption. reflexivity.
Qed.

Lemma C7_witness :
  CLI.turn [" "%char; ascii_of_nat 9; " "%char] (sample_state None)
  = Ret (Ok CLI.next_prompt, sample_state None).
Proof.
  apply C7_blank_input_is_noop. split_Forall; reflexivity.
Defined.

(** ** What the operations of the agent leave alone *)

Lemma always_trivial {R} (p : Prog R) : always p (fun _ => True).
Proof. induction p; simpl; auto. Qed.

Lemma wp_trivial {S A} (m : M S A) s : wp m s (fun _ _ => True).
Proof. unfold wp. eapply always_mono; [| apply always_trivial]. intros []; auto. Qed.

Lemma keeps_refl st : keeps st st.
Proof. unfold keeps. auto. Qed.

Lemma keeps_trans st1 st2 st3 : keeps st1 st2 -> keeps st2 st3 -> keeps st1 st3.
Proof. unfold keeps. intros (a & b & c) (a' & b' & c'). repeat split; congruence. Qed.

Section Framed.
Context {A : Type}.

Lemma framed_ret (a : A) : framed (ret a).
Proof. intros st. apply wp_ret, keeps_refl. Qed.

Lemma framed_throw e : framed (@throw _ A e).
Proof. intros st. apply wp_throw, keeps_refl. Qed.

Lemma framed_gets (f : CodingAgent.state -> A) : framed (gets f).
Proof. intros st. apply wp_gets, keeps_refl. Qed.

Lemma framed_call (e : Event A) : framed (call e).
Proof. intros st. apply wp_call; intros; apply keeps_refl. Qed.

Lemma framed_bind {B} (m : M CodingAgent.state B) (f : B -> M CodingAgent.state A) :
  framed m -> (forall b, framed (f b)) -> framed (bind m f).
Proof.
  intros Hm Hf st. apply wp_bind. eapply wp_mono; [apply Hm |].
  intros [b | e] s' Hk; [| exact Hk].
  eapply wp_mono; [apply Hf |]. intros r s'' Hk'. eapply keeps_trans; eauto.
Qed.

Lemma framed_try_catch (body : M CodingAgent.state A) handler :
  framed body -> (forall e, framed (handler e)) -> framed (try_catch body handler).
Proof.
  intros Hm Hf st. apply wp_try_catch. eapply wp_mono; [apply Hm |].
  intros [b | e] s' Hk; [exact Hk |].
  eapply wp_mono; [apply Hf |]. intros r s'' Hk'. eapply keeps_trans; eauto.
Qed.

Lemma framed_zoom {T} (get : CodingAgent.state -> T) set (m : M T A) :
  (forall t st, keeps st (set t st)) -> framed (zoom get set m).
Proof.
  intros Hset st. apply wp_zoom. eapply wp_mono; [apply wp_trivial |].
  intros r t' _. apply Hset.
Qed.

Lemma framed_on_fileTools (m : M FileTools.t A) : framed (CodingAgent.on_fileTools m).
Proof. apply framed_zoom. intros t st. unfold keeps. simpl. auto. Qed.

Lemma framed_on_commandTools (m : M CommandTools.t A) :
  framed (CodingAgent.on_commandTools m).
Proof. apply framed_zoom. intros t st. unfold keeps. simpl. auto. Qed.

Lemma framed_on_gmailTools g (m : M GmailTools.t A) :
  framed (CodingAgent.on_gmailTools g m).
Proof. apply framed_zoom. intros t st. unfold keeps. simpl. auto. Qed.

Lemma framed_switch x (cases : list (JsString * M CodingAgent.state A)) otherwise :
  Forall (fun c => framed (snd c)) cases -> framed otherwise ->
  framed (switch x cases otherwise).
Proof.
  intros Hc Ho. induction Hc as [| [label body] cases Hb _ IH]; simpl;
    [exact Ho |].
  destruct (jseq x label); [exact Hb | exact IH].
Qed.

Lemma framed_for_of {X} (xs : list X) (acc : A) body :
  (forall acc x, framed (body acc x)) -> framed (for_of xs acc body).
Proof.
  intros Hb. revert acc. induction xs as [|x xs IH]; intros acc; simpl.
  - apply framed_ret.
  - apply framed_bind; [apply Hb | intros b; apply IH].
Qed.

End Framed.

Lemma framed_modify f : (forall st, keeps st (f st)) -> framed (modify f).
Proof. intros Hf st. apply wp_modify, Hf. Qed.

Lemma framed_void {A} (m : M CodingAgent.state A) : framed m -> framed (void m).
Proof. intros H. apply framed_bind; [exact H | intros; apply framed_ret]. Qed.

Ltac framed_step :=
  lazymatch goal with
  | |- framed (ret _) => apply framed_ret
  | |- framed (throw _) => apply framed_throw
  | |- framed (gets _) => apply framed_gets
  | |- framed (call _) => apply framed_call
  | |- framed (bind _ _) => apply framed_bind; [| intros ?]
  | |- framed (try_catch _ _) => apply framed_try_catch; [| intros ?]
  | |- framed (CodingAgent.on_fileTools _) => apply framed_on_fileTools
  | |- framed (CodingAgent.on_commandTools _) => apply framed_on_commandTools
  | |- framed (CodingAgent.on_gmailTools _ _) => apply framed_on_gmailTools
  | |- framed (for_of _ _ _) => apply framed_for_of; intros ? ?
  | |- framed (receiver _ ?v) => destruct v; unfold receiver
  | |- framed (if ?b then _ else _) => destruct b
  | |- framed (match ?x with _ => _ end) => destruct x
  end.

Ltac framed_auto := repeat framed_step.

Lemma framed_ifGmail (m : M GmailTools.t ToolResult) : framed (CodingAgent.ifGmail m).
Proof. unfold CodingAgent.ifGmail. framed_auto. Qed.

Lemma framed_dispatch funcName args : framed (CodingAgent.dispatch funcName args).
Proof.
  unfold CodingAgent.dispatch. apply framed_switch.
  - split_Forall; cbn [snd]; try apply framed_ifGmail;
      try apply framed_on_fileTools.
    unfold CommandTools.isSafeCommand_arg. framed_auto.
  - framed_auto.
Qed.

Lemma framed_executeToolCall toolCall : framed (CodingAgent.executeToolCall toolCall).
Proof.
  unfold CodingAgent.executeToolCall. apply framed_try_catch; [| intros e; framed_auto].
  destruct (match_call toolCall) as [[funcName argsStr] |]; [| framed_auto].
  apply framed_bind; [apply framed_dispatch | intros; framed_auto].
Qed.

Lemma framed_parseAndExecuteTools response :
  framed (CodingAgent.parseAndExecuteTools response).
Proof.
  unfold CodingAgent.parseAndExecuteTools.
  destruct (match_toolCalls response); [| framed_auto].
  apply framed_for_of. intros acc x.
  apply framed_bind; [apply framed_executeToolCall | intros; framed_auto].
Qed.

Lemma framed_pushHistory r text : framed (CodingAgent.pushHistory r text).
Proof.
  unfold CodingAgent.pushHistory. framed_auto.
  apply framed_modify. intros st. unfold keeps. simpl. auto.
Qed.

Lemma framed_generateSystemPrompt : framed CodingAgent.generateSystemPrompt.
Proof. unfold CodingAgent.generateSystemPrompt. framed_auto. Qed.

Lemma framed_callOpenAI messages : framed (CodingAgent.callOpenAI messages).
Proof. unfold CodingAgent.callOpenAI. framed_auto. Qed.

Lemma framed_processMessage userMessage :
  framed (CodingAgent.processMessage userMessage).
Proof.
  unfold CodingAgent.processMessage.
  apply framed_bind; [apply framed_pushHistory | intros _].
  apply framed_bind; [apply framed_generateSystemPrompt | intros systemPrompt].
  apply framed_bind; [apply framed_gets | intros history].
  apply framed_bind; [apply framed_callOpenAI | intros aiResponse].
  apply framed_bind; [apply framed_parseAndExecuteTools | intros toolResults].
  apply framed_bind; [apply framed_pushHistory | intros _].
  apply framed_ret.
Qed.

Lemma framed_setCurrentDirectory directory :
  framed (CodingAgent.setCurrentDirectory directory).
Proof.
  unfold CodingAgent.setCurrentDirectory.
  apply framed_bind;
    [apply framed_modify; intros st; unfold keeps; simpl; auto | intros _].
  framed_auto.
Qed.

Lemma framed_perform op : framed (perform op).
Proof.
  destruct op; simpl; try apply framed_void;
    try apply framed_ifGmail; try apply framed_on_fileTools.
  - apply framed_processMessage.
  - apply framed_parseAndExecuteTools.
  - unfold CodingAgent.executeCommand. framed_auto.
  - unfold CodingAgent.getContext. framed_auto.
  - apply framed_setCurrentDirectory.
  - unfold CodingAgent.getMCPContext. framed_auto.
Qed.

Lemma new_recent_empty config gmailConfig h0 :
  wp (CodingAgent.new config gmailConfig) h0
     (fun r h => match r with
                 | Ok agent =>
                     recent_empty {| CodingAgent.store := h;
                                     CodingAgent.this := agent |}
                 | Raise _ => True
                 end).
Proof.
  unfold CodingAgent.new, FileTools.new, CommandTools.new.
  wp_steps; try exact I.
  unfold wp, recent_empty. simpl.
  set (m := string_arrays h0). set (l1 := fresh (dom m)).
  set (l2 := fresh (dom (<[l1:=[]]> m))).
  assert (Hne : l2 <> l1).
  { intros Heq. apply (is_fresh (dom (<[l1:=[]]> m))). fold l2. rewrite Heq.
    apply elem_of_dom. rewrite lookup_insert_eq. eauto. }
  split; [rewrite lookup_insert_ne by exact Hne |]; apply lookup_insert_eq.
Qed.

(** C10: in every state an agent can reach from its construction by its own
    operations (processing a message, dispatching the calls of a response,
    the direct tool methods, the accessors, [setCurrentDirectory]), whatever
    the environment answers and whether the operations return or throw, the
    arrays recentFiles and recentCommands of its context are allocated and
    empty. *)
Theorem C10_recent_arrays_stay_empty :
  forall st : CodingAgent.state,
    reachable st ->
    strings_at (recentFiles (CodingAgent.context (CodingAgent.this st)))
      (CodingAgent.store st) = [] /\
    strings_at (recentCommands (CodingAgent.context (CodingAgent.this st)))
      (CodingAgent.store st) = [] /\
    recent_empty st.
Proof.
  intros st Hr.
  assert (H : recent_empty st).
  { induction Hr as [config gmailConfig h0 tr agent h Hrun
                    | st op tr r st' _ IH Hrun].
    - pose proof (new_recent_empty config gmailConfig h0) as Hnew.
      rewrite wp_runs in Hnew. exact (Hnew _ _ _ Hrun).
    - pose proof (framed_perform op st) as Hf. rewrite wp_runs in Hf.
      destruct (Hf _ _ _ Hrun) as (Hs & Hfiles & Hcommands).
      destruct IH as [IH1 IH2]. unfold recent_empty.
      rewrite Hs, Hfiles, Hcommands. auto. }
  destruct H as [H1 H2]. unfold strings_at, recent_empty.
  rewrite H1, H2. auto.
Qed.

Lemma sample_state_reachable : reachable (sample_state None).
Proof.
  assert (Hrun :
    runs (CodingAgent.new sample_config None empty_store)
      [answer ProcessCwd (Returned (lit "/work"));
       answer ProcessCwd (Returned (lit "/work"));
       answer ProcessCwd (Returned (lit "/work"))]
      (Ok (CodingAgent.this (sample_state None)),
       CodingAgent.store (sample_state None))).
  { simpl. eexists _, _. split; [reflexivity |].
    eexists _, _. split; [reflexivity |].
    eexists _, _. split; [reflexivity |].
    split; [reflexivity |]. vm_compute. reflexivity. }
  exact (reachable_new _ _ _ _ _ _ Hrun).
Qed.

Lemma C10_witness :
  strings_at 1%positive (CodingAgent.store (sample_state None)) = [] /\
  strings_at 2%positive (CodingAgent.store (sample_state None)) = [] /\
  recent_empty (sample_state None).
Proof.
  exact (C10_recent_arrays_stay_empty (sample_state None) sample_state_reachable).
Defined.

(** * Further properties of the code *)

(** ** The call extractor *)

(** X1: a text with no opening parenthesis (a tool name alone, prose)
    yields no call, and [parseAndExecuteTools] returns the empty list at
    once, with no event and the state unchanged. *)
Theorem X1_no_parenthesis_no_call :
  forall (text : JsString) (st : CodingAgent.state),
    no_lparen text ->
    extractCalls text = [] /\
    CodingAgent.parseAndExecuteTools text st = Ret (Ok [], st).
Proof.
  intros text st H.
  assert (Hnone : match_toolCalls text = None).
  { unfold match_toolCalls. rewrite scan_no_lparen by assumption. reflexivity. }
  unfold extractCalls, CodingAgent.parseAndExecuteTools. rewrite Hnone. auto.
Qed.

Lemma X1_witness :
  extractCalls (lit "I would call readFile on a.txt and then listEmails") = [] /\
  CodingAgent.parseAndExecuteTools
    (lit "I would call readFile on a.txt and then listEmails") (sample_state None)
  = Ret (Ok [], sample_state None).
Proof.
  apply X1_no_parenthesis_no_call. apply no_lparen_check. reflexivity.
Defined.

Lemma split_length s : length (split "," s) = S (commas s).
Proof.
  unfold commas. induction s as [|c s IH]; simpl; [reflexivity |].
  destruct (Ascii.eqb c ","); simpl; [rewrite IH; reflexivity |].
  destruct (split "," s); simpl in *; [discriminate | exact IH].
Qed.

Lemma split_pieces sep s :
  Forall (fun piece => Forall (fun ch => ch ∈ s /\ ch <> sep) piece) (split sep s).
Proof.
  induction s as [|c s IH]; simpl; [repeat constructor |].
  assert (IH' : Forall (fun piece => Forall (fun ch => ch ∈ c :: s /\ ch <> sep) piece)
                  (split sep s)).
  { eapply Forall_impl; [exact IH |]. intros piece Hp. simpl in Hp.
    eapply Forall_impl; [exact Hp |]. intros ch [Hin Hne]. simpl.
    split; [right; exact Hin | exact Hne]. }
  destruct (Ascii.eqb_spec c sep) as [-> | Hne].
  - constructor; [constructor | exact IH'].
  - destruct (split sep s) as [|t ts].
    { constructor; [| constructor]. constructor; [| constructor].
      split; [left | exact Hne]. }
    inversion IH' as [| ? ? Ht Hts]; subst.
    constructor; [| exact Hts]. constructor; [| exact Ht].
    split; [left | exact Hne].
Qed.

Lemma skip_space_sub s ch : ch ∈ skip_space s -> ch ∈ s.
Proof.
  induction s as [|c s IH]; simpl; [auto |].
  destruct (is_space c); [intros H; right; auto | auto].
Qed.

Lemma trim_sub s ch : ch ∈ trim s -> ch ∈ s.
Proof.
  unfold trim. intros H. apply list_elem_of_In, in_rev, list_elem_of_In in H.
  apply skip_space_sub in H.
  apply list_elem_of_In, in_rev, list_elem_of_In in H.
  apply skip_space_sub in H. exact H.
Qed.

Lemma remove_quotes_sub s ch :
  ch ∈ remove_quotes s -> ch ∈ s /\ is_quote ch = false.
Proof.
  unfold remove_quotes. intros H. apply list_elem_of_In, filter_In in H as [H1 H2].
  apply list_elem_of_In in H1. apply negb_true_iff in H2. auto.
Qed.

Lemma parse_args_chars body :
  Forall (fun c => not_rparen c = true) body ->
  Forall (fun arg =>
            Forall (fun ch => is_quote ch = false /\ ch <> ","%char /\ ch <> ")"%char)
              arg)
    (parse_args body).
Proof.
  intros Hb. unfold parse_args. rewrite Forall_map.
  eapply Forall_impl; [apply (split_pieces "," body) |].
  intros piece Hp. simpl in Hp. rewrite Forall_forall in Hp, Hb.
  apply Forall_forall. intros ch Hch.
  apply remove_quotes_sub in Hch as [Hch Hq]. apply trim_sub in Hch.
  destruct (Hp ch Hch) as [Hin Hne].
  repeat split; [exact Hq | exact Hne |].
  apply not_rparen_true, Hb, Hin.
Qed.

Lemma Forall2_elem_of_right {A B} (R : A -> B -> Prop) l k y :
  Forall2 R l k -> y ∈ k -> exists x, x ∈ l /\ R x y.
Proof.
  induction 1 as [| a b l k Hab _ IH]; intros Hy.
  - apply elem_of_nil in Hy as [].
  - apply elem_of_cons in Hy as [-> | Hy].
    + exists a. split; [left | exact Hab].
    + destruct (IH Hy) as (x & Hx & HR). exists x. split; [right |]; assumption.
Qed.

(** X2: every extracted call bears one of the fifteen tool names and comes
    from a match of the text; it has one argument more than its
    parenthesized body has commas (so at least one), and no argument holds
    a quote character, a comma or a closing parenthesis. *)
Theorem X2_extracted_calls_shape :
  forall (text : JsString) (c : ToolCall),
    c ∈ extractCalls text ->
    tc_name c ∈ toolNames /\
    exists ws body,
      call_text (tc_name c) ws body ∈ scan None 0 text /\
      length (tc_arguments c) = S (commas body) /\
      Forall (fun arg =>
                Forall (fun ch => is_quote ch = false /\ ch <> ","%char
                                  /\ ch <> ")"%char) arg)
        (tc_arguments c).
Proof.
  intros text c Hc. unfold extractCalls in Hc.
  rewrite default_match_toolCalls in Hc.
  pose proof (omap_parseCall _ (scan_call_texts text None 0)) as H2.
  destruct (Forall2_elem_of_right _ _ _ _ H2 Hc)
    as (m & Hm & name & ws & body & Hp & -> & ->).
  simpl. split; [apply Hp |]. exists ws, body. split; [exact Hm |]. split.
  - unfold parse_args. rewrite length_map. apply split_length.
  - apply parse_args_chars. apply Hp.
Qed.

Lemma X2_witness :
  tc_name {| tc_name := lit "writeFile"; tc_arguments := [lit "b.txt"; lit "hi"] |}
    ∈ toolNames /\
  exists ws body,
    call_text (lit "writeFile") ws body
      ∈ scan None 0 (lit "please writeFile('b.txt', hi) now") /\
    length [lit "b.txt"; lit "hi"] = S (commas body) /\
    Forall (fun arg =>
              Forall (fun ch => is_quote ch = false /\ ch <> ","%char
                                /\ ch <> ")"%char) arg)
      [lit "b.txt"; lit "hi"].
Proof.
  apply (X2_extracted_calls_shape (lit "please writeFile('b.txt', hi) now")
           {| tc_name := lit "writeFile";
              tc_arguments := [lit "b.txt"; lit "hi"] |}).
  vm_compute. left.
Defined.

(** X3: no match starts right after a word character: a tool name that is
    the tail of a longer identifier is not a call. *)
Theorem X3_no_match_inside_a_word :
  forall (c : ascii) (s : JsString),
    is_word c = true -> toolCallPattern (Some c) s = None.
Proof.
  intros c s Hc. destruct (toolCallPattern (Some c) s) eqn:E; [exfalso | reflexivity].
  apply toolCallPattern_Some in E as (name & ws & body & rest & Hp & -> & _ & Hwb).
  destruct (call_parts_name _ _ _ Hp) as (d & name' & -> & Hd & _).
  unfold word_boundary in Hwb. simpl in Hwb. rewrite Hc, Hd in Hwb.
  discriminate Hwb.
Qed.

Lemma X3_witness :
  toolCallPattern (Some "x"%char) (lit "readFile(a.txt)") = None.
Proof. apply X3_no_match_inside_a_word. reflexivity. Defined.

(** ** The switch *)

Lemma jseq_false a b : a <> b -> jseq a b = false.
Proof.
  intros H. destruct (jseq a b) eqn:E; [| reflexivity].
  apply jseq_eq in E. congruence.
Qed.

Lemma switch_default {A} x (cases : list (JsString * A)) otherwise :
  x ∉ map fst cases -> switch x cases otherwise = otherwise.
Proof.
  induction cases as [| [label body] cases IH]; simpl; [reflexivity |].
  intros H. rewrite jseq_false.
  - apply IH. intros Hin. apply H. right. exact Hin.
  - intros ->. apply H. left.
Qed.

(** X4: a name that is none of the thirteen cases of the switch gets the
    failed result with error "Unknown tool", at once, with no event and the
    state unchanged; among the names the extraction pattern accepts these
    are sendEmail and createDraft, and no other. *)
Theorem X4_switch_default :
  let cases :=
    map lit ["readFile"; "writeFile"; "editFile"; "executeCommand"; "listFiles";
             "listEmails"; "getEmail"; "searchEmails"; "getUnreadEmails";
             "markAsRead"; "deleteEmail"; "getEmailContext";
             "analyzeEmailThread"]%string in
  (forall (funcName : JsString) (args : list JsString) (st : CodingAgent.state),
     funcName ∉ cases ->
     CodingAgent.dispatch funcName args st
     = Ret (Ok {| success := false;
                  data := None;
                  error := Some (lit "Unknown tool");
                  message := lit "Unknown tool: " ++ funcName |}, st)) /\
  (forall name : JsString,
     name ∈ toolNames ->
     (name ∉ cases <-> name = lit "sendEmail" \/ name = lit "createDraft")).
Proof.
  intros cases. split.
  - intros funcName args st H. unfold CodingAgent.dispatch.
    rewrite switch_default; [reflexivity | exact H].
  - intros name Hin. unfold toolNames in Hin. simpl in Hin.
    rewrite !elem_of_cons in Hin. unfold cases. simpl.
    repeat (destruct Hin as [-> | Hin];
            [split;
             [intros H; first [left; reflexivity | right; reflexivity
                              | exfalso; apply H; rewrite !elem_of_cons; tauto]
             |intros [H | H]; first [discriminate H
                                    | rewrite !elem_of_cons, elem_of_nil;
                                      intros Hc;
                                      repeat (destruct Hc as [Hc | Hc];
                                              [discriminate Hc |]);
                                      exact Hc]] |]).
    apply elem_of_nil in Hin as [].
Qed.

Lemma X4_witness :
  CodingAgent.dispatch (lit "deleteFile") [lit "a.txt"] (sample_state None)
  = Ret (Ok {| success := false;
               data := None;
               error := Some (lit "Unknown tool");
               message := lit "Unknown tool: " ++ lit "deleteFile" |},
         sample_state None).
Proof.
  apply (proj1 X4_switch_default). simpl. rewrite !elem_of_cons, elem_of_nil.
  intros H. repeat (destruct H as [H | H]; [discriminate H |]). exact H.
Defined.

(** X5: on the same arguments the switch and the direct methods of the
    agent are the same program: for reading, writing and editing a file,
    for running a command (safety gate included) and for the five mailbox
    methods that take an identifier. *)
Theorem X5_switch_agrees_with_direct_methods :
  forall (a b : JsString) (rest : list JsString) (st : CodingAgent.state),
    CodingAgent.dispatch (lit "readFile") (a :: rest) st
    = CodingAgent.readFile a st /\
    CodingAgent.dispatch (lit "writeFile") (a :: b :: rest) st
    = CodingAgent.writeFile a b st /\
    CodingAgent.dispatch (lit "editFile") (a :: b :: rest) st
    = CodingAgent.editFile a b st /\
    CodingAgent.dispatch (lit "executeCommand") (a :: rest) st
    = CodingAgent.executeCommand a st /\
    CodingAgent.dispatch (lit "getEmail") (a :: rest) st
    = CodingAgent.getEmail a st /\
    CodingAgent.dispatch (lit "markAsRead") (a :: rest) st
    = CodingAgent.markAsRead a st /\
    CodingAgent.dispatch (lit "deleteEmail") (a :: rest) st
    = CodingAgent.deleteEmail a st /\
    CodingAgent.dispatch (lit "getEmailContext") (a :: rest) st
    = CodingAgent.getEmailContext a st /\
    CodingAgent.dispatch (lit "analyzeEmailThread") (a :: rest) st
    = CodingAgent.analyzeEmailThread a st.
Proof.
  intros a b rest st. repeat split; try reflexivity.
  rewrite dispatch_executeCommand. unfold CodingAgent.executeCommand.
  destruct (CommandTools.isSafeCommand a); reflexivity.
Qed.

(** ** The safety gate *)

Lemma lower_char_idempotent c : lower_char (lower_char c) = lower_char c.
Proof. ascii_cases c. Qed.

Lemma toLowerCase_idempotent s : toLowerCase (toLowerCase s) = toLowerCase s.
Proof.
  unfold toLowerCase. rewrite map_map. apply map_ext. intros c.
  apply lower_char_idempotent.
Qed.

Lemma contains_extend s sub before after :
  contains s sub -> contains (before ++ s ++ after) sub.
Proof.
  intros (x & y & ->). exists (before ++ x), (y ++ after).
  rewrite <- !app_assoc. reflexivity.
Qed.

(** X6: the safety gate does not depend on letter case, and a rejected
    command stays rejected whatever text is put before and after it (a
    prefix such as sudo, a pipeline, further arguments). *)
Theorem X6_gate_case_and_context :
  (forall command : JsString,
     CommandTools.isSafeCommand (toLowerCase command)
     = CommandTools.isSafeCommand command) /\
  (forall command before after : JsString,
     CommandTools.isSafeCommand command = false ->
     CommandTools.isSafeCommand (before ++ command ++ after) = false).
Proof.
  split.
  - intros command. unfold CommandTools.isSafeCommand.
    rewrite toLowerCase_idempotent. reflexivity.
  - intros command before after H.
    apply isSafeCommand_false in H as (d & Hd & Hc).
    apply isSafeCommand_false. exists d. split; [exact Hd |].
    unfold toLowerCase. rewrite !map_app. apply contains_extend, Hc.
Qed.

Lemma X6_witness :
  CommandTools.isSafeCommand (lit "sudo " ++ lit "Rm -Rf /tmp" ++ lit " | tee log")
  = false.
Proof. apply (proj2 X6_gate_case_and_context). reflexivity. Defined.

(** ** The events a method can issue *)

Lemma all_events_pbind {A B} P (p : Prog A) (f : A -> Prog B) :
  all_events P p -> (forall a, all_events P (f a)) -> all_events P (pbind p f).
Proof.
  intros Hp Hf. induction p as [r | X e k IH]; simpl in *; [apply Hf |].
  destruct Hp as [He Hk]. split; [exact He | intros o; apply IH, Hk].
Qed.

Lemma all_events_mono {R} (P P' : forall A, Event A -> Prop) (p : Prog R) :
  (forall A (e : Event A), P A e -> P' A e) -> all_events P p -> all_events P' p.
Proof.
  intros HP. induction p as [r | X e k IH]; simpl; [auto |].
  intros [He Hk]. split; [apply HP, He | intros o; apply IH, Hk].
Qed.

Lemma all_events_runs {R} P (p : Prog R) tr r :
  all_events P p -> runs p tr r ->
  Forall (fun a => match a with answer e _ => P _ e end) tr.
Proof.
  revert tr. induction p as [r' | X e k IH]; simpl; intros tr Hp Hr.
  - destruct Hr as [-> _]. constructor.
  - destruct Hp as [He Hk]. destruct Hr as (o & tr' & -> & Hr).
    constructor; [exact He | eapply IH; eauto].
Qed.

Section Issues.
Context {S : Type} (P : forall A, Event A -> Prop).

Lemma issues_ret {A} (a : A) : issues_only P (@ret S A a).
Proof. intros s. exact I. Qed.

Lemma issues_throw {A} e : issues_only P (@throw S A e).
Proof. intros s. exact I. Qed.

Lemma issues_gets {A} (f : S -> A) : issues_only P (gets f).
Proof. intros s. exact I. Qed.

Lemma issues_modify (f : S -> S) : issues_only P (modify f).
Proof. intros s. exact I. Qed.

Lemma issues_call {A} (e : Event A) : P A e -> issues_only P (@call S A e).
Proof. intros He s. split; [exact He |]. intros [a | x]; exact I. Qed.

Lemma issues_bind {A B} (m : M S A) (f : A -> M S B) :
  issues_only P m -> (forall a, issues_only P (f a)) -> issues_only P (bind m f).
Proof.
  intros Hm Hf s. unfold bind. apply all_events_pbind; [apply Hm |].
  intros [[a | e] s']; [apply Hf | exact I].
Qed.

Lemma issues_try_catch {A} (body : M S A) (handler : Exn -> M S A) :
  issues_only P body -> (forall e, issues_only P (handler e)) ->
  issues_only P (try_catch body handler).
Proof.
  intros Hm Hf s. unfold try_catch. apply all_events_pbind; [apply Hm |].
  intros [[a | e] s']; [exact I | apply Hf].
Qed.

Lemma issues_zoom {T A} (get : S -> T) (set : T -> S -> S) (m : M T A) :
  issues_only P m -> issues_only P (zoom get set m).
Proof.
  intros Hm s. unfold zoom. apply all_events_pbind; [apply Hm |].
  intros [r t']. exact I.
Qed.

Lemma issues_for_of {X Acc} (xs : list X) (acc : Acc) (body : Acc -> X -> M S Acc) :
  (forall acc x, issues_only P (body acc x)) -> issues_only P (for_of xs acc body).
Proof.
  intros Hb. revert acc. induction xs as [|x xs IH]; intros acc; simpl.
  - apply issues_ret.
  - apply issues_bind; [apply Hb | intros b; apply IH].
Qed.

Lemma issues_switch {A} x (cases : list (JsString * M S A)) otherwise :
  Forall (fun c => issues_only P (snd c)) cases -> issues_only P otherwise ->
  issues_only P (switch x cases otherwise).
Proof.
  intros Hc Ho. induction Hc as [| [label body] cases Hb _ IH]; simpl;
    [exact Ho |].
  destruct (jseq x label); [exact Hb | exact IH].
Qed.

End Issues.

Ltac issues_step :=
  lazymatch goal with
  | |- issues_only _ (ret _) => apply issues_ret
  | |- issues_only _ (throw _) => apply issues_throw
  | |- issues_only _ (gets _) => apply issues_gets
  | |- issues_only _ (modify _) => apply issues_modify
  | |- issues_only _ (call _) => apply issues_call; exact I
  | |- issues_only _ (bind _ _) => apply issues_bind; [| intros ?]
  | |- issues_only _ (try_catch _ _) => apply issues_try_catch; [| intros ?]
  | |- issues_only _ (zoom _ _ _) => apply issues_zoom
  | |- issues_only _ (for_of _ _ _) => apply issues_for_of; intros ? ?
  | |- issues_only _ (receiver _ ?v) => destruct v; unfold receiver
  | |- issues_only _ (if ?b then _ else _) => destruct b
  | |- issues_only _ (match ?x with _ => _ end) => destruct x
  end.

Ltac issues_auto := repeat issues_step.

(** The file tools and the mailbox tools start no process. *)
Lemma readFile_no_process p : issues_only no_process (FileTools.readFile p).
Proof. unfold FileTools.readFile. issues_auto. Qed.

Lemma writeFile_no_process p c : issues_only no_process (FileTools.writeFile p c).
Proof. unfold FileTools.writeFile. issues_auto. Qed.

Lemma editFile_no_process p c : issues_only no_process (FileTools.editFile p c).
Proof. unfold FileTools.editFile. issues_auto. Qed.

Lemma listFiles_no_process d : issues_only no_process (FileTools.listFiles d).
Proof. unfold FileTools.listFiles. issues_auto. Qed.

Lemma ft_getCurrentDirectory_no_process :
  issues_only no_process FileTools.getCurrentDirectory.
Proof. unfold FileTools.getCurrentDirectory. issues_auto. Qed.

Lemma ft_setCurrentDirectory_no_process d :
  issues_only no_process (FileTools.setCurrentDirectory d).
Proof. unfold FileTools.setCurrentDirectory. issues_auto. Qed.

Lemma authenticate_no_process : issues_only no_process GmailTools.authenticate.
Proof. unfold GmailTools.authenticate. issues_auto. Qed.

Lemma ensureAuthenticated_no_process :
  issues_only no_process GmailTools.ensureAuthenticated.
Proof.
  unfold GmailTools.ensureAuthenticated. issues_auto.
  apply authenticate_no_process.
Qed.

Ltac gmail_no_process :=
  repeat first
    [ progress issues_auto
    | lazymatch goal with
      | |- issues_only _ GmailTools.ensureAuthenticated =>
          apply ensureAuthenticated_no_process
      end ].

Lemma getEmail_no_process id : issues_only no_process (GmailTools.getEmail id).
Proof. unfold GmailTools.getEmail. gmail_no_process. Qed.

Lemma listEmails_no_process o : issues_only no_process (GmailTools.listEmails o).
Proof.
  unfold GmailTools.listEmails. gmail_no_process.
  apply getEmail_no_process.
Qed.

Lemma sendEmail_no_process d : issues_only no_process (GmailTools.sendEmail d).
Proof. unfold GmailTools.sendEmail. gmail_no_process. Qed.

Lemma createDraft_no_process d : issues_only no_process (GmailTools.createDraft d).
Proof. unfold GmailTools.createDraft. gmail_no_process. Qed.

Lemma searchEmails_no_process q n :
  issues_only no_process (GmailTools.searchEmails q n).
Proof. apply listEmails_no_process. Qed.

Lemma getUnreadEmails_no_process n :
  issues_only no_process (GmailTools.getUnreadEmails n).
Proof. apply listEmails_no_process. Qed.

Lemma markAsRead_no_process id : issues_only no_process (GmailTools.markAsRead id).
Proof. unfold GmailTools.markAsRead. gmail_no_process. Qed.

Lemma deleteEmail_no_process id : issues_only no_process (GmailTools.deleteEmail id).
Proof. unfold GmailTools.deleteEmail. gmail_no_process. Qed.

Lemma getEmailContext_no_process id :
  issues_only no_process (GmailTools.getEmailContext id).
Proof.
  unfold GmailTools.getEmailContext. gmail_no_process.
  apply getEmail_no_process.
Qed.

Lemma analyzeEmailThread_no_process id :
  issues_only no_process (GmailTools.analyzeEmailThread id).
Proof. unfold GmailTools.analyzeEmailThread. gmail_no_process. Qed.

Lemma no_process_gated A (e : Event A) : no_process A e -> gated A e.
Proof. destruct e; simpl; auto; intros []. Qed.

Lemma issues_weaken {S A} (m : M S A) :
  issues_only no_process m -> issues_only gated m.
Proof. intros H s. eapply all_events_mono; [apply no_process_gated | apply H]. Qed.

(** ** Only gated commands are run *)

Lemma executeCommand_gated c :
  CommandTools.isSafeCommand c = true ->
  issues_only gated (CommandTools.executeCommand (Some c)).
Proof.
  intros Hc. unfold CommandTools.executeCommand.
  apply issues_bind; [apply issues_gets | intros cwd].
  apply issues_bind; [apply issues_call; simpl; eauto | intros ended].
  issues_auto.
Qed.

Ltac on_file lemma :=
  unfold CodingAgent.on_fileTools; apply issues_zoom, issues_weaken, lemma.

Lemma ifGmail_gated (m : M GmailTools.t ToolResult) :
  issues_only no_process m -> issues_only gated (CodingAgent.ifGmail m).
Proof.
  intros Hm. unfold CodingAgent.ifGmail, CodingAgent.on_gmailTools.
  issues_auto. apply issues_weaken, Hm.
Qed.

Ltac on_mail lemma := apply ifGmail_gated, lemma.

Lemma agent_executeCommand_gated command :
  issues_only gated (CodingAgent.executeCommand command).
Proof.
  unfold CodingAgent.executeCommand, CodingAgent.on_commandTools.
  destruct (CommandTools.isSafeCommand command) eqn:E; simpl; issues_auto.
  apply executeCommand_gated, E.
Qed.

Lemma dispatch_gated funcName args :
  issues_only gated (CodingAgent.dispatch funcName args).
Proof.
  unfold CodingAgent.dispatch. apply issues_switch.
  - split_Forall; cbn [snd].
    + on_file readFile_no_process.
    + on_file writeFile_no_process.
    + on_file editFile_no_process.
    + destruct (args !! 0) as [c |]; [| intros st; exact I].
      intros st. pose proof (agent_executeCommand_gated c st) as H.
      unfold CodingAgent.executeCommand in H.
      unfold CommandTools.isSafeCommand_arg, receiver, bind, ret. simpl.
      destruct (CommandTools.isSafeCommand c); [exact H | exact I].
    + on_file listFiles_no_process.
    + on_mail listEmails_no_process.
    + on_mail getEmail_no_process.
    + on_mail searchEmails_no_process.
    + on_mail getUnreadEmails_no_process.
    + on_mail markAsRead_no_process.
    + on_mail deleteEmail_no_process.
    + on_mail getEmailContext_no_process.
    + on_mail analyzeEmailThread_no_process.
  - issues_auto.
Qed.

Lemma executeToolCall_gated toolCall :
  issues_only gated (CodingAgent.executeToolCall toolCall).
Proof.
  unfold CodingAgent.executeToolCall.
  apply issues_try_catch; [| intros e; issues_auto].
  destruct (match_call toolCall) as [[funcName argsStr] |]; [| issues_auto].
  apply issues_bind; [apply dispatch_gated | intros; issues_auto].
Qed.

Lemma parseAndExecuteTools_gated response :
  issues_only gated (CodingAgent.parseAndExecuteTools response).
Proof.
  unfold CodingAgent.parseAndExecuteTools.
  destruct (match_toolCalls response); [| issues_auto].
  apply issues_for_of. intros acc x.
  apply issues_bind; [apply executeToolCall_gated | intros; issues_auto].
Qed.

Lemma processMessage_gated userMessage :
  issues_only gated (CodingAgent.processMessage userMessage).
Proof.
  unfold CodingAgent.processMessage, CodingAgent.pushHistory,
    CodingAgent.generateSystemPrompt, CodingAgent.callOpenAI.
  apply issues_bind; [issues_auto | intros _].
  apply issues_bind; [| intros systemPrompt].
  { apply issues_bind; [on_file ft_getCurrentDirectory_no_process | intros currentDir].
    apply issues_bind; [on_file listFiles_no_process | intros files].
    issues_auto. }
  apply issues_bind; [issues_auto | intros history].
  apply issues_bind; [issues_auto | intros aiResponse].
  apply issues_bind; [apply parseAndExecuteTools_gated | intros toolResults].
  issues_auto.
Qed.

Lemma setCurrentDirectory_gated directory :
  issues_only gated (CodingAgent.setCurrentDirectory directory).
Proof.
  unfold CodingAgent.setCurrentDirectory, CodingAgent.on_commandTools,
    CommandTools.setCurrentDirectory.
  apply issues_bind; [issues_auto | intros _].
  apply issues_bind; [on_file ft_setCurrentDirectory_no_process | intros _].
  issues_auto.
Qed.

Lemma void_gated {A} (m : M CodingAgent.state A) :
  issues_only gated m -> issues_only gated (void m).
Proof. intros H. apply issues_bind; [exact H | intros; apply issues_ret]. Qed.

Lemma perform_gated op : issues_only gated (perform op).
Proof.
  destruct op; simpl; try apply void_gated.
  - apply processMessage_gated.
  - apply parseAndExecuteTools_gated.
  - unfold CodingAgent.readFile. on_file readFile_no_process.
  - unfold CodingAgent.writeFile. on_file writeFile_no_process.
  - unfold CodingAgent.editFile. on_file editFile_no_process.
  - apply agent_executeCommand_gated.
  - unfold CodingAgent.listFiles. on_file listFiles_no_process.
  - unfold CodingAgent.listEmails. on_mail listEmails_no_process.
  - unfold CodingAgent.getEmail. on_mail getEmail_no_process.
  - unfold CodingAgent.sendEmail. on_mail sendEmail_no_process.
  - unfold CodingAgent.createDraft. on_mail createDraft_no_process.
  - unfold CodingAgent.searchEmails. on_mail searchEmails_no_process.
  - unfold CodingAgent.getUnreadEmails. on_mail getUnreadEmails_no_process.
  - unfold CodingAgent.markAsRead. on_mail markAsRead_no_process.
  - unfold CodingAgent.deleteEmail. on_mail deleteEmail_no_process.
  - unfold CodingAgent.getEmailContext. on_mail getEmailContext_no_process.
  - unfold CodingAgent.analyzeEmailThread. on_mail analyzeEmailThread_no_process.
  - unfold CodingAgent.getContext. issues_auto.
  - apply setCurrentDirectory_gated.
  - unfold CodingAgent.getMCPContext. issues_auto.
Qed.

Ltac agent_gated :=
  lazymatch goal with
  | |- issues_only _ (CodingAgent.readFile _) =>
      unfold CodingAgent.readFile; on_file readFile_no_process
  | |- issues_only _ (CodingAgent.writeFile _ _) =>
      unfold CodingAgent.writeFile; on_file writeFile_no_process
  | |- issues_only _ (CodingAgent.editFile _ _) =>
      unfold CodingAgent.editFile; on_file editFile_no_process
  | |- issues_only _ (CodingAgent.listFiles _) =>
      unfold CodingAgent.listFiles; on_file listFiles_no_process
  | |- issues_only _ (CodingAgent.executeCommand _) =>
      apply agent_executeCommand_gated
  | |- issues_only _ (CodingAgent.listEmails _) =>
      unfold CodingAgent.listEmails; on_mail listEmails_no_process
  | |- issues_only _ (CodingAgent.getEmail _) =>
      unfold CodingAgent.getEmail; on_mail getEmail_no_process
  | |- issues_only _ (CodingAgent.sendEmail _) =>
      unfold CodingAgent.sendEmail; on_mail sendEmail_no_process
  | |- issues_only _ (CodingAgent.createDraft _) =>
      unfold CodingAgent.createDraft; on_mail createDraft_no_process
  | |- issues_only _ (CodingAgent.searchEmails _ _) =>
      unfold CodingAgent.searchEmails; on_mail searchEmails_no_process
  | |- issues_only _ (CodingAgent.getUnreadEmails _) =>
      unfold CodingAgent.getUnreadEmails; on_mail getUnreadEmails_no_process
  | |- issues_only _ (CodingAgent.markAsRead _) =>
      unfold CodingAgent.markAsRead; on_mail markAsRead_no_process
  | |- issues_only _ (CodingAgent.deleteEmail _) =>
      unfold CodingAgent.deleteEmail; on_mail deleteEmail_no_process
  | |- issues_only _ (CodingAgent.getEmailContext _) =>
      unfold CodingAgent.getEmailContext; on_mail getEmailContext_no_process
  | |- issues_only _ (CodingAgent.analyzeEmailThread _) =>
      unfold CodingAgent.analyzeEmailThread; on_mail analyzeEmailThread_no_process
  | |- issues_only _ (CodingAgent.setCurrentDirectory _) =>
      apply setCurrentDirectory_gated
  | |- issues_only _ (CodingAgent.processMessage _) =>
      apply processMessage_gated
  | |- issues_only _ CodingAgent.getContext =>
      unfold CodingAgent.getContext
  | |- issues_only _ CodingAgent.getMCPContext =>
      unfold CodingAgent.getMCPContext
  | |- issues_only _ (CLI.log _) => unfold CLI.log
  | |- issues_only _ (CLI.logs _) => unfold CLI.logs
  | |- issues_only _ (CLI.report _) => unfold CLI.report
  | |- issues_only _ (CLI.usage _) => unfold CLI.usage
  | |- issues_only _ (CLI.showEmails _ _) => unfold CLI.showEmails
  | |- issues_only _ CLI.displayHelp => unfold CLI.displayHelp
  end.

Ltac cli_gated := repeat first [issues_step | agent_gated].

Lemma handleSpecialCommands_gated input :
  issues_only gated (CLI.handleSpecialCommands input).
Proof.
  unfold CLI.handleSpecialCommands. apply issues_switch.
  - split_Forall; cbn [snd]; cli_gated.
  - cli_gated.
Qed.

Lemma handleBuiltInCommands_gated input :
  issues_only gated (CLI.handleBuiltInCommands input).
Proof.
  unfold CLI.handleBuiltInCommands. apply issues_switch.
  - split_Forall; cbn [snd]; cli_gated.
  - cli_gated.
Qed.

Lemma turn_gated input : issues_only gated (CLI.turn input).
Proof.
  unfold CLI.turn. apply issues_try_catch; [| intros e; cli_gated].
  destruct (trim input); [cli_gated |].
  apply issues_bind; [apply handleSpecialCommands_gated | intros special].
  destruct special; [cli_gated | | cli_gated].
  apply issues_bind; [apply handleBuiltInCommands_gated | intros builtIn].
  cli_gated.
Qed.

(** X7: whatever the model answers and whatever the user types, the only
    events that start a process are plain [exec] calls whose command the
    safety gate accepts: this holds of every operation of the agent
    (message processing, dispatch, direct methods) and of every pass of the
    interactive loop; the variants with a timeout and with [spawn], which
    have no gate, are never used. *)
Theorem X7_only_gated_commands_run :
  (forall op st, all_events gated (perform op st)) /\
  (forall input st, all_events gated (CLI.turn input st)) /\
  (forall op st tr r command cwd o,
     runs (perform op st) tr r ->
     answer (Exec command cwd) o ∈ tr ->
     exists c, command = Some c /\ CommandTools.isSafeCommand c = true).
Proof.
  split; [exact perform_gated |]. split; [exact turn_gated |].
  intros op st tr r command cwd o Hr Hin.
  pose proof (all_events_runs gated _ tr r (perform_gated op st) Hr) as H.
  rewrite Forall_forall in H. exact (H _ Hin).
Qed.

Lemma X7_witness :
  exists c, Some (lit "ls") = Some c /\ CommandTools.isSafeCommand c = true.
Proof.
  apply (proj2 (proj2 X7_only_gated_commands_run)
           (op_executeCommand (lit "ls")) (sample_state None)
           [answer (Exec (Some (lit "ls")) (lit "/work"))
              (Returned (OnClose {| xc_code := Some 0%Z;
                                    xc_stdout := lit "a.txt";
                                    xc_stderr := [] |}))]
           (Ok tt, sample_state None)
           (Some (lit "ls")) (lit "/work")
           (Returned (OnClose {| xc_code := Some 0%Z;
                                 xc_stdout := lit "a.txt";
                                 xc_stderr := [] |}))).
  - simpl. eexists _, _. split; [reflexivity |]. split; reflexivity.
  - left.
Defined.

(** ** The tools never throw *)

Ltac total_leaf :=
  cbv beta iota;
  lazymatch goal with
  | |- (exists res, Ok ?a = Ok res) /\ ?s = ?s => split; [exists a; reflexivity | reflexivity]
  | |- _ => idtac
  end.

Ltac total_steps := repeat (wp_step; total_leaf).

(** X8: the four file operations never throw, whatever the file system
    answers (errors included) and whatever the arguments ([undefined]
    included): they always return a result; and they leave the current
    directory of the tool as it was. *)
Theorem X8_file_operations_total :
  (forall filePath, total_pure (FileTools.readFile filePath)) /\
  (forall filePath content, total_pure (FileTools.writeFile filePath content)) /\
  (forall filePath newContent, total_pure (FileTools.editFile filePath newContent)) /\
  (forall directory, total_pure (FileTools.listFiles directory)).
Proof.
  repeat apply conj; intros; intros ft.
  - unfold FileTools.readFile. total_steps.
  - unfold FileTools.writeFile. total_steps.
  - unfold FileTools.editFile. total_steps.
  - unfold FileTools.listFiles. total_steps.
    apply wp_for_of with (I := fun _ s => s = ft);
      [reflexivity | intros acc s x -> | intros acc s ->]; total_steps.
    reflexivity.
Qed.

Lemma gmail_steady_refl g : gmail_steady g g.
Proof. unfold gmail_steady. auto. Qed.

Lemma gmail_steady_trans g1 g2 g3 :
  gmail_steady g1 g2 -> gmail_steady g2 g3 -> gmail_steady g1 g3.
Proof. unfold gmail_steady. intros [a b] [c d]. split; [congruence | auto]. Qed.

Ltac gmail_leaf :=
  cbv beta iota;
  lazymatch goal with
  | |- (exists res, Ok ?a = Ok res) /\ gmail_steady _ _ =>
      split; [exists a; reflexivity
             | first [assumption | apply gmail_steady_refl
                     | unfold gmail_steady; simpl; auto]]
  | |- _ => idtac
  end.

Ltac gmail_steps := repeat (wp_step; gmail_leaf).

Lemma authenticate_total : gmail_total GmailTools.authenticate.
Proof. intros g. unfold GmailTools.authenticate, GmailTools.failed. gmail_steps. Qed.

Lemma ensureAuthenticated_total : gmail_total GmailTools.ensureAuthenticated.
Proof.
  intros g. unfold GmailTools.ensureAuthenticated. gmail_steps.
  apply authenticate_total.
Qed.

(** A method that starts by making sure it is authenticated. *)
Lemma after_ensureAuthenticated (rest : ToolResult -> M GmailTools.t ToolResult)
    (handler : Exn -> M GmailTools.t ToolResult) g :
  (forall authResult g', gmail_steady g g' ->
     wp (rest authResult) g'
        (fun r g'' =>
           match r with
           | Ok a => (exists res, Ok a = Ok res) /\ gmail_steady g g''
           | Raise e => wp (handler e) g''
                          (fun r g3 => (exists res, r = Ok res) /\ gmail_steady g g3)
           end)) ->
  wp (try_catch (let* authResult := GmailTools.ensureAuthenticated in
                 rest authResult) handler) g
     (fun r g' => (exists res, r = Ok res) /\ gmail_steady g g').
Proof.
  intros Hrest. apply wp_try_catch, wp_bind.
  eapply wp_mono; [apply ensureAuthenticated_total |].
  intros [authResult | e] g' [[res Hres] Hst]; [| discriminate Hres].
  apply Hrest, Hst.
Qed.

Ltac gmail_method :=
  intros g; unfold GmailTools.failed; apply after_ensureAuthenticated;
  intros authResult g' Hst; gmail_steps.

Lemma getEmail_total id : gmail_total (GmailTools.getEmail id).
Proof. unfold GmailTools.getEmail. gmail_method. Qed.

Lemma listEmails_total o : gmail_total (GmailTools.listEmails o).
Proof.
  unfold GmailTools.listEmails. gmail_method.
  apply wp_for_of with (I := fun _ s => gmail_steady g s);
    [exact Hst | intros acc s x Hs | intros acc s Hs].
  - apply wp_bind. eapply wp_mono; [apply getEmail_total |].
    intros [r | e] s' [[res Hres] Hs']; [| discriminate Hres].
    apply wp_ret. eapply gmail_steady_trans; eauto.
  - gmail_steps.
Qed.

Lemma getEmailContext_total id : gmail_total (GmailTools.getEmailContext id).
Proof.
  intros g. unfold GmailTools.getEmailContext, GmailTools.failed.
  apply wp_try_catch, wp_bind.
  eapply wp_mono; [apply getEmail_total |].
  intros [emailResult | e] g' [[res Hres] Hst]; [| discriminate Hres].
  gmail_steps.
Qed.

(** X9: the ten mailbox operations never throw, whatever the remote
    service answers: authentication and transport failures come back as
    results; they never change the configuration of the tools, and tools
    that are authenticated stay so. *)
Theorem X9_mailbox_operations_total :
  (forall options, gmail_total (GmailTools.listEmails options)) /\
  (forall messageId, gmail_total (GmailTools.getEmail messageId)) /\
  (forall draft, gmail_total (GmailTools.sendEmail draft)) /\
  (forall draft, gmail_total (GmailTools.createDraft draft)) /\
  (forall query maxResults, gmail_total (GmailTools.searchEmails query maxResults)) /\
  (forall maxResults, gmail_total (GmailTools.getUnreadEmails maxResults)) /\
  (forall messageId, gmail_total (GmailTools.markAsRead messageId)) /\
  (forall messageId, gmail_total (GmailTools.deleteEmail messageId)) /\
  (forall messageId, gmail_total (GmailTools.getEmailContext messageId)) /\
  (forall threadId, gmail_total (GmailTools.analyzeEmailThread threadId)).
Proof.
  repeat apply conj; intros.
  - apply listEmails_total.
  - apply getEmail_total.
  - unfold GmailTools.sendEmail. gmail_method.
  - unfold GmailTools.createDraft. gmail_method.
  - apply listEmails_total.
  - apply listEmails_total.
  - unfold GmailTools.markAsRead. gmail_method.
  - unfold GmailTools.deleteEmail. gmail_method.
  - apply getEmailContext_total.
  - unfold GmailTools.analyzeEmailThread. gmail_method.
Qed.

(** ** Running commands *)

(** X10: [executeCommand] issues exactly one event, the [exec] of the
    command in the current directory of the tool, which it leaves as it
    was.  If the process closes, the result is a success exactly when the
    exit code is 0, and its data record the output, the error output (if
    not empty) and the exit code, 0 standing also for no code at all (a
    process ended by a signal, which is reported as a failure).  If [exec]
    itself throws, so does [executeCommand]: it is the one tool method that
    can. *)
Theorem X10_executeCommand_outcomes :
  forall command ct tr r ct',
    runs (CommandTools.executeCommand command ct) tr (r, ct') ->
    ct' = ct /\
    exists o,
      tr = [answer (Exec command (CommandTools.currentDirectory ct)) o] /\
      match o with
      | Returned (OnClose c) =>
          exists res,
            r = Ok res /\
            (success res = true <-> xc_code c = Some 0%Z) /\
            data res
            = Some (DCommand
                      {| ce_command := command;
                         ce_output := xc_stdout c;
                         ce_error := match xc_stderr c with
                                     | [] => None
                                     | e => Some e
                                     end;
                         ce_exitCode := default 0%Z (xc_code c) |})
      | Returned (OnError e) =>
          exists res, r = Ok res /\ success res = false /\ data res = None
      | Thrown e => r = Raise e
      end.
Proof.
  intros command ct tr r ct' H. simpl in H.
  destruct H as (o & tr' & -> & H).
  destruct o as [[c | e] | e]; simpl in H.
  - destruct c as [[[| p | p] |] out err]; simpl in H;
      destruct H as [-> [= -> ->]]; (split; [reflexivity |]);
      eexists; (split; [reflexivity |]); eexists; (split; [reflexivity |]);
      simpl; (split; [split; [auto; discriminate | auto; discriminate] | reflexivity]).
  - destruct H as [-> [= -> ->]]. split; [reflexivity |].
    eexists; split; [reflexivity |]. eexists; simpl; auto.
  - destruct H as [-> [= -> ->]]. split; [reflexivity |].
    eexists; split; reflexivity.
Qed.

Lemma X10_witness :
  sample_state None = sample_state None /\
  exists o,
    [answer (Exec (Some (lit "kill -9 $$")) (lit "/work"))
       (Returned (OnClose {| xc_code := None; xc_stdout := []; xc_stderr := [] |}))]
    = [answer (Exec (Some (lit "kill -9 $$")) (lit "/work")) o] /\
    match o with
    | Returned (OnClose c) =>
        exists res,
          Ok {| success := false;
                data := Some (DCommand
                                {| ce_command := Some (lit "kill -9 $$");
                                   ce_output := []; ce_error := None;
                                   ce_exitCode := 0 |});
                error := Some (lit "Command failed");
                message := lit "Command failed with exit code null: kill -9 $$" |}
          = Ok res /\
          (success res = true <-> xc_code c = Some 0%Z) /\
          data res
          = Some (DCommand
                    {| ce_command := Some (lit "kill -9 $$");
                       ce_output := xc_stdout c;
                       ce_error := match xc_stderr c with
                                   | [] => None
                                   | e => Some e
                                   end;
                       ce_exitCode := default 0%Z (xc_code c) |})
    | Returned (OnError e) =>
        exists res : ToolResult,
          Ok {| success := false;
                data := Some (DCommand
                                {| ce_command := Some (lit "kill -9 $$");
                                   ce_output := []; ce_error := None;
                                   ce_exitCode := 0 |});
                error := Some (lit "Command failed");
                message := lit "Command failed with exit code null: kill -9 $$" |}
          = Ok res /\ success res = false /\ data res = None
    | Thrown e =>
        Ok {| success := false;
              data := Some (DCommand
                              {| ce_command := Some (lit "kill -9 $$");
                                 ce_output := []; ce_error := None;
                                 ce_exitCode := 0 |});
              error := Some (lit "Command failed");
              message := lit "Command failed with exit code null: kill -9 $$" |}
        = Raise e
    end.
Proof.
  destruct (X10_executeCommand_outcomes (Some (lit "kill -9 $$"))
              {| CommandTools.currentDirectory := lit "/work" |}
              [answer (Exec (Some (lit "kill -9 $$")) (lit "/work"))
                 (Returned (OnClose {| xc_code := None; xc_stdout := [];
                                       xc_stderr := [] |}))]
              (Ok {| success := false;
                     data := Some (DCommand
                                     {| ce_command := Some (lit "kill -9 $$");
                                        ce_output := []; ce_error := None;
                                        ce_exitCode := 0 |});
                     error := Some (lit "Command failed");
                     message := lit "Command failed with exit code null: kill -9 $$" |})
              {| CommandTools.currentDirectory := lit "/work" |}) as [_ H].
  - simpl. eexists _, _. split; [reflexivity |]. split; reflexivity.
  - split; [reflexivity | exact H].
Defined.

Lemma split_not_nil sep s : split sep s <> [].
Proof.
  destruct s as [|c s]; simpl; [discriminate |].
  destruct (Ascii.eqb c sep); [discriminate |].
  destruct (split sep s); discriminate.
Qed.

(** Joining the pieces of a split with the separator gives the text back. *)
Lemma join_split sep s : join [sep] (split sep s) = s.
Proof.
  induction s as [|c s IH]; simpl; [reflexivity |].
  pose proof (split_not_nil sep s) as Hn.
  destruct (split sep s) as [|t ts]; [congruence |].
  destruct (Ascii.eqb_spec c sep) as [-> | Hne].
  - simpl. rewrite <- IH. reflexivity.
  - destruct ts; simpl in *; subst; reflexivity.
Qed.




(** ** The file tools at the edges *)

(** X12: a file that does not exist is neither read nor created by
    [readFile] and [editFile]: after the existence test the run ends, in
    the failed result whose error names the path as it was given;
    [writeFile] creates the directory of the file when it is missing, and
    its result carries the length of the content; an error thrown by the
    file system comes back as a failed result with the message of the
    error; and writing [undefined] fails even when the file system accepts
    the write. *)
Theorem X12_file_edge_cases :
  forall (filePath content full dir : JsString) (ft : FileTools.t) (msg : JsString),
    let cwd := FileTools.currentDirectory ft in
    runs (FileTools.readFile (Some filePath) ft)
      [answer (PathResolve cwd (Some filePath)) (Returned full);
       answer (ExistsSync full) (Returned false)]
      (Ok {| success := false;
             data := None;
             error := Some (lit "File not found: " ++ filePath);
             message := lit "File " ++ filePath ++ lit " does not exist" |}, ft) /\
    runs (FileTools.editFile (Some filePath) (Some content) ft)
      [answer (PathResolve cwd (Some filePath)) (Returned full);
       answer (ExistsSync full) (Returned false)]
      (Ok {| success := false;
             data := None;
             error := Some (lit "File not found: " ++ filePath);
             message := lit "Cannot edit non-existent file: " ++ filePath |}, ft) /\
    runs (FileTools.writeFile (Some filePath) (Some content) ft)
      [answer (PathResolve cwd (Some filePath)) (Returned full);
       answer (PathDirname full) (Returned dir);
       answer (ExistsSync dir) (Returned false);
       answer (MkdirSync dir) (Returned tt);
       answer (WriteFileSync full (Some content)) (Returned tt)]
      (Ok {| success := true;
             data := Some (DWritten (Some filePath) (length content));
             error := None;
             message := lit "Successfully wrote file: " ++ filePath |}, ft) /\
    runs (FileTools.readFile (Some filePath) ft)
      [answer (PathResolve cwd (Some filePath)) (Returned full);
       answer (ExistsSync full) (Returned true);
       answer (ReadFileSync full) (Thrown (JsError msg))]
      (Ok {| success := false;
             data := None;
             error := Some msg;
             message := lit "Failed to read file: " ++ filePath |}, ft) /\
    runs (FileTools.writeFile (Some filePath) None ft)
      [answer (PathResolve cwd (Some filePath)) (Returned full);
       answer (PathDirname full) (Returned dir);
       answer (ExistsSync dir) (Returned true);
       answer (WriteFileSync full None) (Returned tt)]
      (Ok {| success := false;
             data := None;
             error := Some (lit "Cannot read properties of undefined (reading 'length')");
             message := lit "Failed to write file: " ++ filePath |}, ft).
Proof.
  intros filePath content full dir ft msg cwd. unfold cwd.
  repeat apply conj; simpl;
    repeat (eexists _, _; split; [reflexivity |]); split; reflexivity.
Qed.

(** ** The model call *)

(** X13: [callOpenAI] never changes the state and never returns an empty
    text; when the request fails, the failure is logged and the fixed
    apology is returned; when the reply has no content, or an empty one,
    the text "No response from AI" is. *)
Theorem X13_callOpenAI_recovers :
  forall (messages : list ChatMessage) (st : CodingAgent.state) (e : Exn),
    let cfg := CodingAgent.config (CodingAgent.this st) in
    let request := ChatCompletionsCreate messages (maxTokens cfg) (temperature cfg) in
    wp (CodingAgent.callOpenAI messages) st
       (fun r st' => st' = st /\ forall text, r = Ok text -> text <> []) /\
    runs (CodingAgent.callOpenAI messages st)
      [answer request (Thrown e);
       answer (ConsoleError (lit "Error calling OpenAI:")) (Returned tt)]
      (Ok (lit "Sorry, I encountered an error while processing your request."), st) /\
    runs (CodingAgent.callOpenAI messages st) [answer request (Returned None)]
      (Ok (lit "No response from AI"), st) /\
    runs (CodingAgent.callOpenAI messages st) [answer request (Returned (Some []))]
      (Ok (lit "No response from AI"), st).
Proof.
  intros messages st e cfg request. unfold cfg, request. repeat apply conj.
  - unfold CodingAgent.callOpenAI. wp_steps; (split; [reflexivity |]);
      intros text [= <-]; try discriminate.
    destruct a as [[|c s] |]; discriminate.
  - simpl. repeat (eexists _, _; split; [reflexivity |]). split; reflexivity.
  - simpl. repeat (eexists _, _; split; [reflexivity |]). split; reflexivity.
  - simpl. repeat (eexists _, _; split; [reflexivity |]). split; reflexivity.
Qed.

(** ** What the tools leave alone *)

Section Preserved.
Variable R : CodingAgent.state -> CodingAgent.state -> Prop.
Hypothesis R_refl : forall st, R st st.
Hypothesis R_trans : forall a b c, R a b -> R b c -> R a c.
Hypothesis R_fileTools : forall t st, R st (CodingAgent.set_fileTools t st).
Hypothesis R_commandTools : forall t st, R st (CodingAgent.set_commandTools t st).
Hypothesis R_gmailTools : forall g st, R st (CodingAgent.set_gmailTools (Some g) st).

Lemma preserves_ret {A} (a : A) : preserves R (ret a).
Proof using All. intros st. apply wp_ret, R_refl. Qed.

Lemma preserves_throw {A} e : preserves R (@throw _ A e).
Proof using All. intros st. apply wp_throw, R_refl. Qed.

Lemma preserves_gets {A} (f : CodingAgent.state -> A) : preserves R (gets f).
Proof using All. intros st. apply wp_gets, R_refl. Qed.

Lemma preserves_call {A} (e : Event A) : preserves R (call e).
Proof using All. intros st. apply wp_call; intros; apply R_refl. Qed.

Lemma preserves_bind {A B} (m : M CodingAgent.state B)
    (f : B -> M CodingAgent.state A) :
  preserves R m -> (forall b, preserves R (f b)) -> preserves R (bind m f).
Proof using All.
  intros Hm Hf st. apply wp_bind. eapply wp_mono; [apply Hm |].
  intros [b | e] s1 Hk; [| exact Hk].
  eapply wp_mono; [apply Hf |]. intros r s2 Hk2. eapply R_trans; eauto.
Qed.

Lemma preserves_try_catch {A} (body : M CodingAgent.state A)
    (handler : Exn -> M CodingAgent.state A) :
  preserves R body -> (forall e, preserves R (handler e)) ->
  preserves R (try_catch body handler).
Proof using All.
  intros Hm Hf st. apply wp_try_catch. eapply wp_mono; [apply Hm |].
  intros [b | e] s1 Hk; [exact Hk |].
  eapply wp_mono; [apply Hf |]. intros r s2 Hk2. eapply R_trans; eauto.
Qed.

Lemma preserves_on_fileTools {A} (m : M FileTools.t A) :
  preserves R (CodingAgent.on_fileTools m).
Proof using All.
  intros st. apply wp_zoom. eapply wp_mono; [apply wp_trivial |].
  intros r t1 _. apply R_fileTools.
Qed.

Lemma preserves_on_commandTools {A} (m : M CommandTools.t A) :
  preserves R (CodingAgent.on_commandTools m).
Proof using All.
  intros st. apply wp_zoom. eapply wp_mono; [apply wp_trivial |].
  intros r t1 _. apply R_commandTools.
Qed.

Lemma preserves_on_gmailTools {A} g (m : M GmailTools.t A) :
  preserves R (CodingAgent.on_gmailTools g m).
Proof using All.
  intros st. apply wp_zoom. eapply wp_mono; [apply wp_trivial |].
  intros r t1 _. apply R_gmailTools.
Qed.

Lemma preserves_switch {A} x (cases : list (JsString * M CodingAgent.state A))
    otherwise :
  Forall (fun c => preserves R (snd c)) cases -> preserves R otherwise ->
  preserves R (switch x cases otherwise).
Proof using All.
  intros Hc Ho. induction Hc as [| [label body] cases Hb _ IH]; simpl;
    [exact Ho |].
  destruct (jseq x label); [exact Hb | exact IH].
Qed.

Lemma preserves_for_of {X A} (xs : list X) (acc : A)
    (body : A -> X -> M CodingAgent.state A) :
  (forall acc x, preserves R (body acc x)) -> preserves R (for_of xs acc body).
Proof using All.
  intros Hb. revert acc. induction xs as [|x xs IH]; intros acc; simpl.
  - apply preserves_ret.
  - apply preserves_bind; [apply Hb | intros b; apply IH].
Qed.

Ltac preserves_step :=
  lazymatch goal with
  | |- preserves _ (ret _) => apply preserves_ret
  | |- preserves _ (throw _) => apply preserves_throw
  | |- preserves _ (gets _) => apply preserves_gets
  | |- preserves _ (call _) => apply preserves_call
  | |- preserves _ (bind _ _) => apply preserves_bind; [| intros ?]
  | |- preserves _ (try_catch _ _) => apply preserves_try_catch; [| intros ?]
  | |- preserves _ (CodingAgent.on_fileTools _) => apply preserves_on_fileTools
  | |- preserves _ (CodingAgent.on_commandTools _) => apply preserves_on_commandTools
  | |- preserves _ (CodingAgent.on_gmailTools _ _) => apply preserves_on_gmailTools
  | |- preserves _ (for_of _ _ _) => apply preserves_for_of; intros ? ?
  | |- preserves _ (receiver _ ?v) => destruct v; unfold receiver
  | |- preserves _ (if ?b then _ else _) => destruct b
  | |- preserves _ (match ?x with _ => _ end) => destruct x
  end.

Ltac preserves_auto := repeat preserves_step.

Lemma preserves_ifGmail (m : M GmailTools.t ToolResult) :
  preserves R (CodingAgent.ifGmail m).
Proof using All. unfold CodingAgent.ifGmail. preserves_auto. Qed.

Lemma preserves_dispatch funcName args :
  preserves R (CodingAgent.dispatch funcName args).
Proof using All.
  unfold CodingAgent.dispatch. apply preserves_switch.
  - split_Forall; cbn [snd]; try apply preserves_ifGmail;
      try apply preserves_on_fileTools.
    unfold CommandTools.isSafeCommand_arg. preserves_auto.
  - preserves_auto.
Qed.

Lemma preserves_executeToolCall toolCall :
  preserves R (CodingAgent.executeToolCall toolCall).
Proof using All.
  unfold CodingAgent.executeToolCall.
  apply preserves_try_catch; [| intros e; preserves_auto].
  destruct (match_call toolCall) as [[funcName argsStr] |]; [| preserves_auto].
  apply preserves_bind; [apply preserves_dispatch | intros; preserves_auto].
Qed.

Lemma preserves_parseAndExecuteTools response :
  preserves R (CodingAgent.parseAndExecuteTools response).
Proof using All.
  unfold CodingAgent.parseAndExecuteTools.
  destruct (match_toolCalls response); [| preserves_auto].
  apply preserves_for_of. intros acc x.
  apply preserves_bind; [apply preserves_executeToolCall | intros; preserves_auto].
Qed.

Lemma preserves_generateSystemPrompt : preserves R CodingAgent.generateSystemPrompt.
Proof using All. unfold CodingAgent.generateSystemPrompt. preserves_auto. Qed.

Lemma preserves_callOpenAI messages : preserves R (CodingAgent.callOpenAI messages).
Proof using All. unfold CodingAgent.callOpenAI. preserves_auto. Qed.

Lemma preserves_direct_methods :
  (forall p, preserves R (CodingAgent.readFile p)) /\
  (forall p c, preserves R (CodingAgent.writeFile p c)) /\
  (forall p c, preserves R (CodingAgent.editFile p c)) /\
  (forall c, preserves R (CodingAgent.executeCommand c)) /\
  (forall d, preserves R (CodingAgent.listFiles d)) /\
  (forall o, preserves R (CodingAgent.listEmails o)) /\
  (forall i, preserves R (CodingAgent.getEmail i)) /\
  (forall d, preserves R (CodingAgent.sendEmail d)) /\
  (forall d, preserves R (CodingAgent.createDraft d)) /\
  (forall q n, preserves R (CodingAgent.searchEmails q n)) /\
  (forall n, preserves R (CodingAgent.getUnreadEmails n)) /\
  (forall i, preserves R (CodingAgent.markAsRead i)) /\
  (forall i, preserves R (CodingAgent.deleteEmail i)) /\
  (forall i, preserves R (CodingAgent.getEmailContext i)) /\
  (forall i, preserves R (CodingAgent.analyzeEmailThread i)) /\
  preserves R CodingAgent.getContext /\
  preserves R CodingAgent.getMCPContext.
Proof using All.
  repeat apply conj; intros;
    first [apply preserves_ifGmail | apply preserves_on_fileTools | idtac].
  - unfold CodingAgent.executeCommand. preserves_auto.
  - unfold CodingAgent.getContext. preserves_auto.
  - unfold CodingAgent.getMCPContext. preserves_auto.
Qed.

Hypothesis R_context : forall directory st,
  R st (CodingAgent.set_context
          {| currentDirectory := directory;
             recentFiles := recentFiles (CodingAgent.context (CodingAgent.this st));
             recentCommands :=
               recentCommands (CodingAgent.context (CodingAgent.this st));
             conversationHistory :=
               conversationHistory (CodingAgent.context (CodingAgent.this st)) |}
          st).

Lemma preserves_setCurrentDirectory directory :
  preserves R (CodingAgent.setCurrentDirectory directory).
Proof using All.
  unfold CodingAgent.setCurrentDirectory.
  apply preserves_bind; [| intros _; preserves_auto].
  intros st. apply wp_modify, R_context.
Qed.

Ltac cli_preserves :=
  repeat first
    [ preserves_step
    | lazymatch goal with
      | |- preserves _ (CodingAgent.ifGmail _) => apply preserves_ifGmail
      | |- preserves _ (CodingAgent.setCurrentDirectory _) =>
          apply preserves_setCurrentDirectory
      | |- preserves _ (CodingAgent.readFile _) => unfold CodingAgent.readFile
      | |- preserves _ (CodingAgent.writeFile _ _) => unfold CodingAgent.writeFile
      | |- preserves _ (CodingAgent.listFiles _) => unfold CodingAgent.listFiles
      | |- preserves _ (CodingAgent.executeCommand _) =>
          unfold CodingAgent.executeCommand
      | |- preserves _ (CodingAgent.listEmails _) => unfold CodingAgent.listEmails
      | |- preserves _ (CodingAgent.getEmail _) => unfold CodingAgent.getEmail
      | |- preserves _ (CodingAgent.sendEmail _) => unfold CodingAgent.sendEmail
      | |- preserves _ (CodingAgent.createDraft _) => unfold CodingAgent.createDraft
      | |- preserves _ (CodingAgent.searchEmails _ _) =>
          unfold CodingAgent.searchEmails
      | |- preserves _ (CodingAgent.getUnreadEmails _) =>
          unfold CodingAgent.getUnreadEmails
      | |- preserves _ (CodingAgent.markAsRead _) => unfold CodingAgent.markAsRead
      | |- preserves _ (CodingAgent.deleteEmail _) => unfold CodingAgent.deleteEmail
      | |- preserves _ (CodingAgent.analyzeEmailThread _) =>
          unfold CodingAgent.analyzeEmailThread
      | |- preserves _ (CLI.log _) => unfold CLI.log
      | |- preserves _ (CLI.logs _) => unfold CLI.logs
      | |- preserves _ (CLI.report _) => unfold CLI.report
      | |- preserves _ (CLI.usage _) => unfold CLI.usage
      | |- preserves _ (CLI.showEmails _ _) => unfold CLI.showEmails
      end ].

Lemma preserves_handleBuiltInCommands input :
  preserves R (CLI.handleBuiltInCommands input).
Proof using All.
  unfold CLI.handleBuiltInCommands. apply preserves_switch.
  - split_Forall; cbn [snd]; cli_preserves.
  - cli_preserves.
Qed.

End Preserved.

Lemma untouched_refl st : untouched st st.
Proof. unfold untouched. auto. Qed.

Lemma untouched_trans a b c : untouched a b -> untouched b c -> untouched a c.
Proof. unfold untouched. intros (x & y & z) (x1 & y1 & z1). repeat split; congruence. Qed.

(** X14: dispatching the calls of a response, and every direct tool
    method of the agent, leave the store (history and recent arrays), the
    context and the configuration of the agent exactly as they were,
    whatever the tools do and whether or not they fail: the tools can only
    change their own state. *)
Theorem X14_tools_leave_context_alone :
  (forall response, preserves untouched (CodingAgent.parseAndExecuteTools response)) /\
  (forall funcName args, preserves untouched (CodingAgent.dispatch funcName args)) /\
  (forall p, preserves untouched (CodingAgent.readFile p)) /\
  (forall p c, preserves untouched (CodingAgent.writeFile p c)) /\
  (forall p c, preserves untouched (CodingAgent.editFile p c)) /\
  (forall c, preserves untouched (CodingAgent.executeCommand c)) /\
  (forall d, preserves untouched (CodingAgent.listFiles d)) /\
  (forall o, preserves untouched (CodingAgent.listEmails o)) /\
  (forall i, preserves untouched (CodingAgent.getEmail i)) /\
  (forall d, preserves untouched (CodingAgent.sendEmail d)) /\
  (forall d, preserves untouched (CodingAgent.createDraft d)) /\
  (forall q n, preserves untouched (CodingAgent.searchEmails q n)) /\
  (forall n, preserves untouched (CodingAgent.getUnreadEmails n)) /\
  (forall i, preserves untouched (CodingAgent.markAsRead i)) /\
  (forall i, preserves untouched (CodingAgent.deleteEmail i)) /\
  (forall i, preserves untouched (CodingAgent.getEmailContext i)) /\
  (forall i, preserves untouched (CodingAgent.analyzeEmailThread i)) /\
  preserves untouched CodingAgent.getContext /\
  preserves untouched CodingAgent.getMCPContext.
Proof.
  assert (Hf : forall t st, untouched st (CodingAgent.set_fileTools t st))
    by (intros; unfold untouched; auto).
  assert (Hc : forall t st, untouched st (CodingAgent.set_commandTools t st))
    by (intros; unfold untouched; auto).
  assert (Hg : forall g st, untouched st (CodingAgent.set_gmailTools (Some g) st))
    by (intros; unfold untouched; auto).
  split; [intros response; apply (preserves_parseAndExecuteTools untouched);
            eauto using untouched_refl, untouched_trans |].
  split; [intros funcName args; apply (preserves_dispatch untouched);
            eauto using untouched_refl, untouched_trans |].
  apply (preserves_direct_methods untouched);
    eauto using untouched_refl, untouched_trans.
Qed.

(** ** The conversation history *)

Lemma untouched_set_fileTools t st : untouched st (CodingAgent.set_fileTools t st).
Proof. unfold untouched. auto. Qed.

Lemma untouched_set_commandTools t st :
  untouched st (CodingAgent.set_commandTools t st).
Proof. unfold untouched. auto. Qed.

Lemma untouched_set_gmailTools g st :
  untouched st (CodingAgent.set_gmailTools (Some g) st).
Proof. unfold untouched. auto. Qed.

Lemma generateSystemPrompt_untouched :
  preserves untouched CodingAgent.generateSystemPrompt.
Proof.
  apply preserves_generateSystemPrompt;
    eauto using untouched_refl, untouched_trans, untouched_set_fileTools,
      untouched_set_commandTools, untouched_set_gmailTools.
Qed.

Lemma callOpenAI_untouched messages :
  preserves untouched (CodingAgent.callOpenAI messages).
Proof.
  apply preserves_callOpenAI;
    eauto using untouched_refl, untouched_trans, untouched_set_fileTools,
      untouched_set_commandTools, untouched_set_gmailTools.
Qed.

Lemma parseAndExecuteTools_untouched response :
  preserves untouched (CodingAgent.parseAndExecuteTools response).
Proof.
  apply preserves_parseAndExecuteTools;
    eauto using untouched_refl, untouched_trans, untouched_set_fileTools,
      untouched_set_commandTools, untouched_set_gmailTools.
Qed.

Lemma grown_untouched msgs a b c :
  grown msgs a b -> untouched b c -> grown msgs a c.
Proof.
  unfold grown, untouched, history_of.
  intros (H1 & H2 & H3 & H4 & H5) (U1 & U2 & U3).
  rewrite U1, U2, U3. auto.
Qed.

Lemma grown_app m1 m2 a b c :
  grown m1 a b -> grown m2 b c -> grown (m1 ++ m2) a c.
Proof.
  unfold grown. intros (H1 & H2 & H3 & H4 & H5) (G1 & G2 & G3 & G4 & G5).
  repeat apply conj; try congruence.
  - rewrite G1, H1. destruct (history_of a); simpl; [| reflexivity].
    rewrite app_assoc. reflexivity.
  - intros l Hl. rewrite G5 by congruence. apply H5, Hl.
Qed.

Lemma grown_nil st : grown [] st st.
Proof.
  unfold grown. repeat apply conj; try reflexivity.
  destruct (history_of st); simpl; [rewrite app_nil_r |]; reflexivity.
Qed.

Lemma pushHistory_grown r text st :
  wp (CodingAgent.pushHistory r text) st (fun res st' =>
    match res with
    | Ok _ => exists t,
        grown [{| role := r; content := text; timestamp := t |}] st st'
    | Raise _ => st' = st
    end).
Proof.
  unfold CodingAgent.pushHistory. apply wp_bind, wp_call.
  - intros now. apply wp_modify. exists now.
    unfold grown, history_of. simpl. rewrite lookup_alter_eq.
    repeat apply conj; try reflexivity.
    intros l Hl. apply lookup_alter_ne. congruence.
  - intros x. reflexivity.
Qed.

(** What [processMessage] does to the history. *)
Lemma processMessage_grown :
  forall userMessage st,
    wp (CodingAgent.processMessage userMessage) st (fun r st' =>
      exists msgs, grown msgs st st' /\
        match r with
        | Ok text => exists t1 t2,
            msgs = [{| role := user; content := userMessage; timestamp := t1 |};
                    {| role := assistant; content := text; timestamp := t2 |}]
        | Raise _ =>
            msgs = [] \/
            exists t1,
              msgs = [{| role := user; content := userMessage; timestamp := t1 |}]
        end).
Proof.
  intros userMessage st. unfold CodingAgent.processMessage.
  apply wp_bind. eapply wp_mono; [apply pushHistory_grown |].
  intros [_ | e] s1 H1; cbv beta iota;
    [| subst; exists []; split; [apply grown_nil | auto]].
  destruct H1 as [t1 H1].
  assert (Hraise : forall s,
    untouched s1 s ->
    exists msgs, grown msgs st s /\
      (msgs = [] \/
       exists t1,
         msgs = [{| role := user; content := userMessage; timestamp := t1 |}])).
  { intros s Hs. eexists. split; [eapply grown_untouched; eauto | eauto]. }
  apply wp_bind. eapply wp_mono; [apply generateSystemPrompt_untouched |].
  intros [systemPrompt | e] s2 H2; cbv beta iota; [| auto].
  apply wp_bind, wp_gets.
  apply wp_bind. eapply wp_mono; [apply callOpenAI_untouched |].
  intros [aiResponse | e] s3 H3; cbv beta iota;
    [| eauto using untouched_trans].
  apply wp_bind. eapply wp_mono; [apply parseAndExecuteTools_untouched |].
  intros [toolResults | e] s4 H4; cbv beta iota;
    [| eauto using untouched_trans].
  assert (Hu : untouched s1 s4) by eauto using untouched_trans.
  apply wp_bind. eapply wp_mono; [apply pushHistory_grown |].
  intros [_ | e] s5 H5; cbv beta iota; [| subst; auto].
  destruct H5 as [t2 H5]. apply wp_ret.
  eexists. split.
  - eapply grown_app; [eapply grown_untouched; eauto | exact H5].
  - simpl. eauto.
Qed.

(** X15: processing a message pushes on the conversation history, after
    what was there, the message of the user as given and then the reply of
    the assistant, the very text the method returns; no other array of the
    store changes, nor the context, nor the configuration.  If the method
    throws, the history has grown by the message of the user at most. *)
Theorem X15_processMessage_records_the_exchange :
  forall userMessage st,
    wp (CodingAgent.processMessage userMessage) st (fun r st' =>
      exists msgs,
        grown msgs st st' /\
        (forall h, history_of st = Some h -> history_of st' = Some (h ++ msgs)) /\
        match r with
        | Ok text => exists t1 t2,
            msgs = [{| role := user; content := userMessage; timestamp := t1 |};
                    {| role := assistant; content := text; timestamp := t2 |}]
        | Raise _ =>
            msgs = [] \/
            exists t1,
              msgs = [{| role := user; content := userMessage; timestamp := t1 |}]
        end).
Proof.
  intros userMessage st.
  eapply wp_mono; [apply processMessage_grown |].
  intros r st' (msgs & Hg & Hm). exists msgs.
  split; [exact Hg |]. split; [| exact Hm].
  intros h Hh. destruct Hg as [Hg _]. rewrite Hg, Hh. reflexivity.
Qed.

(** ** Changing directory *)

(** X16: [setCurrentDirectory] issues one event, the [path.resolve] of the
    file tools.  The context always ends with the directory exactly as it
    was given, not resolved; the store, the configuration, the mailbox tools
    and the arrays of the context are left alone.  When [path.resolve]
    returns, the file tools hold the resolved directory and the command
    tools the directory as given; when it throws, the method throws with
    the context already changed and both tools still on the old
    directory. *)
Theorem X16_setCurrentDirectory_updates :
  forall (directory resolved : JsString) (x : Exn) (st : CodingAgent.state),
    let moved :=
      CodingAgent.set_context
        {| currentDirectory := directory;
           recentFiles := recentFiles (CodingAgent.context (CodingAgent.this st));
           recentCommands :=
             recentCommands (CodingAgent.context (CodingAgent.this st));
           conversationHistory :=
             conversationHistory (CodingAgent.context (CodingAgent.this st)) |}
        st in
    wp (CodingAgent.setCurrentDirectory directory) st (fun r st' =>
      currentDirectory (CodingAgent.context (CodingAgent.this st')) = directory /\
      CodingAgent.store st' = CodingAgent.store st /\
      CodingAgent.config (CodingAgent.this st')
      = CodingAgent.config (CodingAgent.this st) /\
      CodingAgent.gmailTools (CodingAgent.this st')
      = CodingAgent.gmailTools (CodingAgent.this st) /\
      match r with
      | Ok _ =>
          CommandTools.currentDirectory (CodingAgent.commandTools (CodingAgent.this st'))
          = directory
      | Raise _ => st' = moved
      end) /\
    runs (CodingAgent.setCurrentDirectory directory st)
      [answer (PathResolve1 directory) (Returned resolved)]
      (Ok tt,
       CodingAgent.set_commandTools {| CommandTools.currentDirectory := directory |}
         (CodingAgent.set_fileTools {| FileTools.currentDirectory := resolved |}
            moved)) /\
    runs (CodingAgent.setCurrentDirectory directory st)
      [answer (PathResolve1 directory) (Thrown x)]
      (Raise x, moved) /\
    CodingAgent.fileTools (CodingAgent.this moved)
    = CodingAgent.fileTools (CodingAgent.this st) /\
    CodingAgent.commandTools (CodingAgent.this moved)
    = CodingAgent.commandTools (CodingAgent.this st).
Proof.
  intros directory resolved x st moved. unfold moved. repeat apply conj.
  - unfold CodingAgent.setCurrentDirectory, CodingAgent.on_fileTools,
      CodingAgent.on_commandTools, FileTools.setCurrentDirectory,
      CommandTools.setCurrentDirectory.
    wp_steps; simpl; auto 10.
  - simpl. eexists _, _. split; [reflexivity |]. split; reflexivity.
  - simpl. eexists _, _. split; [reflexivity |]. split; reflexivity.
  - reflexivity.
  - reflexivity.
Qed.

(** ** The constructor *)

(** X17: a new agent gets three arrays of its own: their locations are not
    in use in the store it is built in, the two arrays of strings are
    different arrays, all the arrays that were there are left as they were,
    and the history starts empty.  The agent keeps the configuration it was
    given and has mailbox tools, not yet authenticated, exactly when a
    mailbox configuration was given.  When the constructor throws, the
    store is as it was. *)
Theorem X17_new_agent_owns_its_arrays :
  forall config gmailConfig h0,
    wp (CodingAgent.new config gmailConfig) h0 (fun r h =>
      match r with
      | Ok agent =>
          let c := CodingAgent.context agent in
          (recentFiles c ∉ dom (string_arrays h0)) /\
          (recentCommands c ∉ dom (string_arrays h0)) /\
          recentFiles c <> recentCommands c /\
          (conversationHistory c ∉ dom (message_arrays h0)) /\
          (string_arrays h0 ⊆ string_arrays h) /\
          (message_arrays h0 ⊆ message_arrays h) /\
          message_arrays h !! conversationHistory c = Some [] /\
          CodingAgent.config agent = config /\
          CodingAgent.gmailTools agent = GmailTools.new <$> gmailConfig /\
          (forall g, CodingAgent.gmailTools agent = Some g ->
                     GmailTools.isAuthenticated g = false)
      | Raise _ => h = h0
      end).
Proof.
  intros config gmailConfig h0.
  unfold CodingAgent.new, FileTools.new, CommandTools.new.
  wp_steps; try reflexivity.
  unfold wp. simpl.
  set (m := string_arrays h0). set (l1 := fresh (dom m)).
  set (l2 := fresh (dom (<[l1:=[]]> m))).
  set (l3 := fresh (dom (message_arrays h0))).
  assert (H1 : l1 ∉ dom m) by apply is_fresh.
  assert (H2 : l2 ∉ dom (<[l1:=[]]> m)) by apply is_fresh.
  assert (H3 : l3 ∉ dom (message_arrays h0)) by apply is_fresh.
  rewrite dom_insert in H2.
  assert (N1 : m !! l1 = None) by (apply not_elem_of_dom; exact H1).
  assert (N3 : message_arrays h0 !! l3 = None) by (apply not_elem_of_dom; exact H3).
  repeat apply conj.
  - exact H1.
  - set_solver.
  - set_solver.
  - exact H3.
  - etrans; [apply insert_subseteq, N1 |].
    apply insert_subseteq. rewrite lookup_insert_ne by set_solver.
    apply not_elem_of_dom. set_solver.
  - apply insert_subseteq, N3.
  - apply lookup_insert_eq.
  - reflexivity.
  - reflexivity.
  - intros g. destruct gmailConfig as [gc |]; simpl; [| discriminate].
    intros [= <-]. reflexivity.
Qed.

(** ** The commands of the prompt *)

Lemma existsb_jseq x l : existsb (jseq x) l = true <-> x ∈ l.
Proof.
  induction l as [|y l IH]; simpl.
  - split; [discriminate | intros H; inversion H].
  - rewrite orb_true_iff, jseq_eq, IH, elem_of_cons. reflexivity.
Qed.

Lemma is_command_false input :
  is_command input = false <->
  (special_key input ∉ specialCommands) /\
  (builtIn_key input ∉ builtInCommands).
Proof.
  unfold is_command. rewrite orb_false_iff, <- !existsb_jseq.
  split; intros [H1 H2].
  - rewrite H1, H2. split; discriminate.
  - split; apply not_true_is_false; assumption.
Qed.

(** The cases of a [switch] are run under the label that was matched, the
    default when no label is. *)
Lemma wp_switch_cases {S A} (x : JsString) (cases : list (JsString * M S A))
    (otherwise : M S A) s (Q : Res A -> S -> Prop) :
  Forall (fun c => x = fst c -> wp (snd c) s Q) cases ->
  (x ∉ map fst cases -> wp otherwise s Q) ->
  wp (switch x cases otherwise) s Q.
Proof.
  intros Hc. induction Hc as [| [label body] cases Hb _ IH]; simpl; intros Ho.
  - apply Ho. apply not_elem_of_nil.
  - destruct (jseq x label) eqn:E.
    + apply Hb. apply jseq_eq, E.
    + apply IH. intros Hn. apply Ho. rewrite not_elem_of_cons.
      split; [| exact Hn]. intros ->.
      rewrite (proj2 (jseq_eq label label) eq_refl) in E. discriminate.
Qed.

Lemma always_conj {R} (p : Prog R) (Q1 Q2 : R -> Prop) :
  always p Q1 -> always p Q2 -> always p (fun r => Q1 r /\ Q2 r).
Proof. induction p as [r | A e k IH]; simpl; auto. Qed.

Lemma wp_conj {S A} (m : M S A) s (Q1 Q2 : Res A -> S -> Prop) :
  wp m s Q1 -> wp m s Q2 -> wp m s (fun r s' => Q1 r s' /\ Q2 r s').
Proof.
  unfold wp. intros H1 H2.
  eapply always_mono; [| apply (always_conj _ _ _ H1 H2)].
  intros [r s']. auto.
Qed.

Lemma logs_same texts st : wp (CLI.logs texts) st (fun _ st' => st' = st).
Proof.
  unfold CLI.logs.
  apply wp_for_of with (I := fun _ s => s = st); [reflexivity | | auto].
  intros acc s x ->. unfold CLI.log. apply wp_call; intros; reflexivity.
Qed.

Ltac quiet_step :=
  lazymatch goal with
  | |- wp (CLI.logs _) _ _ =>
      eapply wp_mono; [apply logs_same | intros [? | ?] ? ->; cbv beta iota]
  | |- wp (CLI.log _) _ _ => unfold CLI.log
  | |- wp CLI.displayHelp _ _ => unfold CLI.displayHelp
  | |- wp CodingAgent.getContext _ _ => unfold CodingAgent.getContext
  | |- wp CodingAgent.getMCPContext _ _ => unfold CodingAgent.getMCPContext
  | |- _ => wp_step
  end.

(** The special commands leave the state as it is, and tell the loop that
    the line was theirs exactly when it was one of the five. *)
Lemma handleSpecialCommands_spec input st :
  wp (CLI.handleSpecialCommands input) st (fun r st' =>
    st' = st /\
    match r with
    | Ok CLI.not_handled => special_key input ∉ specialCommands
    | Ok CLI.exited =>
        special_key input = lit "quit" \/ special_key input = lit "exit"
    | _ => True
    end).
Proof.
  unfold CLI.handleSpecialCommands. cbv zeta. apply wp_switch_cases.
  - unfold special_key.
    split_Forall; cbn [fst snd]; intros Hkey; repeat quiet_step; simpl; auto.
  - intros H. apply wp_ret. split; [reflexivity | exact H].
Qed.

Ltac blind_step :=
  lazymatch goal with
  | |- wp (bind _ _) _ _ =>
      apply wp_bind; eapply wp_mono;
      [apply wp_trivial | intros [? | ?] ? _; cbv beta iota]
  | |- wp (ret _) _ _ => apply wp_ret
  | |- wp (if ?b then _ else _) _ _ => destruct b
  | |- wp (CLI.usage _) _ _ => unfold CLI.usage
  end.

(** A built-in command that was recognized is reported as handled. *)
Lemma handleBuiltInCommands_false input st :
  wp (CLI.handleBuiltInCommands input) st (fun r _ =>
    r = Ok false -> builtIn_key input ∉ builtInCommands).
Proof.
  unfold CLI.handleBuiltInCommands. cbv zeta. apply wp_switch_cases.
  - split_Forall; cbn [fst snd]; intros _; repeat blind_step; intros [=].
  - intros H. apply wp_ret. intros _. exact H.
Qed.

Lemma same_history_refl st : same_history st st.
Proof. unfold same_history. auto. Qed.

Lemma same_history_trans a b c :
  same_history a b -> same_history b c -> same_history a c.
Proof.
  unfold same_history. intros (H1 & H2 & H3 & H4 & H5) (G1 & G2 & G3 & G4 & G5).
  repeat apply conj; congruence.
Qed.

Lemma handleBuiltInCommands_same_history input :
  preserves same_history (CLI.handleBuiltInCommands input).
Proof.
  apply preserves_handleBuiltInCommands;
    eauto using same_history_refl, same_history_trans;
    intros; unfold same_history; simpl; auto.
Qed.

Ltac head_of t :=
  lazymatch t with
  | ?f _ => head_of f
  | _ => t
  end.

Ltac unfold_head :=
  lazymatch goal with
  | |- issues_only _ ?m =>
      let h := head_of m in first [progress cbv zeta | unfold h]
  end.

Ltac local_events := repeat first [issues_step | unfold_head].

Lemma handleSpecialCommands_no_model input :
  issues_only no_model_call (CLI.handleSpecialCommands input).
Proof.
  unfold CLI.handleSpecialCommands. cbv zeta. apply issues_switch.
  - split_Forall; cbn [snd]; local_events.
  - local_events.
Qed.

Lemma handleBuiltInCommands_no_model input :
  issues_only no_model_call (CLI.handleBuiltInCommands input).
Proof.
  unfold CLI.handleBuiltInCommands. cbv zeta. apply issues_switch.
  - split_Forall; cbn [snd]; local_events.
  - local_events.
Qed.

Lemma all_events_bind_at {S A B} P (m : M S A) (f : A -> M S B) s :
  all_events P (m s) ->
  wp m s (fun r s' =>
            match r with
            | Ok a => all_events P (f a s')
            | Raise _ => True
            end) ->
  all_events P (bind m f s).
Proof.
  unfold bind, wp. generalize (m s) as p.
  induction p as [[[a | e] s'] | X e k IH]; simpl; auto.
  intros [He Hk] Hw. split; [exact He | intros o; apply IH; auto].
Qed.

Lemma all_events_try_catch_at {S A} P (body : M S A) (handler : Exn -> M S A) s :
  all_events P (body s) -> (forall e s', all_events P (handler e s')) ->
  all_events P (try_catch body handler s).
Proof.
  intros Hb Hh. unfold try_catch. apply all_events_pbind; [exact Hb |].
  intros [[a | e] s']; [exact I | apply Hh].
Qed.

Lemma turn_command_no_model input st :
  is_command input = true -> all_events no_model_call (CLI.turn input st).
Proof.
  intros Hc. unfold CLI.turn. apply all_events_try_catch_at.
  - destruct (trim input) eqn:Et; [exact I |]. clear Et.
    apply all_events_bind_at; [apply handleSpecialCommands_no_model |].
    eapply wp_mono; [apply handleSpecialCommands_spec |].
    intros [[] | e] s' [-> Hs]; try exact I.
    apply all_events_bind_at; [apply handleBuiltInCommands_no_model |].
    eapply wp_mono; [apply handleBuiltInCommands_false |].
    intros [[] | e] s' Hb; try exact I.
    exfalso. assert (Hn : is_command input = false)
      by (apply is_command_false; auto).
    congruence.
  - intros e s'. split; [exact I |]. intros [a | x]; exact I.
Qed.

Lemma turn_command_same_history input st :
  is_command input = true ->
  wp (CLI.turn input) st (fun _ st' => same_history st st').
Proof.
  intros Hc. unfold CLI.turn. apply wp_try_catch.
  assert (Hh : forall e s',
    same_history st s' ->
    wp (let* _ := call (ConsoleError (lit "Error: " ++ error_message "error" e)) in
        ret CLI.next_prompt) s' (fun _ st' => same_history st st')).
  { intros e s' Hs. apply wp_bind, wp_call; [intros a; apply wp_ret |]; auto. }
  eapply wp_mono with (Q := fun _ s' => same_history st s');
    [| intros [a | e] s' Hs; [exact Hs | apply Hh, Hs]].
  destruct (trim input) eqn:Et; [apply wp_ret, same_history_refl |].
  clear Et.
  apply wp_bind. eapply wp_mono; [apply handleSpecialCommands_spec |].
  intros [[] | e] s' [-> Hs]; cbv beta iota;
    try (apply wp_ret, same_history_refl); try apply same_history_refl.
  apply wp_bind. eapply wp_mono;
    [apply wp_conj;
       [apply handleBuiltInCommands_same_history
       | apply handleBuiltInCommands_false] |].
  intros [[] | e] s' [Hk Hb]; cbv beta iota;
    [apply wp_ret, Hk | | exact Hk].
  exfalso. assert (Hn : is_command input = false)
    by (apply is_command_false; auto).
  congruence.
Qed.

(** X18: the commands of the prompt stay local.  The special commands
    (help, quit, exit, clear, context) leave the state of the agent exactly
    as it was: clear prints that the conversation history was cleared and
    clears nothing.  The built-in commands leave the store, the history
    included, and the configuration as they were.  A pass of the loop on a
    line that is a command never calls the model and never changes the
    history. *)
Theorem X18_commands_stay_local :
  (forall input st,
     wp (CLI.handleSpecialCommands input) st (fun _ st' => st' = st)) /\
  (forall st,
     runs (CLI.handleSpecialCommands (lit "clear") st)
       [answer (ConsoleLog (lit "Conversation history cleared.")) (Returned tt)]
       (Ok CLI.handled, st)) /\
  (forall input, preserves same_history (CLI.handleBuiltInCommands input)) /\
  (forall input st,
     is_command input = true ->
     all_events no_model_call (CLI.turn input st) /\
     wp (CLI.turn input) st (fun _ st' => same_history st st')).
Proof.
  repeat apply conj.
  - intros input st. eapply wp_mono; [apply handleSpecialCommands_spec |].
    intros r s' [H _]. exact H.
  - intros st. simpl. eexists _, _. split; [reflexivity |]. split; reflexivity.
  - exact handleBuiltInCommands_same_history.
  - intros input st Hc.
    split; [apply turn_command_no_model | apply turn_command_same_history];
      exact Hc.
Qed.

Lemma X18_witness :
  all_events no_model_call (CLI.turn (lit "run ls -la") (sample_state None)) /\
  wp (CLI.turn (lit "run ls -la")) (sample_state None)
     (fun _ st' => same_history (sample_state None) st').
Proof.
  apply (proj2 (proj2 (proj2 X18_commands_stay_local))
           (lit "run ls -la") (sample_state None)).
  reflexivity.
Defined.

(** ** Free text *)

Lemma handleSpecialCommands_default input :
  special_key input ∉ specialCommands ->
  CLI.handleSpecialCommands input = ret CLI.not_handled.
Proof.
  intros H. unfold CLI.handleSpecialCommands. cbv zeta.
  apply switch_default. exact H.
Qed.

Lemma handleBuiltInCommands_default input :
  builtIn_key input ∉ builtInCommands ->
  CLI.handleBuiltInCommands input = ret false.
Proof.
  intros H. unfold CLI.handleBuiltInCommands. cbv zeta.
  apply switch_default. exact H.
Qed.

Lemma turn_free_text input :
  trim input <> [] -> is_command input = false ->
  CLI.turn input
  = try_catch
      (let* _ := CLI.log (lit "Processing...") in
       let* response := CodingAgent.processMessage input in
       let* _ := CLI.log response in
       ret CLI.next_prompt)
      (fun e =>
         let* _ := call (ConsoleError (lit "Error: " ++ error_message "error" e)) in
         ret CLI.next_prompt).
Proof.
  intros Ht Hc. apply is_command_false in Hc as [Hs Hb].
  unfold CLI.turn. destruct (trim input) eqn:Et; [congruence |].
  rewrite (handleSpecialCommands_default input Hs).
  rewrite (handleBuiltInCommands_default input Hb).
  reflexivity.
Qed.

(** X19: a line that is not blank and is none of the commands goes to the
    model: the pass of the loop is the program that prints "Processing...",
    calls [processMessage] on the line as it was typed (not trimmed) and
    prints the reply, any exception being reported on the error console.
    Whatever happens, the history grows by nothing, or by the line as typed
    followed by at most one message, the reply of the assistant. *)
Theorem X19_free_text_goes_to_the_model :
  forall input : JsString,
    trim input <> [] -> is_command input = false ->
    CLI.turn input
    = try_catch
        (let* _ := CLI.log (lit "Processing...") in
         let* response := CodingAgent.processMessage input in
         let* _ := CLI.log response in
         ret CLI.next_prompt)
        (fun e =>
           let* _ := call (ConsoleError (lit "Error: " ++ error_message "error" e)) in
           ret CLI.next_prompt) /\
    forall st,
      wp (CLI.turn input) st (fun _ st' =>
        exists msgs, grown msgs st st' /\
          (msgs = [] \/
           exists t1 rest,
             msgs = {| role := user; content := input; timestamp := t1 |} :: rest /\
             Forall (fun m => role m = assistant) rest /\
             (length rest <= 1)%nat)).
Proof.
  intros input Ht Hc. split; [exact (turn_free_text input Ht Hc) |].
  intros st. rewrite (turn_free_text input Ht Hc).
  set (P := fun st' : CodingAgent.state =>
    exists msgs, grown msgs st st' /\
      (msgs = [] \/
       exists t1 rest,
         msgs = {| role := user; content := input; timestamp := t1 |} :: rest /\
         Forall (fun m => role m = assistant) rest /\
         (length rest <= 1)%nat)).
  assert (Hnil : P st) by (exists []; split; [apply grown_nil | auto]).
  assert (Hh : forall e s',
    P s' ->
    wp (let* _ := call (ConsoleError (lit "Error: " ++ error_message "error" e)) in
        ret CLI.next_prompt) s' (fun _ st' => P st')).
  { intros e s' Hs. apply wp_bind, wp_call; [intros a; apply wp_ret |]; auto. }
  apply wp_try_catch.
  eapply wp_mono with (Q := fun _ s' => P s');
    [| intros [a | e] s' Hs; [exact Hs | apply Hh, Hs]].
  unfold CLI.log. apply wp_bind, wp_call; [intros _ | intros x; exact Hnil].
  apply wp_bind. eapply wp_mono; [apply processMessage_grown |].
  intros [text | e] s' (msgs & Hg & Hm); cbv beta iota.
  - destruct Hm as (t1 & t2 & ->).
    assert (Hp : P s').
    { eexists. split; [exact Hg |]. right. eexists _, _.
      split; [reflexivity |]. split; [repeat constructor | simpl; lia]. }
    apply wp_bind, wp_call; [intros _; apply wp_ret | intros x]; exact Hp.
  - exists msgs. split; [exact Hg |].
    destruct Hm as [-> | [t1 ->]]; [auto |].
    right. eexists _, _. split; [reflexivity |]. split; [constructor | simpl; lia].
Qed.

Lemma X19_witness :
  CLI.turn (lit "what does main.ts do?")
  = try_catch
      (let* _ := CLI.log (lit "Processing...") in
       let* response := CodingAgent.processMessage (lit "what does main.ts do?") in
       let* _ := CLI.log response in
       ret CLI.next_prompt)
      (fun e =>
         let* _ := call (ConsoleError (lit "Error: " ++ error_message "error" e)) in
         ret CLI.next_prompt).
Proof.
  refine (proj1 (X19_free_text_goes_to_the_model (lit "what does main.ts do?") _ _));
    [vm_compute; discriminate | vm_compute; reflexivity].
Defined.

(** ** How a pass of the loop ends *)

Lemma handleSpecialCommands_quit input :
  special_key input = lit "quit" \/ special_key input = lit "exit" ->
  CLI.handleSpecialCommands input
  = (let* _ := CLI.log (lit "Goodbye!") in ret CLI.exited).
Proof.
  unfold special_key, CLI.handleSpecialCommands. cbv zeta.
  intros [-> | ->]; reflexivity.
Qed.

(** X20: a pass of the loop ends the process only on quit or exit (in any
    letter case, with white space around), and does so as soon as the
    farewell is printed, leaving the state as it was; and the pass never
    throws unless printing on the error console does: every other failure,
    of the model, of a tool or of the console, ends at the next prompt. *)
Theorem X20_turn_outcomes :
  (forall input st,
     wp (CLI.turn input) st (fun r _ =>
       r = Ok CLI.process_exit ->
       special_key input = lit "quit" \/ special_key input = lit "exit")) /\
  (forall input st,
     special_key input = lit "quit" \/ special_key input = lit "exit" ->
     runs (CLI.turn input st)
       [answer (ConsoleLog (lit "Goodbye!")) (Returned tt)]
       (Ok CLI.process_exit, st)) /\
  (forall input st tr e st',
     runs (CLI.turn input st) tr (Raise e, st') ->
     exists text, last tr = Some (answer (ConsoleError text) (Thrown e))).
Proof.
  repeat apply conj.
  - intros input st. unfold CLI.turn. apply wp_try_catch.
    eapply wp_mono with
      (Q := fun r _ =>
         r = Ok CLI.process_exit ->
         special_key input = lit "quit" \/ special_key input = lit "exit").
    + destruct (trim input) eqn:Et; [apply wp_ret; intros [=] |]. clear Et.
      apply wp_bind. eapply wp_mono; [apply handleSpecialCommands_spec |].
      intros [[] | e] s' [-> Hs]; cbv beta iota;
        [apply wp_ret; intros [=] | | apply wp_ret; intros _; exact Hs
        | intros [=]].
      unfold CLI.log. repeat blind_step; intros [=].
    + intros [a | e] s' H; [exact H |].
      repeat blind_step; intros [=].
  - intros input st H. unfold CLI.turn.
    rewrite (handleSpecialCommands_quit input H).
    assert (Ht : trim input <> []).
    { unfold special_key in H. intros Ht. rewrite Ht in H.
      destruct H as [H | H]; discriminate H. }
    destruct (trim input); [congruence |].
    simpl. eexists _, _. split; [reflexivity |]. split; reflexivity.
  - intros input st tr e st' H. unfold CLI.turn, try_catch in H.
    apply runs_pbind in H as (tr1 & tr2 & [[a | e0] s1] & -> & _ & H).
    + destruct H as [_ [=]].
    + simpl in H. destruct H as (o & tr' & -> & H).
      destruct o as [[] | x]; simpl in H; destruct H as [-> [= -> ->]].
      eexists. apply last_snoc.
Qed.

Lemma X20_witness :
  runs (CLI.turn (lit "  Quit ") (sample_state None))
    [answer (ConsoleLog (lit "Goodbye!")) (Returned tt)]
    (Ok CLI.process_exit, sample_state None).
Proof.
  apply (proj1 (proj2 X20_turn_outcomes) (lit "  Quit ") (sample_state None)).
  left. reflexivity.
Defined.

(** ** The request to the model *)

Ltac local_events' :=
  repeat first
    [ issues_step
    | lazymatch goal with
      | |- issues_only _ (switch _ _ _) =>
          apply issues_switch; [split_Forall; cbn [snd] |]
      end
    | unfold_head ].

Lemma pushHistory_no_model r text :
  issues_only no_model_call (CodingAgent.pushHistory r text).
Proof. local_events'. Qed.

Lemma generateSystemPrompt_no_model :
  issues_only no_model_call CodingAgent.generateSystemPrompt.
Proof. local_events'. Qed.

Lemma parseAndExecuteTools_no_model response :
  issues_only no_model_call (CodingAgent.parseAndExecuteTools response).
Proof. local_events'. Qed.

Lemma untouched_history st st' : untouched st st' -> history_of st' = history_of st.
Proof. intros (Hs & Hc & _). unfold history_of. rewrite Hs, Hc. reflexivity. Qed.

Lemma slice_last_snoc {A} (h : list A) (x : A) :
  slice_last 10 (h ++ [x]) = slice_last 9 h ++ [x].
Proof.
  unfold slice_last. rewrite length_app. simpl.
  replace (length h + 1 - 10)%nat with (length h - 9)%nat by lia.
  apply drop_app_le. lia.
Qed.

Lemma slice_last_length {A} n (h : list A) : (length (slice_last n h) <= n)%nat.
Proof. unfold slice_last. rewrite length_drop. lia. Qed.

Lemma no_model_request_shape cfg h userMessage {S A} (m : M S A) s :
  issues_only no_model_call m ->
  all_events (request_shape cfg h userMessage) (m s).
Proof.
  intros H. eapply all_events_mono; [| apply H].
  intros X e. destruct e; simpl; auto. intros [].
Qed.

(** X21: the one request [processMessage] can make to the model carries the
    system prompt first, then the last nine messages of the history as it
    was before the call, then the message of the user as given, so eleven
    messages at most, with the token limit and the temperature of the
    configuration. *)
Theorem X21_model_request_shape :
  forall userMessage st h,
    history_of st = Some h ->
    all_events
      (request_shape (CodingAgent.config (CodingAgent.this st)) h userMessage)
      (CodingAgent.processMessage userMessage st).
Proof.
  intros userMessage st h Hh. unfold CodingAgent.processMessage.
  set (P := request_shape (CodingAgent.config (CodingAgent.this st)) h userMessage).
  apply all_events_bind_at;
    [apply no_model_request_shape, pushHistory_no_model |].
  eapply wp_mono; [apply pushHistory_grown |].
  intros [_ | e] s1 H1; cbv beta iota; [| exact I].
  destruct H1 as [t1 (G1 & _ & G2 & G3 & _)]. rewrite Hh in G1. simpl in G1.
  apply all_events_bind_at;
    [apply no_model_request_shape, generateSystemPrompt_no_model |].
  eapply wp_mono; [apply generateSystemPrompt_untouched |].
  intros [systemPrompt | e] s2 H2; cbv beta iota; [| exact I].
  assert (G4 : history_of s2 = Some (h ++ [{| role := user; content := userMessage;
                                              timestamp := t1 |}])).
  { rewrite (untouched_history _ _ H2). exact G1. }
  destruct H2 as (_ & _ & U3).
  apply all_events_bind_at; [exact I |]. apply wp_gets.
  unfold messages_at. fold (history_of s2). rewrite G4.
  cbn [from_option id]. rewrite slice_last_snoc, map_app. cbn [map role content].
  apply all_events_bind_at.
  - unfold CodingAgent.callOpenAI, try_catch, bind, gets, call, ret. simpl.
    split.
    + rewrite U3, G3. repeat apply conj; try reflexivity; [| eauto].
      simpl. rewrite length_app, length_map. simpl.
      pose proof (slice_last_length 9 h). lia.
    + intros [a | x]; simpl; [exact I |]. split; [exact I |].
      intros [a | y]; exact I.
  - eapply wp_mono; [apply wp_trivial |].
    intros [aiResponse | e] s3 _; [| exact I].
    apply no_model_request_shape.
    apply issues_bind; [apply parseAndExecuteTools_no_model | intros toolResults].
    apply issues_bind; [apply pushHistory_no_model | intros _].
    apply issues_ret.
Qed.

Lemma X21_witness :
  all_events (request_shape sample_config [] (lit "hello"))
    (CodingAgent.processMessage (lit "hello") (sample_state None)).
Proof.
  exact (X21_model_request_shape (lit "hello") (sample_state None) [] eq_refl).
Defined.

(** ** Authentication of the mailbox tools *)

Ltac auth_first :=
  let g := fresh "g" in
  let H := fresh "H" in
  intros g H;
  unfold GmailTools.getEmailContext, GmailTools.searchEmails,
    GmailTools.getUnreadEmails, GmailTools.listEmails, GmailTools.getEmail,
    GmailTools.sendEmail, GmailTools.createDraft, GmailTools.markAsRead,
    GmailTools.deleteEmail, GmailTools.analyzeEmailThread,
    GmailTools.ensureAuthenticated, GmailTools.authenticate,
    try_catch, bind, gets, call, ret, modify;
  repeat (progress (cbn [pbind id negb andb]; rewrite ?H));
  eexists; split; [reflexivity | intros x; reflexivity].

(** X22: on mailbox tools that are not authenticated, each of the ten
    operations starts by authenticating, with the credentials path and the
    scopes of the configuration, before any request to the mailbox; when
    the authentication fails, the operation issues nothing more and returns
    the failed result "Failed to authenticate with Gmail API", whose error
    is the message of the failure, the tools staying as they were. *)
Theorem X22_mailbox_authenticates_first :
  (forall options, authenticates_first (GmailTools.listEmails options)) /\
  (forall messageId, authenticates_first (GmailTools.getEmail messageId)) /\
  (forall draft, authenticates_first (GmailTools.sendEmail draft)) /\
  (forall draft, authenticates_first (GmailTools.createDraft draft)) /\
  (forall query maxResults,
     authenticates_first (GmailTools.searchEmails query maxResults)) /\
  (forall maxResults, authenticates_first (GmailTools.getUnreadEmails maxResults)) /\
  (forall messageId, authenticates_first (GmailTools.markAsRead messageId)) /\
  (forall messageId, authenticates_first (GmailTools.deleteEmail messageId)) /\
  (forall messageId, authenticates_first (GmailTools.getEmailContext messageId)) /\
  (forall threadId, authenticates_first (GmailTools.analyzeEmailThread threadId)).
Proof.
  repeat apply conj; intros; auth_first.
Qed.

Lemma X22_witness :
  exists k,
    GmailTools.sendEmail
      {| ed_to := [lit "a@b.c"]; ed_subject := lit "Hi"; ed_body := lit "there" |}
      (GmailTools.new sample_gmailConfig)
    = Vis (Authenticate (lit "credentials.json")
             [lit "https://www.googleapis.com/auth/gmail.readonly"]) k /\
    forall x,
      k (Thrown x)
      = Ret (Ok (GmailTools.failed "Authentication failed" x
                   (lit "Failed to authenticate with Gmail API")),
             GmailTools.new sample_gmailConfig).
Proof.
  exact (proj1 (proj2 (proj2 X22_mailbox_authenticates_first))
           {| ed_to := [lit "a@b.c"]; ed_subject := lit "Hi"; ed_body := lit "there" |}
           (GmailTools.new sample_gmailConfig) eq_refl).
Defined.

Lemma all_events_try_catch_wp {S A} P (body : M S A) (handler : Exn -> M S A) s :
  all_events P (body s) ->
  wp body s (fun r s' =>
               match r with
               | Ok _ => True
               | Raise e => all_events P (handler e s')
               end) ->
  all_events P (try_catch body handler s).
Proof.
  unfold try_catch, wp. generalize (body s) as p.
  induction p as [[[a | e] s'] | X e k IH]; simpl; auto.
  intros [He Hk] Hw. split; [exact He | intros o; apply IH; auto].
Qed.

Section Under.
Context {S : Type} (P : forall A, Event A -> Prop) (Inv : S -> Prop).

Lemma under_ret {A} (a : A) : issues_under P Inv (@ret S A a).
Proof. intros s Hs. split; [exact I | apply wp_ret, Hs]. Qed.

Lemma under_throw {A} e : issues_under P Inv (@throw S A e).
Proof. intros s Hs. split; [exact I | apply wp_throw, Hs]. Qed.

Lemma under_gets {A} (f : S -> A) : issues_under P Inv (gets f).
Proof. intros s Hs. split; [exact I | apply wp_gets, Hs]. Qed.

Lemma under_call {A} (e : Event A) : P A e -> issues_under P Inv (@call S A e).
Proof.
  intros He s Hs. split.
  - split; [exact He | intros [a | x]; exact I].
  - apply wp_call; intros; exact Hs.
Qed.

Lemma under_bind {A B} (m : M S A) (f : A -> M S B) :
  issues_under P Inv m -> (forall a, issues_under P Inv (f a)) ->
  issues_under P Inv (bind m f).
Proof.
  intros Hm Hf s Hs. destruct (Hm s Hs) as [He Hw]. split.
  - apply all_events_bind_at; [exact He |].
    eapply wp_mono; [exact Hw |].
    intros [a | e] s' Hs'; [apply Hf, Hs' | exact I].
  - apply wp_bind. eapply wp_mono; [exact Hw |].
    intros [a | e] s' Hs'; [apply Hf, Hs' | exact Hs'].
Qed.

Lemma under_try_catch {A} (body : M S A) (handler : Exn -> M S A) :
  issues_under P Inv body -> (forall e, issues_under P Inv (handler e)) ->
  issues_under P Inv (try_catch body handler).
Proof.
  intros Hm Hf s Hs. destruct (Hm s Hs) as [He Hw]. split.
  - apply all_events_try_catch_wp; [exact He |].
    eapply wp_mono; [exact Hw |].
    intros [a | e] s' Hs'; [exact I | apply Hf, Hs'].
  - apply wp_try_catch. eapply wp_mono; [exact Hw |].
    intros [a | e] s' Hs'; [exact Hs' | apply Hf, Hs'].
Qed.

Lemma under_for_of {X Acc} (xs : list X) (acc : Acc) (body : Acc -> X -> M S Acc) :
  (forall acc x, issues_under P Inv (body acc x)) ->
  issues_under P Inv (for_of xs acc body).
Proof.
  intros Hb. revert acc. induction xs as [|x xs IH]; intros acc; simpl.
  - apply under_ret.
  - apply under_bind; [apply Hb | intros b; apply IH].
Qed.

End Under.

Lemma ensureAuthenticated_under :
  issues_under no_authenticate authenticated GmailTools.ensureAuthenticated.
Proof.
  intros g Hg. unfold GmailTools.ensureAuthenticated, bind, gets, wp.
  cbn [pbind]. rewrite Hg. split; [exact I | exact Hg].
Qed.

Ltac under_step :=
  lazymatch goal with
  | |- issues_under _ _ (ret _) => apply under_ret
  | |- issues_under _ _ (throw _) => apply under_throw
  | |- issues_under _ _ (gets _) => apply under_gets
  | |- issues_under _ _ (call _) => apply under_call; exact I
  | |- issues_under _ _ (bind _ _) => apply under_bind; [| intros ?]
  | |- issues_under _ _ (try_catch _ _) => apply under_try_catch; [| intros ?]
  | |- issues_under _ _ (for_of _ _ _) => apply under_for_of; intros ? ?
  | |- issues_under _ _ GmailTools.ensureAuthenticated =>
      apply ensureAuthenticated_under
  | |- issues_under _ _ (if ?b then _ else _) => destruct b
  | |- issues_under _ _ (match ?x with _ => _ end) => destruct x
  end.

Lemma getEmail_under messageId :
  issues_under no_authenticate authenticated (GmailTools.getEmail messageId).
Proof. unfold GmailTools.getEmail. repeat under_step. Qed.

Lemma listEmails_under options :
  issues_under no_authenticate authenticated (GmailTools.listEmails options).
Proof.
  unfold GmailTools.listEmails. cbv zeta.
  repeat first [apply getEmail_under | under_step].
Qed.

(** X23: mailbox tools that are authenticated never authenticate again:
    none of the ten operations issues an authentication, and each leaves
    the tools authenticated, whatever the mailbox answers. *)
Theorem X23_authenticated_once :
  (forall options,
     issues_under no_authenticate authenticated (GmailTools.listEmails options)) /\
  (forall messageId,
     issues_under no_authenticate authenticated (GmailTools.getEmail messageId)) /\
  (forall draft,
     issues_under no_authenticate authenticated (GmailTools.sendEmail draft)) /\
  (forall draft,
     issues_under no_authenticate authenticated (GmailTools.createDraft draft)) /\
  (forall query maxResults,
     issues_under no_authenticate authenticated
       (GmailTools.searchEmails query maxResults)) /\
  (forall maxResults,
     issues_under no_authenticate authenticated
       (GmailTools.getUnreadEmails maxResults)) /\
  (forall messageId,
     issues_under no_authenticate authenticated (GmailTools.markAsRead messageId)) /\
  (forall messageId,
     issues_under no_authenticate authenticated (GmailTools.deleteEmail messageId)) /\
  (forall messageId,
     issues_under no_authenticate authenticated
       (GmailTools.getEmailContext messageId)) /\
  (forall threadId,
     issues_under no_authenticate authenticated
       (GmailTools.analyzeEmailThread threadId)).
Proof.
  repeat apply conj; intros.
  - apply listEmails_under.
  - apply getEmail_under.
  - unfold GmailTools.sendEmail. repeat under_step.
  - unfold GmailTools.createDraft. repeat under_step.
  - apply listEmails_under.
  - apply listEmails_under.
  - unfold GmailTools.markAsRead. repeat under_step.
  - unfold GmailTools.deleteEmail. repeat under_step.
  - unfold GmailTools.getEmailContext.
    repeat first [apply getEmail_under | under_step].
  - unfold GmailTools.analyzeEmailThread. repeat under_step.
Qed.

Lemma X23_witness :
  all_events no_authenticate
    (GmailTools.deleteEmail (Some (lit "42")) authenticated_gmail) /\
  wp (GmailTools.deleteEmail (Some (lit "42"))) authenticated_gmail
     (fun _ g' => authenticated g').
Proof.
  exact (proj1 (proj2 (proj2 (proj2 (proj2 (proj2 (proj2 (proj2
           X23_authenticated_once))))))) (Some (lit "42")) authenticated_gmail eq_refl).
Defined.

(** ** The analysis of a thread *)

Lemma elem_of_set_add x y set : y ∈ GmailTools.set_add x set <-> y ∈ set \/ y = x.
Proof.
  unfold GmailTools.set_add. case_bool_decide as Hx.
  - split; [auto | intros [H | ->]; assumption].
  - rewrite elem_of_app, list_elem_of_singleton. reflexivity.
Qed.

Lemma NoDup_set_add x set : NoDup set -> NoDup (GmailTools.set_add x set).
Proof.
  intros H. unfold GmailTools.set_add. case_bool_decide as Hx; [exact H |].
  apply NoDup_app. split; [exact H |]. split; [| apply NoDup_singleton].
  intros y Hy Hin. apply list_elem_of_singleton in Hin. subst. contradiction.
Qed.

Lemma analysis_fold messages a0 :
  let a :=
    fold_left (fun a m =>
        {| ta_threadId := ta_threadId a;
           ta_messageCount := ta_messageCount a;
           ta_participants :=
             GmailTools.set_add (or_string (tm_from m) []) (ta_participants a);
           ta_subjects :=
             GmailTools.set_add (or_string (tm_subject m) []) (ta_subjects a);
           ta_hasAttachments :=
             if tm_hasAttachments m then true else ta_hasAttachments a |})
      messages a0 in
  ta_threadId a = ta_threadId a0 /\
  ta_messageCount a = ta_messageCount a0 /\
  (NoDup (ta_participants a0) -> NoDup (ta_participants a)) /\
  (NoDup (ta_subjects a0) -> NoDup (ta_subjects a)) /\
  (forall p, p ∈ ta_participants a <->
             p ∈ ta_participants a0 \/
             exists m, m ∈ messages /\ p = or_string (tm_from m) []) /\
  (forall s, s ∈ ta_subjects a <->
             s ∈ ta_subjects a0 \/
             exists m, m ∈ messages /\ s = or_string (tm_subject m) []) /\
  ta_hasAttachments a = ta_hasAttachments a0 || existsb tm_hasAttachments messages.
Proof.
  revert a0. induction messages as [|m ms IH]; intros a0; cbn [fold_left existsb].
  - repeat apply conj; auto.
    + intros p. split; [auto | intros [H | (m & H & _)]; [exact H | inversion H]].
    + intros s. split; [auto | intros [H | (m & H & _)]; [exact H | inversion H]].
    + rewrite orb_false_r. reflexivity.
  - destruct (IH
      {| ta_threadId := ta_threadId a0;
         ta_messageCount := ta_messageCount a0;
         ta_participants :=
           GmailTools.set_add (or_string (tm_from m) []) (ta_participants a0);
         ta_subjects :=
           GmailTools.set_add (or_string (tm_subject m) []) (ta_subjects a0);
         ta_hasAttachments :=
           if tm_hasAttachments m then true else ta_hasAttachments a0 |})
      as (H1 & H2 & H3 & H4 & H5 & H6 & H7).
    cbn [ta_threadId ta_messageCount ta_participants ta_subjects ta_hasAttachments]
      in H1, H2, H3, H4, H5, H6, H7.
    repeat apply conj.
    + exact H1.
    + exact H2.
    + intros Hn. apply H3, NoDup_set_add, Hn.
    + intros Hn. apply H4, NoDup_set_add, Hn.
    + intros p. rewrite H5, elem_of_set_add. split.
      * intros [[H | ->] | (m' & Hm & ->)]; [auto | right | right].
        -- exists m. split; [left | reflexivity].
        -- exists m'. split; [right; exact Hm | reflexivity].
      * intros [H | (m' & Hm & ->)]; [auto |].
        apply elem_of_cons in Hm as [-> | Hm]; [auto | right; eauto].
    + intros s. rewrite H6, elem_of_set_add. split.
      * intros [[H | ->] | (m' & Hm & ->)]; [auto | right | right].
        -- exists m. split; [left | reflexivity].
        -- exists m'. split; [right; exact Hm | reflexivity].
      * intros [H | (m' & Hm & ->)]; [auto |].
        apply elem_of_cons in Hm as [-> | Hm]; [auto | right; eauto].
    + rewrite H7. destruct (tm_hasAttachments m), (ta_hasAttachments a0); reflexivity.
Qed.

(** X24: on authenticated tools, when the mailbox returns the messages of
    the thread, [analyzeEmailThread] succeeds with an analysis that counts
    all the messages, lists each sender and each subject once (the empty
    text standing for a message without that header), and reports
    attachments exactly when some message has one. *)
Theorem X24_thread_analysis :
  forall (threadId : JsArg) (g : GmailTools.t) (messages : list ThreadMessage),
    authenticated g ->
    exists a,
      runs (GmailTools.analyzeEmailThread threadId g)
        [answer (ThreadsGet threadId) (Returned messages)]
        (Ok {| success := true;
               data := Some (DThread a);
               error := None;
               message := lit "Thread analysis completed for thread: "
                          ++ template threadId |}, g) /\
      ta_threadId a = threadId /\
      ta_messageCount a = length messages /\
      NoDup (ta_participants a) /\
      NoDup (ta_subjects a) /\
      (forall p, p ∈ ta_participants a <->
                 exists m, m ∈ messages /\ p = or_string (tm_from m) []) /\
      (forall s, s ∈ ta_subjects a <->
                 exists m, m ∈ messages /\ s = or_string (tm_subject m) []) /\
      ta_hasAttachments a = existsb tm_hasAttachments messages.
Proof.
  intros threadId g messages Hg. unfold authenticated in Hg.
  eexists. split.
  - unfold GmailTools.analyzeEmailThread, GmailTools.ensureAuthenticated,
      try_catch, bind, gets, call, ret.
    cbn [pbind]. rewrite Hg. cbn [pbind negb success runs].
    eexists _, _. split; [reflexivity |]. cbn [pbind runs].
    split; reflexivity.
  - match goal with
    | |- ta_threadId (fold_left ?f messages ?a0) = _ /\ _ =>
        destruct (analysis_fold messages a0) as (H1 & H2 & H3 & H4 & H5 & H6 & H7)
    end.
    cbn [ta_threadId ta_messageCount ta_participants ta_subjects ta_hasAttachments]
      in H1, H2, H3, H4, H5, H6, H7.
    repeat apply conj.
    + exact H1.
    + exact H2.
    + apply H3. constructor.
    + apply H4. constructor.
    + intros p. rewrite H5. split; [intros [H | H]; [inversion H | exact H] | auto].
    + intros s. rewrite H6. split; [intros [H | H]; [inversion H | exact H] | auto].
    + rewrite H7. reflexivity.
Qed.

Lemma X24_witness :
  exists a,
    runs (GmailTools.analyzeEmailThread (Some (lit "t1")) authenticated_gmail)
      [answer (ThreadsGet (Some (lit "t1"))) (Returned [])]
      (Ok {| success := true;
             data := Some (DThread a);
             error := None;
             message := lit "Thread analysis completed for thread: " ++ lit "t1" |},
       authenticated_gmail) /\
    ta_threadId a = Some (lit "t1") /\
    ta_messageCount a = 0%nat /\
    NoDup (ta_participants a) /\
    NoDup (ta_subjects a) /\
    (forall p, p ∈ ta_participants a <->
               exists m : ThreadMessage, m ∈ [] /\ p = or_string (tm_from m) []) /\
    (forall s, s ∈ ta_subjects a <->
               exists m : ThreadMessage, m ∈ [] /\ s = or_string (tm_subject m) []) /\
    ta_hasAttachments a = false.
Proof.
  exact (X24_thread_analysis (Some (lit "t1")) authenticated_gmail [] eq_refl).
Defined.

(** ** What the built-in commands pass on *)

Lemma pieces_no_space s : Forall no_space (split " " s).
Proof.
  eapply Forall_impl; [apply split_pieces |].
  intros piece Hp Hin. rewrite Forall_forall in Hp.
  destruct (Hp _ Hin) as [_ Hne]. congruence.
Qed.

Lemma split_join_1 s :
  (length (split " " s) <? 2)%nat = false ->
  no_space (default [] (split " " s !! 0)) /\
  s = default [] (split " " s !! 0) ++ lit " " ++ join (lit " ") (drop 1 (split " " s)).
Proof.
  intros Hl. pose proof (join_split " " s) as Hj.
  pose proof (pieces_no_space s) as Hp.
  destruct (split " " s) as [|p0 [|p1 rest]]; try discriminate Hl.
  rewrite !Forall_cons in Hp. destruct Hp as (H0 & _).
  split; [exact H0 |]. symmetry. exact Hj.
Qed.

Lemma split_join_2 s :
  (length (split " " s) <? 3)%nat = false ->
  no_space (default [] (split " " s !! 0)) /\
  no_space (default [] (split " " s !! 1)) /\
  s = default [] (split " " s !! 0) ++ lit " "
      ++ default [] (split " " s !! 1) ++ lit " "
      ++ join (lit " ") (drop 2 (split " " s)).
Proof.
  intros Hl. pose proof (join_split " " s) as Hj.
  pose proof (pieces_no_space s) as Hp.
  destruct (split " " s) as [|p0 [|p1 [|p2 rest]]]; try discriminate Hl.
  rewrite !Forall_cons in Hp. destruct Hp as (H0 & H1 & _).
  split; [exact H0 |]. split; [exact H1 |]. symmetry. exact Hj.
Qed.

Lemma split_join_3 s :
  (length (split " " s) <? 4)%nat = false ->
  no_space (default [] (split " " s !! 0)) /\
  no_space (default [] (split " " s !! 1)) /\
  no_space (default [] (split " " s !! 2)) /\
  s = default [] (split " " s !! 0) ++ lit " "
      ++ default [] (split " " s !! 1) ++ lit " "
      ++ default [] (split " " s !! 2) ++ lit " "
      ++ join (lit " ") (drop 3 (split " " s)).
Proof.
  intros Hl. pose proof (join_split " " s) as Hj.
  pose proof (pieces_no_space s) as Hp.
  destruct (split " " s) as [|p0 [|p1 [|p2 [|p3 rest]]]]; try discriminate Hl.
  rewrite !Forall_cons in Hp. destruct Hp as (H0 & H1 & H2 & _).
  split; [exact H0 |]. split; [exact H1 |]. split; [exact H2 |].
  symmetry. exact Hj.
Qed.

Lemma issues_switch_cases {S A} P x (cases : list (JsString * M S A)) otherwise :
  Forall (fun c => x = fst c -> issues_only P (snd c)) cases ->
  issues_only P otherwise ->
  issues_only P (switch x cases otherwise).
Proof.
  intros Hc Ho. induction Hc as [| [label body] cases Hb _ IH]; simpl;
    [exact Ho |].
  destruct (jseq x label) eqn:E; [| exact IH].
  apply Hb. apply jseq_eq, E.
Qed.

Ltac typed_steps := repeat first [issues_step | unfold_head].

(** X25: the built-in commands pass on the line as it was typed.  The only
    command [handleBuiltInCommands] can run is the text that follows the
    first word run and one space, spaces inside included; the only content
    it can write is the text that follows the file name of a write; and the
    only message it can send or draft has the second word as its one
    recipient, the third word as its subject and the rest of the line as
    its body. *)
Theorem X25_commands_pass_the_line_on :
  forall input st,
    all_events (typed_through input) (CLI.handleBuiltInCommands input st).
Proof.
  intros input. change (issues_only (typed_through input)
                          (CLI.handleBuiltInCommands input)).
  unfold CLI.handleBuiltInCommands. cbv zeta.
  apply issues_switch_cases; [| apply issues_ret].
  split_Forall; cbn [fst snd]; intros Hkey.
  - typed_steps.
  - typed_steps.
  - typed_steps.
  - typed_steps.
  - destruct (length (split " " (trim input)) <? 3)%nat eqn:El; [typed_steps |].
    destruct (split_join_2 _ El) as (N0 & N1 & Ht).
    apply issues_bind; [| intros writeResult; typed_steps].
    unfold CodingAgent.writeFile, CodingAgent.on_fileTools, FileTools.writeFile.
    apply issues_zoom, issues_try_catch; [| intros e; typed_steps].
    apply issues_bind; [typed_steps | intros cwd].
    apply issues_bind; [typed_steps | intros fullPath].
    apply issues_bind; [typed_steps | intros dir].
    apply issues_bind; [typed_steps | intros present].
    apply issues_bind; [typed_steps | intros _].
    apply issues_bind; [| intros _; typed_steps].
    apply issues_call. simpl. eexists _, _, _.
    split; [reflexivity |]. split; [exact Hkey |].
    split; [exact N0 |]. split; [exact N1 | exact Ht].
  - destruct (length (split " " (trim input)) <? 2)%nat eqn:El; [typed_steps |].
    destruct (split_join_1 _ El) as (N0 & Ht).
    apply issues_bind; [typed_steps | intros _].
    apply issues_bind; [| intros runResult; typed_steps].
    unfold CodingAgent.executeCommand, CodingAgent.on_commandTools,
      CommandTools.executeCommand.
    destruct (negb _); [apply issues_ret |].
    apply issues_zoom.
    apply issues_bind; [typed_steps | intros cwd].
    apply issues_bind; [| intros ended; typed_steps].
    apply issues_call. simpl. eexists _, _.
    split; [reflexivity |]. split; [exact Hkey |]. split; [exact N0 | exact Ht].
  - typed_steps.
  - typed_steps.
  - typed_steps.
  - typed_steps.
  - destruct (length (split " " (trim input)) <? 4)%nat eqn:El; [typed_steps |].
    destruct (split_join_3 _ El) as (N0 & N1 & N2 & Ht).
    apply issues_bind; [typed_steps | intros _].
    apply issues_bind; [| intros sendResult; typed_steps].
    unfold CodingAgent.sendEmail, CodingAgent.ifGmail, CodingAgent.on_gmailTools,
      GmailTools.sendEmail.
    apply issues_bind; [typed_steps | intros gm].
    destruct gm as [g |]; [| apply issues_ret].
    apply issues_zoom, issues_try_catch; [| intros e; typed_steps].
    apply issues_bind; [typed_steps | intros authResult].
    destruct (negb _); [apply issues_ret |].
    apply issues_bind; [| intros response; typed_steps].
    apply issues_call. simpl. eexists _, _.
    split; [reflexivity |]. split; [exact Hkey |].
    split; [exact N0 |]. split; [exact N1 |]. split; [exact N2 | exact Ht].
  - destruct (length (split " " (trim input)) <? 4)%nat eqn:El; [typed_steps |].
    destruct (split_join_3 _ El) as (N0 & N1 & N2 & Ht).
    apply issues_bind; [typed_steps | intros _].
    apply issues_bind; [| intros draftResult; typed_steps].
    unfold CodingAgent.createDraft, CodingAgent.ifGmail, CodingAgent.on_gmailTools,
      GmailTools.createDraft.
    apply issues_bind; [typed_steps | intros gm].
    destruct gm as [g |]; [| apply issues_ret].
    apply issues_zoom, issues_try_catch; [| intros e; typed_steps].
    apply issues_bind; [typed_steps | intros authResult].
    destruct (negb _); [apply issues_ret |].
    apply issues_bind; [| intros response; typed_steps].
    apply issues_call. simpl. eexists _, _.
    split; [reflexivity |]. split; [exact Hkey |].
    split; [exact N0 |]. split; [exact N1 |]. split; [exact N2 | exact Ht].
  - typed_steps.
  - typed_steps.
  - typed_steps.
Qed.

(** ** What the model can ask for *)

Lemma star_greedy_from {R} p (k : JsString -> JsString -> option R) s :
  forall acc r, star_greedy p acc s k = Some r -> exists a s', k a s' = Some r.
Proof.
  induction s as [|c s IH]; intros acc r; simpl; [eauto |].
  destruct (p c); [| eauto].
  destruct (star_greedy p (acc ++ [c]) s k) eqn:E; [| eauto].
  intros [= <-]. eapply IH, E.
Qed.

Lemma plus_greedy_from {R} p (k : JsString -> JsString -> option R) s r :
  plus_greedy p s k = Some r -> exists a s', k a s' = Some r.
Proof.
  unfold plus_greedy. destruct s as [|c s]; [discriminate |].
  destruct (p c); [apply star_greedy_from | discriminate].
Qed.

Lemma callPattern_args s funcName argsStr :
  callPattern s = Some (funcName, argsStr) ->
  Forall (fun c => not_rparen c = true) argsStr.
Proof.
  unfold callPattern. intros H.
  apply plus_greedy_from in H as (name & s1 & H).
  apply star_greedy_from in H as (ws & s2 & H).
  apply parenthesized_Some in H as (body & rest & _ & _ & Hb & [= _ <-]).
  exact Hb.
Qed.

Lemma match_call_args toolCall funcName argsStr :
  match_call toolCall = Some (funcName, argsStr) ->
  Forall plain (parse_args argsStr).
Proof.
  intros H. apply parse_args_chars.
  induction toolCall as [|c s IH]; [discriminate H |].
  change (match callPattern (c :: s) with
          | Some r => Some r
          | None => match_call s
          end = Some (funcName, argsStr)) in H.
  destruct (callPattern (c :: s)) as [[f a] |] eqn:E.
  - injection H as -> ->. eapply callPattern_args, E.
  - apply IH, H.
Qed.

Lemma dispatch_model_args funcName args :
  Forall plain args -> issues_only model_args (CodingAgent.dispatch funcName args).
Proof.
  intros Hargs.
  assert (Harg : forall i s, args !! i = Some s -> plain s)
    by (intros i s; apply Forall_lookup_1, Hargs).
  assert (Hdot : plain (lit ".")) by (repeat constructor; discriminate).
  unfold CodingAgent.dispatch. apply issues_switch; [| apply issues_ret].
  split_Forall; cbn [snd].
  - unfold CodingAgent.on_fileTools, FileTools.readFile.
    repeat first [issues_step | apply issues_call; exact (Harg 0%nat)].
  - unfold CodingAgent.on_fileTools, FileTools.writeFile.
    repeat first [issues_step
                 | apply issues_call; exact (Harg 0%nat)
                 | apply issues_call; exact (Harg 1%nat)].
  - unfold CodingAgent.on_fileTools, FileTools.editFile.
    repeat first [issues_step
                 | apply issues_call; exact (Harg 0%nat)
                 | apply issues_call; exact (Harg 1%nat)].
  - unfold CommandTools.isSafeCommand_arg, CodingAgent.on_commandTools,
      CommandTools.executeCommand.
    destruct (args !! 0) as [c |] eqn:E; unfold receiver.
    + repeat first [issues_step
                   | apply issues_call; exists c; split;
                     [reflexivity | exact (Harg 0%nat c E)]].
    + intros st. exact I.
  - unfold CodingAgent.on_fileTools, FileTools.listFiles. cbv zeta.
    repeat first [issues_step | apply issues_call].
    intros s [= <-]. cbn [from_option id].
    destruct (args !! 0) as [[|ch arg] |] eqn:E; simpl;
      [exact Hdot | exact (Harg 0%nat _ E) | exact Hdot].
  - local_events'.
  - local_events'.
  - local_events'.
  - local_events'.
  - local_events'.
  - local_events'.
  - local_events'.
  - local_events'.
Qed.

(** X26: what a response of the model can make the tools do is limited by
    the way its calls are parsed: every path resolved, every content
    written and every command run on behalf of a response is an argument of
    a call, so a text with no quote character, no comma and no closing
    parenthesis. *)
Theorem X26_model_arguments_are_plain :
  forall response st,
    all_events model_args (CodingAgent.parseAndExecuteTools response st).
Proof.
  intros response.
  change (issues_only model_args (CodingAgent.parseAndExecuteTools response)).
  unfold CodingAgent.parseAndExecuteTools.
  destruct (match_toolCalls response); [| apply issues_ret].
  apply issues_for_of. intros acc toolCall.
  apply issues_bind; [| intros pushed; apply issues_ret].
  unfold CodingAgent.executeToolCall.
  apply issues_try_catch; [| intros e; apply issues_ret].
  destruct (match_call toolCall) as [[funcName argsStr] |] eqn:E;
    [| apply issues_ret].
  cbv zeta. apply issues_bind; [| intros result; apply issues_ret].
  apply dispatch_model_args. eapply match_call_args, E.
Qed.

(** ** What can make [processMessage] throw *)

Lemma runs_bind_raise {S A B} (m : M S A) (f : A -> M S B) s tr e s' :
  runs (bind m f s) tr (Raise e, s') ->
  runs (m s) tr (Raise e, s') \/
  exists tr1 tr2 a s1,
    tr = tr1 ++ tr2 /\ runs (m s) tr1 (Ok a, s1) /\ runs (f a s1) tr2 (Raise e, s').
Proof.
  unfold bind. intros H.
  apply runs_pbind in H as (tr1 & tr2 & [[a | e0] s1] & -> & H1 & H2).
  - right. eauto 8.
  - simpl in H2. destruct H2 as [-> [= -> ->]]. left.
    rewrite app_nil_r. exact H1.
Qed.

Lemma clock_or_console_app tr1 tr2 e :
  clock_or_console tr2 e -> clock_or_console (tr1 ++ tr2) e.
Proof.
  unfold clock_or_console. rewrite last_app.
  intros [H | [text H]]; rewrite H; eauto.
Qed.

Lemma pushHistory_raise r text s tr e s' :
  runs (CodingAgent.pushHistory r text s) tr (Raise e, s') ->
  clock_or_console tr e.
Proof.
  intros H. simpl in H. destruct H as (o & tr' & -> & H).
  destruct o as [now | x]; simpl in H; destruct H as [-> [= ]].
  subst. left. reflexivity.
Qed.

Lemma callOpenAI_raise messages s tr e s' :
  runs (CodingAgent.callOpenAI messages s) tr (Raise e, s') ->
  clock_or_console tr e.
Proof.
  intros H. simpl in H. destruct H as (o & tr' & -> & H).
  destruct o as [a | x]; simpl in H; [destruct H as [_ [= ]] |].
  destruct H as (o & tr'' & -> & H).
  destruct o as [[] | y]; simpl in H; destruct H as [-> [= ]].
  subst. right. eexists. reflexivity.
Qed.

Lemma listFiles_returns directory ft :
  wp (FileTools.listFiles directory) ft (fun r _ => exists res, r = Ok res).
Proof.
  unfold FileTools.listFiles. cbv zeta. apply wp_try_catch.
  eapply wp_mono; [apply wp_trivial |].
  intros [a | e] s' _; [eauto | apply wp_ret; eauto].
Qed.

Lemma generateSystemPrompt_returns st :
  wp CodingAgent.generateSystemPrompt st (fun r _ => exists text, r = Ok text).
Proof.
  unfold CodingAgent.generateSystemPrompt, CodingAgent.on_fileTools,
    FileTools.getCurrentDirectory.
  apply wp_bind, wp_zoom, wp_gets.
  apply wp_bind, wp_zoom. eapply wp_mono; [apply listFiles_returns |].
  intros r s' [files ->]. cbv beta iota.
  apply wp_bind, wp_gets. apply wp_bind, wp_gets. apply wp_ret. eauto.
Qed.

(** X27: [processMessage] withstands every failure of the file system, of
    the model, of the mailbox and of the commands it runs: a run can end in
    an exception only when reading the clock or printing on the error
    console throws, and that is then the last event of the run. *)
Theorem X27_processMessage_withstands_failures :
  forall userMessage st tr e st',
    runs (CodingAgent.processMessage userMessage st) tr (Raise e, st') ->
    clock_or_console tr e.
Proof.
  intros userMessage st tr e st' H. unfold CodingAgent.processMessage in H.
  apply runs_bind_raise in H as [H | (tr1 & tr2 & a & s1 & -> & _ & H)];
    [eapply pushHistory_raise, H |].
  apply clock_or_console_app.
  apply runs_bind_raise in H as [H | (tr3 & tr4 & systemPrompt & s2 & -> & _ & H)].
  { pose proof (generateSystemPrompt_returns s1) as W. rewrite wp_runs in W.
    destruct (W _ _ _ H) as [text [= ]]. }
  apply clock_or_console_app.
  apply runs_bind_raise in H as [H | (tr5 & tr6 & history & s3 & -> & _ & H)].
  { simpl in H. destruct H as [_ [= ]]. }
  apply clock_or_console_app.
  apply runs_bind_raise in H as [H | (tr7 & tr8 & aiResponse & s4 & -> & _ & H)];
    [eapply callOpenAI_raise, H |].
  apply clock_or_console_app.
  apply runs_bind_raise in H as [H | (tr9 & tr10 & toolResults & s5 & -> & _ & H)].
  { pose proof (parseAndExecuteTools_results aiResponse s4) as W.
    rewrite wp_runs in W. destruct (W _ _ _ H) as (results & [= ] & _). }
  apply clock_or_console_app.
  apply runs_bind_raise in H as [H | (tr11 & tr12 & u & s6 & -> & _ & H)];
    [eapply pushHistory_raise, H |].
  simpl in H. destruct H as [_ [= ]].
Qed.

Lemma X27_witness :
  clock_or_console [answer NewDate (Thrown NonError)] NonError.
Proof.
  apply (X27_processMessage_withstands_failures (lit "hello") (sample_state None)
           [answer NewDate (Thrown NonError)] NonError (sample_state None)).
  simpl. eexists _, _. split; [reflexivity |]. split; reflexivity.
Defined.

(** ** The message count *)

(** X28: each message processed adds two to the number of conversation
    messages that [getMCPContext] reports (the number the context command
    prints): the message of the user and the reply. *)
Theorem X28_message_count_grows_by_two :
  forall userMessage st h,
    history_of st = Some h ->
    wp (let* _ := CodingAgent.processMessage userMessage in
        CodingAgent.getMCPContext) st
       (fun r _ =>
          forall c, r = Ok c ->
                    CodingAgent.mcp_conversationHistory c = (length h + 2)%nat).
Proof.
  intros userMessage st h Hh. apply wp_bind.
  eapply wp_mono; [apply processMessage_grown |].
  intros [text | e] s' (msgs & Hg & Hm); cbv beta iota; [| intros c [= ]].
  destruct Hm as (t1 & t2 & ->). destruct Hg as [Hg _].
  rewrite Hh in Hg. simpl in Hg.
  unfold CodingAgent.getMCPContext. apply wp_bind, wp_gets, wp_ret.
  intros c [= <-]. cbn [CodingAgent.mcp_conversationHistory id].
  unfold messages_at. fold (history_of s'). rewrite Hg.
  cbn [from_option id]. rewrite length_app. reflexivity.
Qed.

Lemma X28_witness :
  wp (let* _ := CodingAgent.processMessage (lit "hello") in
      CodingAgent.getMCPContext) (sample_state None)
     (fun r _ =>
        forall c, r = Ok c ->
                  CodingAgent.mcp_conversationHistory c = (length (@nil AgentMessage) + 2)%nat).
Proof.
  exact (X28_message_count_grows_by_two (lit "hello") (sample_state None) [] eq_refl).
Defined.
